(** * A hand-written lexical analyser (codigo.py), embedded and verified

  The Python module defines the static category tables, the [Token]
  dataclass, the [LexerError] exception and the class [Lexer], whose
  methods scan a source text character by character, and ends with the
  block that runs the scanner on a file and prints its tokens.  This
  file embeds them as Rocq functions over an explicit lexer state and
  proves the properties of the scanning engine and of that block.

  Characters.  A Python [str] is a sequence of Unicode code points.  The
  embedding takes the code points U+0000 .. U+00FF: a character is an
  [ascii] whose number is its code point, and a [string] is a Python
  [str] over that range.  The predicates [str.isalpha], [str.isdigit],
  [str.isalnum] and the conversion [int] are language built-ins; they
  are tabulated below on that range from the Unicode character database
  (general category and numeric type), which is what CPython consults.

  Integers.  Python [int] is unbounded: offsets, lines, columns and
  symbol ids are [nat], literal values are [Z].  CPython's configurable
  cap on the length of a decimal string handed to [int] is not part of
  the model.

  Loops.  Each [while] loop is a recursion on a fuel that is set from
  the number of characters left; the proofs show that this fuel is never
  what ends a loop.

  Output.  The driver block is a function of [sys.argv] and of what
  opening and reading the file gives; what it prints is a list with one
  string for each call of [print].  [repr], the format [:<w] and [str]
  of an integer are modelled on the same range of characters.

  Layout.  The embedding comes first, then the notions the properties
  are stated with, then the proofs, and last the properties of the
  scanner and of the driver.  One defect shows: [read_number] selects its characters with
  [str.isdigit] and converts them with [int], and the two disagree on
  the superscript digits U+00B2, U+00B3 and U+00B9, so that a scan can
  end in a [ValueError]; what holds away from those characters is stated
  beside it. *)

From stdpp Require Import gmap strings list fin_maps pretty.
From Stdlib Require Import Ascii ZArith Lia.
From Stdlib Require String.

Local Open Scope Z_scope.
Local Open Scope nat_scope.

(** ** Python built-ins on [str] *)

Module Py.

(** Code point of a character. *)
Definition ord (c : ascii) : nat := nat_of_ascii c.

Definition between (lo hi k : nat) : bool := (lo <=? k) && (k <=? hi).

(** General category L*: A-Z, a-z, U+00AA, U+00B5, U+00BA,
    U+00C0-U+00D6, U+00D8-U+00F6, U+00F8-U+00FF. *)
Definition char_isalpha (c : ascii) : bool :=
  let k := ord c in
  between 65 90 k || between 97 122 k
  || (k =? 170) || (k =? 181) || (k =? 186)
  || between 192 214 k || between 216 246 k || between 248 255 k.

(** General category Nd (Numeric_Type=Decimal): 0-9 only. *)
Definition char_isdecimal (c : ascii) : bool := between 48 57 (ord c).

(** Numeric_Type=Decimal or Digit: 0-9 and the superscripts U+00B2,
    U+00B3, U+00B9. *)
Definition char_isdigit (c : ascii) : bool :=
  let k := ord c in
  between 48 57 k || (k =? 178) || (k =? 179) || (k =? 185).

(** Any numeric type: the above and the fractions U+00BC-U+00BE. *)
Definition char_isnumeric (c : ascii) : bool :=
  char_isdigit c || between 188 190 (ord c).

Definition char_isalnum (c : ascii) : bool :=
  char_isalpha c || char_isdecimal c || char_isdigit c || char_isnumeric c.

(** A [str] method of the [isX] family holds when the string is not
    empty and every character has the property. *)
Fixpoint all_chars (p : ascii -> bool) (s : string) : bool :=
  match s with
  | EmptyString => true
  | String c r => p c && all_chars p r
  end.

Definition nonempty (s : string) : bool :=
  match s with EmptyString => false | String _ _ => true end.

Definition isalpha (s : string) : bool := nonempty s && all_chars char_isalpha s.
Definition isdigit (s : string) : bool := nonempty s && all_chars char_isdigit s.
Definition isalnum (s : string) : bool := nonempty s && all_chars char_isalnum s.

(** [a in b] on two strings: [a] occurs in [b] as a substring. *)
Fixpoint str_in (a b : string) : bool :=
  String.prefix a b
  || match b with
     | EmptyString => false
     | String _ r => str_in a r
     end.

(** [s.upper()].  The lexer applies it to reserved words only, which are
    lower-case ASCII; on other characters this table is the identity. *)
Definition char_upper (c : ascii) : ascii :=
  if between 97 122 (ord c) then ascii_of_nat (ord c - 32) else c.

Fixpoint upper (s : string) : string :=
  match s with
  | EmptyString => EmptyString
  | String c r => String (char_upper c) (upper r)
  end.

(** Value of a decimal character. *)
Definition decimal_value (c : ascii) : option Z :=
  if char_isdecimal c then Some (Z.of_nat (ord c - 48)) else None.

Fixpoint int_digits (acc : Z) (s : string) : option Z :=
  match s with
  | EmptyString => Some acc
  | String c r =>
      match decimal_value c with
      | Some d => int_digits (10 * acc + d)%Z r
      | None => None
      end
  end.

(** [int(s)] for a string without sign, blanks or underscores, which is
    all the lexer passes: the base-10 value when [s] is a non-empty run
    of decimal characters, and [None] where Python raises [ValueError]. *)
Definition int (s : string) : option Z :=
  if nonempty s then int_digits 0%Z s else None.

End Py.

(** ** Category tables *)

Definition NL : string := String "010" EmptyString.
Definition WHITESPACE : string :=
  String " " (String "009" (String "013" (String "010" EmptyString))).

Definition KEYWORDS : gset string :=
  list_to_set
    [ "if"; "else"; "while"; "for"; "return";
      "int"; "float"; "void"; "char"; "bool";
      "true"; "false"; "break"; "continue" ].

Definition OPERATORS_2_items : list (string * string) :=
  [ ("<=", "MEOI"); (">=", "MAOI"); ("==", "IGL"); ("!=", "DIS");
    ("++", "INC"); ("--", "DEC"); ("+=", "MASIG"); ("-=", "MENOSIG");
    ("*=", "MULIG"); ("/=", "DIVIG"); ("&&", "LAND"); ("||", "LOR") ].

Definition OPERATORS_1_items : list (string * string) :=
  [ ("+", "MAS"); ("-", "MENOS"); ("*", "MUL"); ("/", "DIV"); ("%", "MOD");
    ("<", "MEQ"); (">", "MAQ"); ("=", "ES"); ("!", "NO"); (":", "DPTS") ].

Definition PUNCT_items : list (string * string) :=
  [ (";", "PYC"); (",", "COMA"); ("(", "IPAREN"); (")", "DPAREN");
    ("{", "ILLAVE"); ("}", "DLLAVE"); ("[", "ICOR"); ("]", "DCOR");
    (".", "PUN") ].

Definition OPERATORS_2 : gmap string string := list_to_map OPERATORS_2_items.
Definition OPERATORS_1 : gmap string string := list_to_map OPERATORS_1_items.
Definition PUNCT : gmap string string := list_to_map PUNCT_items.

(** ** Tokens and exceptions *)

Module Token.
Record t : Type := Make {
  type : string;
  lexeme : string;
  line : nat;
  col : nat;
  value : option Z;
  lid : option nat
}.
End Token.

(** [Token(type, lexeme, line, col)] with the two defaulted fields. *)
Definition Token4 (ty lex : string) (ln cl : nat) : Token.t :=
  Token.Make ty lex ln cl None None.

(** The exceptions a scan can raise.  [LexerError] is raised with the
  message "Caracter inesperado 'ch' en linea L, col C"; the embedding
  keeps the three values the message is formatted from.  [ValueError]
  is what [int] raises on a string it cannot convert. *)
Inductive Exn : Type :=
| LexerError (ch : string) (ln cl : nat)
| ValueError (lex : string).

(** ** The scanner *)

Module Lexer.

(** The fields of a [Lexer] object.  [self.n] is [len(text)], fixed at
    construction, and is the derived quantity [n] below. *)
Record t : Type := Make {
  text : string;
  pos : nat;
  line : nat;
  col : nat;
  lettab : gmap string nat;
  _letseq : nat
}.

(** [Lexer(text)]: offset 0, line 1, column 1, an empty symbol table and
    the id counter at 0. *)
Definition init (txt : string) : t := Make txt 0 1 1 ∅ 0.

Definition n (lx : t) : nat := String.length (text lx).

(** What a method call leaves behind: a returned value or a raised
    exception, and the state of the object at that point. *)
Inductive Result (A : Type) : Type :=
| Return (a : A) (lx : t)
| Raise (e : Exn) (lx : t).
Arguments Return {A} a lx.
Arguments Raise {A} e lx.

(** [self.pos >= self.n]. *)
Definition at_end (lx : t) : bool := n lx <=? pos lx.

(** The character at [pos + k] as a one-character string, or the empty
    string past the end of the text; the state is only read.  The index
    is in range whenever it is used, so the [None] branch is never taken. *)
Definition peek (lx : t) (k : nat) : string :=
  if n lx <=? pos lx + k then EmptyString
  else match String.get (pos lx + k) (text lx) with
       | Some c => String c EmptyString
       | None => EmptyString
       end.

(** Returns the character under the cursor and moves one step: to the
    next line, column 1, when that character is the newline, and one
    column to the right otherwise. *)
Definition advance (lx : t) : string * t :=
  let ch := peek lx 0 in
  (ch,
   if String.eqb ch NL
   then Make (text lx) (pos lx + 1) (line lx + 1) 1 (lettab lx) (_letseq lx)
   else Make (text lx) (pos lx + 1) (line lx) (col lx + 1) (lettab lx) (_letseq lx)).

(** [while not self.at_end() and p(self.peek()): acc = f acc (self.advance())].
    Every iteration moves [pos] one step towards [n], so [n - pos]
    iterations are all such a loop can make. *)
Fixpoint advance_while (fuel : nat) (p : string -> bool)
    {A : Type} (f : A -> string -> A) (acc : A) (lx : t) : A * t :=
  match fuel with
  | O => (acc, lx)
  | S fuel' =>
      if negb (at_end lx) && p (peek lx 0)
      then let '(ch, lx') := advance lx in
           advance_while fuel' p f (f acc ch) lx'
      else (acc, lx)
  end.

Definition remaining (lx : t) : nat := n lx - pos lx.

(** One pass of the body of [while moved], from [moved = False]: the loop
    over blanks, which sets [moved] when it consumes one, then the
    comment, consumed up to and without the newline, which sets [moved]
    too.  Returns the final [moved]. *)
Definition skip_pass (lx : t) : bool * t :=
  let '(moved, lx1) :=
    advance_while (remaining lx) (fun ch => Py.str_in ch WHITESPACE)
      (fun _ _ => true) false lx in
  if String.eqb (peek lx1 0) "/" && String.eqb (peek lx1 1) "/"
  then
    let '(_, lx2) :=
      advance_while (remaining lx1) (fun ch => negb (String.eqb ch NL))
        (fun u _ => u) tt lx1 in
    (true, lx2)
  else (moved, lx1).

Fixpoint skip_loop (fuel : nat) (lx : t) : t :=
  match fuel with
  | O => lx
  | S fuel' =>
      let '(moved, lx') := skip_pass lx in
      if moved then skip_loop fuel' lx' else lx'
  end.

(** A pass that sets [moved] consumes at least one character, so there
    are at most [n - pos] of them, followed by one that does not. *)
Definition skip_ws_and_comments (lx : t) : t :=
  skip_loop (S (remaining lx)) lx.

(** Returns [None] unless the character under the cursor is alphabetic
    or [_]; otherwise consumes it and every alphanumeric character or [_]
    that follows, and classifies the lexeme.  [lid] is read from the
    table after the insertion, as [self.lettab[lex]] is. *)
Definition read_identifier_or_keyword (lx : t) : option Token.t * t :=
  let ch := peek lx 0 in
  if negb (Py.isalpha ch || String.eqb ch "_") then (None, lx)
  else
    let start_line := line lx in
    let start_col := col lx in
    let '(lex0, lx1) := advance lx in
    let '(lex, lx2) :=
      advance_while (remaining lx1)
        (fun c => Py.isalnum c || String.eqb c "_")
        (fun l c => l +:+ c) lex0 lx1 in
    let ttype := if bool_decide (lex ∈ KEYWORDS)
                 then "KW_" +:+ Py.upper lex else "ID" in
    if String.eqb ttype "ID" then
      let lx3 :=
        match lettab lx2 !! lex with
        | None =>
            Make (text lx2) (pos lx2) (line lx2) (col lx2)
              (<[lex := _letseq lx2]> (lettab lx2)) (_letseq lx2 + 1)
        | Some _ => lx2
        end in
      (Some (Token.Make ttype lex start_line start_col None (lettab lx3 !! lex)), lx3)
    else (Some (Token4 ttype lex start_line start_col), lx2).

(** Returns [None] unless [peek().isdigit()]; otherwise consumes the run
    of characters [isdigit] accepts and converts it with [int], whose
    [ValueError] nothing catches. *)
Definition read_number (lx : t) : Result (option Token.t) :=
  if negb (Py.isdigit (peek lx 0)) then Return None lx
  else
    let start_line := line lx in
    let start_col := col lx in
    let '(lex0, lx1) := advance lx in
    let '(lex, lx2) :=
      advance_while (remaining lx1) Py.isdigit (fun l c => l +:+ c) lex0 lx1 in
    match Py.int lex with
    | Some v => Return (Some (Token.Make "NUM" lex start_line start_col (Some v) None)) lx2
    | None => Raise (ValueError lex) lx2
    end.

(** The two-character table first, then the one-character operators,
    then the punctuation marks. *)
Definition read_operator_or_punct (lx : t) : option Token.t * t :=
  let start_line := line lx in
  let start_col := col lx in
  let two_chars := peek lx 0 +:+ peek lx 1 in
  match OPERATORS_2 !! two_chars with
  | Some ty =>
      let lx1 := snd (advance lx) in
      let lx2 := snd (advance lx1) in
      (Some (Token4 ty two_chars start_line start_col), lx2)
  | None =>
      let one_char := peek lx 0 in
      match OPERATORS_1 !! one_char with
      | Some ty =>
          (Some (Token4 ty one_char start_line start_col), snd (advance lx))
      | None =>
          match PUNCT !! one_char with
          | Some ty =>
              (Some (Token4 ty one_char start_line start_col), snd (advance lx))
          | None => (None, lx)
          end
      end
  end.

(** Skips trivia, returns the end marker at the end of the text, and
    otherwise tries the recognisers in order; [if token: return token]
    tests for [None], a [Token] being always true.  Raises [LexerError]
    when all three return [None]. *)
Definition next_token (lx : t) : Result Token.t :=
  let lx := skip_ws_and_comments lx in
  if at_end lx then Return (Token4 "EOF" EmptyString (line lx) (col lx)) lx
  else
    match read_identifier_or_keyword lx with
    | (Some token, lx) => Return token lx
    | (None, lx) =>
        match read_number lx with
        | Raise e lx => Raise e lx
        | Return (Some token) lx => Return token lx
        | Return None lx =>
            match read_operator_or_punct lx with
            | (Some token, lx) => Return token lx
            | (None, lx) =>
                let ch := peek lx 0 in
                Raise (LexerError ch (line lx) (col lx)) lx
            end
        end
    end.

(** [while True: tok = self.next_token(); tokens.append(tok); ...].
    [None] stands for a loop that has not finished within [fuel]
    iterations. *)
Fixpoint tokenize_loop (fuel : nat) (lx : t) (tokens : list Token.t)
    : option (Result (list Token.t)) :=
  match fuel with
  | O => None
  | S fuel' =>
      match next_token lx with
      | Raise e lx' => Some (Raise e lx')
      | Return tok lx' =>
          let tokens := tokens ++ [tok] in
          if String.eqb (Token.type tok) "EOF"
          then Some (Return tokens lx')
          else tokenize_loop fuel' lx' tokens
      end
  end.

(** Every token but the end marker consumes a character, so the loop
    body runs at most [n - pos + 1] times. *)
Definition tokenize (lx : t) : option (Result (list Token.t)) :=
  tokenize_loop (S (remaining lx)) lx [].

End Lexer.

Import Lexer.

(** ** The command line driver *)

(** The block under [if __name__ == "__main__"], as a function of what it
    takes from outside: [sys.argv], and what opening and reading a file
    gives.  The result is what the block prints, one string for each
    call of [print], and the way it ends. *)

Module Cli.

(** [str.isprintable] on one character: every code point up to U+00FF
    but the controls U+0000-U+001F and U+007F-U+009F, the no-break space
    U+00A0 and the soft hyphen U+00AD. *)
Definition char_isprintable (c : ascii) : bool :=
  let k := Py.ord c in
  negb (Py.between 0 31 k || Py.between 127 160 k || (k =? 173)).

Definition apostrophe : ascii := "039".
Definition double_quote : ascii := "034".
Definition backslash : ascii := "092".

Fixpoint contains (c : ascii) (s : string) : bool :=
  match s with
  | EmptyString => false
  | String d r => Ascii.eqb c d || contains c r
  end.

Definition hex_digit (k : nat) : ascii :=
  match String.get k "0123456789abcdef" with
  | Some c => c
  | None => "0"
  end.

(** One character of [repr(s)] between the quotes [q]: the quote and the
    backslash take a backslash, tab, newline and carriage return their
    letter, any other character that is not printable its code as
    [\xhh]. *)
Definition repr_char (q c : ascii) : string :=
  if Ascii.eqb c q || Ascii.eqb c backslash then String backslash (String c EmptyString)
  else if Ascii.eqb c "009" then String backslash "t"
  else if Ascii.eqb c "010" then String backslash "n"
  else if Ascii.eqb c "013" then String backslash "r"
  else if char_isprintable c then String c EmptyString
  else String backslash
         (String "x" (String (hex_digit (Py.ord c / 16))
                        (String (hex_digit (Py.ord c mod 16)) EmptyString))).

Fixpoint repr_body (q : ascii) (s : string) : string :=
  match s with
  | EmptyString => EmptyString
  | String c r => repr_char q c +:+ repr_body q r
  end.

(** [repr(s)], what the conversion [!r] gives: [s] between apostrophes,
    or between double quotes when it holds an apostrophe and no double
    quote. *)
Definition repr (s : string) : string :=
  let q := if contains apostrophe s && negb (contains double_quote s)
           then double_quote else apostrophe in
  String q (repr_body q s +:+ String q EmptyString).

Fixpoint spaces (k : nat) : string :=
  match k with
  | O => EmptyString
  | S k' => String " " (spaces k')
  end.

(** The format [:<w]: [s] with blanks after it up to the width [w]. *)
Definition ljust (w : nat) (s : string) : string :=
  s +:+ spaces (w - String.length s).

(** The line printed for a token:
    [f"{t.type:<10} {t.lexeme!r:<14} @({t.line},{t.col}){lid_str}{val_str}"]. *)
Definition token_line (t : Token.t) : string :=
  let lid_str :=
    match Token.lid t with
    | None => EmptyString
    | Some i => "  lid=" +:+ pretty i
    end in
  let val_str :=
    match Token.value t with
    | None => EmptyString
    | Some v => "  val=" +:+ pretty v
    end in
  ljust 10 (Token.type t) +:+ " " +:+ ljust 14 (repr (Token.lexeme t))
  +:+ " @(" +:+ pretty (Token.line t) +:+ "," +:+ pretty (Token.col t) +:+ ")"
  +:+ lid_str +:+ val_str.






End Cli.

(** * Notions the properties are stated with *)

(** ** The text ahead of the cursor *)

(** [s[k:]] and [s[:k]]. *)
Fixpoint sdrop (k : nat) (s : string) : string :=
  match k, s with
  | O, _ => s
  | S k', String _ r => sdrop k' r
  | S _, EmptyString => EmptyString
  end.

Fixpoint stake (k : nat) (s : string) : string :=
  match k, s with
  | O, _ => EmptyString
  | S k', String c r => String c (stake k' r)
  | S _, EmptyString => EmptyString
  end.

(** [txt[p : p + k]]. *)
Definition slice (txt : string) (p k : nat) : string := stake k (sdrop p txt).

(** What is left to scan: [text[pos:]]. *)
Definition rest (lx : t) : string := sdrop (pos lx) (text lx).

Definition shead (s : string) : string :=
  match s with EmptyString => EmptyString | String c _ => String c EmptyString end.

Definition stail (s : string) : string :=
  match s with EmptyString => EmptyString | String _ r => r end.

Definition starts_with (p : ascii -> bool) (s : string) : bool :=
  match s with
  | EmptyString => false
  | String c _ => p c
  end.

(** The longest prefix of [s] whose characters satisfy [p], and what
    follows it. *)
Fixpoint span (p : ascii -> bool) (s : string) : string * string :=
  match s with
  | EmptyString => (EmptyString, EmptyString)
  | String c r =>
      if p c then let '(a, b) := span p r in (String c a, b)
      else (EmptyString, s)
  end.

(** The accumulator of a loop after it has consumed the characters of
    [s], each handed over as a one-character string. *)
Fixpoint fold_chars {A : Type} (f : A -> string -> A) (acc : A) (s : string) : A :=
  match s with
  | EmptyString => acc
  | String c r => fold_chars f (f acc (String c EmptyString)) r
  end.

(** ** Moving the cursor *)

Definition is_nl (c : ascii) : bool := Ascii.eqb c "010".
Definition not_nl (c : ascii) : bool := negb (is_nl c).

(** The state after [advance] has consumed the character [c]. *)
Definition step_char (c : ascii) (lx : t) : t :=
  if is_nl c
  then Lexer.Make (text lx) (pos lx + 1) (line lx + 1) 1 (lettab lx) (_letseq lx)
  else Lexer.Make (text lx) (pos lx + 1) (line lx) (col lx + 1) (lettab lx) (_letseq lx).

(** The state after the characters of [s] have been consumed in turn. *)
Fixpoint consume (s : string) (lx : t) : t :=
  match s with
  | EmptyString => lx
  | String c r => consume r (step_char c lx)
  end.

(** ** Positions, stated on the text alone *)

Fixpoint count_nl (s : string) : nat :=
  match s with
  | EmptyString => 0
  | String c r => (if is_nl c then 1 else 0) + count_nl r
  end.

Definition contains_nl (s : string) : bool := negb (Py.all_chars not_nl s).

(** What follows the last newline of [s]; all of [s] when it has none. *)
Fixpoint after_last_nl (s : string) : string :=
  match s with
  | EmptyString => EmptyString
  | String c r =>
      if contains_nl r then after_last_nl r
      else if is_nl c then r else s
  end.

(** Line and column, both counted from 1, of the character that follows
    the text [s]: one more than the newlines of [s], and one more than
    the characters after the last of them. *)
Definition end_line (s : string) : nat := 1 + count_nl s.
Definition end_col (s : string) : nat := 1 + String.length (after_last_nl s).

(** The cursor holds the line and column of the character at [pos]. *)
Definition synced (lx : t) : Prop :=
  line lx = end_line (stake (pos lx) (text lx))
  /\ col lx = end_col (stake (pos lx) (text lx)).

(** [tok] is the text at offset [p], stamped with the line and column of
    that offset. *)
Definition token_at (txt : string) (p : nat) (tok : Token.t) : Prop :=
  slice txt p (String.length (Token.lexeme tok)) = Token.lexeme tok
  /\ Token.line tok = end_line (stake p txt)
  /\ Token.col tok = end_col (stake p txt).

(** ** Trivia *)

Definition ws_char (c : ascii) : bool :=
  match c with
  | " " | "009" | "013" | "010" => true
  | _ => false
  end%char.

(** The trivia at the head of a text: blanks and [//] comments, each
    comment running up to the next newline or the end of the text.
    [in_comment] tells that the text starts inside a comment. *)
Fixpoint trivia_prefix (in_comment : bool) (s : string) : string :=
  match s with
  | EmptyString => EmptyString
  | String c r =>
      if in_comment && negb (is_nl c) then String c (trivia_prefix true r)
      else if ws_char c then String c (trivia_prefix false r)
      else if Ascii.eqb c "/" && String.prefix "/" r
           then String c (trivia_prefix true r)
      else EmptyString
  end.

(** Texts made of blanks and [//] comments only.  A comment runs to the
    end of the text or to the newline that ends its line. *)
Inductive TriviaOnly : string -> Prop :=
| trivia_empty : TriviaOnly EmptyString
| trivia_blank c s :
    ws_char c = true -> TriviaOnly s -> TriviaOnly (String c s)
| trivia_comment_end body :
    Py.all_chars not_nl body = true -> TriviaOnly ("//" +:+ body)
| trivia_comment_line body s :
    Py.all_chars not_nl body = true -> TriviaOnly s ->
    TriviaOnly ("//" +:+ body +:+ NL +:+ s).

(** The same set of texts, decided: all of the text is trivia. *)
Definition trivia_only (s : string) : bool := String.eqb (trivia_prefix false s) s.

(** ** Recognisers and token streams *)

Definition ident_start (c : ascii) : bool := Py.char_isalpha c || Ascii.eqb c "_".
Definition ident_char (c : ascii) : bool := Py.char_isalnum c || Ascii.eqb c "_".

(** The symbol-table step of [read_identifier_or_keyword]:
    [if lex not in self.lettab: self.lettab[lex] = self._letseq; self._letseq += 1]. *)
Definition intern (lex : string) (lx : t) : t :=
  match lettab lx !! lex with
  | None =>
      Lexer.Make (text lx) (pos lx) (line lx) (col lx)
        (<[lex := _letseq lx]> (lettab lx)) (_letseq lx + 1)
  | Some _ => lx
  end.

(** What it means for a recogniser started in state [lx0] to have
    produced [tok] and left the scanner in [lx1]: the token is stamped
    with the position of [lx0], its lexeme is a non-empty prefix of the
    text ahead, and the scanner has moved past exactly that lexeme,
    touching the symbol table only for an identifier. *)
Definition produces (lx0 : t) (tok : Token.t) (lx1 : t) : Prop :=
  Token.line tok = line lx0 /\ Token.col tok = col lx0 /\
  Token.lexeme tok <> EmptyString /\ Token.type tok <> "EOF" /\
  rest lx0 = Token.lexeme tok +:+ rest lx1 /\
  lx1 = (if String.eqb (Token.type tok) "ID"
         then intern (Token.lexeme tok) (consume (Token.lexeme tok) lx0)
         else consume (Token.lexeme tok) lx0) /\
  Token.lid tok = (if String.eqb (Token.type tok) "ID"
                   then lettab lx1 !! Token.lexeme tok else None).

(** The end marker [next_token] returns in state [lx]. *)
Definition EOF_at (lx : t) : Token.t := Token4 "EOF" EmptyString (line lx) (col lx).

Definition is_eof (tok : Token.t) : bool := String.eqb (Token.type tok) "EOF".

(** A run of successful [next_token] calls: the tokens they return, in
    order, and the state they leave. *)
Inductive scans : t -> list Token.t -> t -> Prop :=
| scans_nil lx : scans lx [] lx
| scans_cons lx tok lx1 toks lx2 :
    next_token lx = Return tok lx1 -> scans lx1 toks lx2 ->
    scans lx (tok :: toks) lx2.

(** ** Symbol ids in order of first occurrence *)

Definition is_id (tok : Token.t) : bool := String.eqb (Token.type tok) "ID".

Definition id_tokens (toks : list Token.t) : list Token.t := List.filter is_id toks.

(** The rank of [x] in [l], counted from 0. *)
Fixpoint index_of (x : string) (l : list string) : option nat :=
  match l with
  | [] => None
  | y :: r => if String.eqb x y then Some 0 else S <$> index_of x r
  end.

(** The ids of a sequence of spellings when [seen] lists the spellings met
    so far: a spelling met before keeps its rank in [seen], a new one
    takes the next rank and joins the list. *)
Fixpoint first_seen_ids (seen : list string) (lexs : list string) : list nat :=
  match lexs with
  | [] => []
  | x :: r =>
      match index_of x seen with
      | Some i => i :: first_seen_ids seen r
      | None => length seen :: first_seen_ids (seen ++ [x]) r
      end
  end.

(** The symbol table holds each spelling of [seen] with its rank, and the
    counter is the next rank. *)
Definition table_of (seen : list string) (lx : t) : Prop :=
  _letseq lx = length seen /\ forall k, lettab lx !! k = index_of k seen.

(** [seen] once the spelling [lex] has been met. *)
Definition note (lex : string) (seen : list string) : list string :=
  match index_of lex seen with
  | Some _ => seen
  | None => seen ++ [lex]
  end.

(** ** Numbers *)

(** The value of a run of decimal characters in positional notation: each
    digit times the power of ten of its place. *)
Fixpoint positional_value (s : string) : Z :=
  match s with
  | EmptyString => 0
  | String c r =>
      (Z.of_nat (Py.ord c - 48) * 10 ^ Z.of_nat (String.length r)
       + positional_value r)%Z
  end.



(** ** Tokens laid back on the text *)

(** The text a run of tokens was read from: before each lexeme, the
    trivia that was skipped to reach it. *)
Fixpoint weave (gaps : list string) (toks : list Token.t) : string :=
  match gaps, toks with
  | g :: gs, tok :: ts => g +:+ Token.lexeme tok +:+ weave gs ts
  | _, _ => EmptyString
  end.

(** ** What a call may change *)

(** From [lx] to [lx']: the text is the same, the offset and the line
    have not moved back, the symbol table has kept every entry it had and
    the id counter has not gone down; an offset inside the text stays
    inside it. *)
Definition moved_on (lx lx' : t) : Prop :=
  text lx' = text lx /\ pos lx <= pos lx' /\ line lx <= line lx'
  /\ lettab lx ⊆ lettab lx' /\ _letseq lx <= _letseq lx'
  /\ (pos lx <= n lx -> pos lx' <= n lx').

(** ** The kinds of token *)

(** [ty] is the kind one of the three tables gives the lexeme [lex]. *)
Definition operator_kind (lex ty : string) : Prop :=
  OPERATORS_2 !! lex = Some ty \/ OPERATORS_1 !! lex = Some ty
  \/ PUNCT !! lex = Some ty.

(** The tokens the scanner can return, kind by kind: which lexemes a kind
    goes with, and which of the two optional fields it fills. *)
Inductive well_formed : Token.t -> Prop :=
| wf_eof ln cl : well_formed (Token4 "EOF" EmptyString ln cl)
| wf_keyword lex ln cl :
    lex ∈ KEYWORDS -> well_formed (Token4 ("KW_" +:+ Py.upper lex) lex ln cl)
| wf_identifier c run ln cl i :
    ident_start c = true -> Py.all_chars ident_char run = true ->
    String c run ∉ KEYWORDS ->
    well_formed (Token.Make "ID" (String c run) ln cl None (Some i))
| wf_number lex ln cl :
    lex <> EmptyString -> Py.all_chars Py.char_isdecimal lex = true ->
    well_formed (Token.Make "NUM" lex ln cl (Some (positional_value lex)) None)
| wf_operator lex ty ln cl :
    operator_kind lex ty -> well_formed (Token4 ty lex ln cl).

(** ** Composing calls *)

(** A result of [tokenize] with the tokens [front] put before its list:
    what a caller holds who has pulled [front] with [next_token] and then
    calls [tokenize]. *)
Definition prepend (front : list Token.t)
    (r : option (Result (list Token.t))) : option (Result (list Token.t)) :=
  match r with
  | Some (Return toks lx) => Some (Return (front ++ toks) lx)
  | other => other
  end.

(** ** Writing tokens back *)

(** The lexemes of a token list written out, a blank after each. *)
Fixpoint unparse (toks : list Token.t) : string :=
  match toks with
  | [] => EmptyString
  | tok :: r => Token.lexeme tok +:+ " " +:+ unparse r
  end.

(** Two tokens that differ at most in their line and column. *)
Definition same_token (a b : Token.t) : Prop :=
  Token.type a = Token.type b /\ Token.lexeme a = Token.lexeme b
  /\ Token.value a = Token.value b /\ Token.lid a = Token.lid b.

(** ** What a call looks at *)

(** Two scanners with the same text ahead, line, column, symbol table
    and id counter; the text behind them may differ. *)
Definition same_view (a b : t) : Prop :=
  rest a = rest b /\ line a = line b /\ col a = col b
  /\ lettab a = lettab b /\ _letseq a = _letseq b.

(** Two calls that end the same way, with the same value or exception,
    in scanners with the same view. *)
Definition same_outcome {A : Type} (r1 r2 : Result A) : Prop :=
  match r1, r2 with
  | Return x a, Return y b => x = y /\ same_view a b
  | Raise e a, Raise f b => e = f /\ same_view a b
  | _, _ => False
  end.

(** ** Characters the scanner always accepts *)


(** ** Characters printed as they are *)

(** A character [repr] writes as it is between apostrophes: printable,
    and neither a quote nor a backslash. *)
Definition plainly_printed (c : ascii) : bool :=
  Cli.char_isprintable c && negb (Ascii.eqb c Cli.apostrophe)
  && negb (Ascii.eqb c Cli.double_quote) && negb (Ascii.eqb c Cli.backslash).

(** ** Proof steps *)

(** An entry of a category table is one of the items it was built from. *)
Ltac table_cases H :=
  apply elem_of_list_to_map_2 in H;
  repeat (apply elem_of_cons in H as [H|H];
          [injection H as -> ->; repeat eexists; done|]);
  by apply elem_of_nil in H.

(** Reads the fields of a token that is written out. *)
Ltac tok_simpl :=
  cbn [Token.line Token.col Token.lexeme Token.type Token.lid Token.value Token4
       fst snd].

(** * Proofs *)

Section Strings.

Lemma length_sdrop k s : String.length (sdrop k s) = String.length s - k.
Proof. revert s; induction k as [|k IH]; intros [|c s]; simpl; auto with lia. Qed.

Lemma get_sdrop k j s : String.get (k + j) s = String.get j (sdrop k s).
Proof.
  revert s; induction k as [|k IH]; intros [|c s]; simpl; auto.
Qed.

Lemma sdrop_succ k s : sdrop (k + 1) s = stail (sdrop k s).
Proof.
  revert s; induction k as [|k IH]; intros [|c s]; simpl; auto.
Qed.

Lemma string_app_cons c a b : String c a +:+ b = String c (a +:+ b).
Proof. reflexivity. Qed.

Lemma string_app_nil_l b : EmptyString +:+ b = b.
Proof. reflexivity. Qed.

Lemma string_app_nil_r a : a +:+ EmptyString = a.
Proof. induction a as [|c a IH]; [done|]. by rewrite string_app_cons, IH. Qed.

Lemma string_app_assoc a b c : (a +:+ b) +:+ c = a +:+ b +:+ c.
Proof. induction a as [|x a IH]; [done|]. by rewrite !string_app_cons, IH. Qed.

Lemma string_length_app a b : String.length (a +:+ b) = String.length a + String.length b.
Proof. induction a as [|c a IH]; [done|]. rewrite string_app_cons. simpl. lia. Qed.

Lemma sdrop_app_length a b : sdrop (String.length a) (a +:+ b) = b.
Proof. induction a as [|c a IH]; simpl; auto. Qed.

Lemma stake_app_length a b : stake (String.length a) (a +:+ b) = a.
Proof.
  induction a as [|c a IH]; [by destruct b|].
  rewrite string_app_cons. simpl. by rewrite IH.
Qed.

Lemma stake_extend k txt s tl :
  sdrop k txt = s +:+ tl -> stake (k + String.length s) txt = stake k txt +:+ s.
Proof.
  revert txt; induction k as [|k IH]; intros txt H.
  - simpl in *. subst. rewrite stake_app_length. by destruct (s +:+ tl).
  - destruct txt as [|c r]; simpl in *.
    + destruct s; [done|]. by rewrite string_app_cons in H.
    + rewrite string_app_cons. f_equal. by apply IH.
Qed.

Lemma prefix_empty s : String.prefix EmptyString s = true.
Proof. by destruct s. Qed.

Lemma eqb_char c d :
  String.eqb (String c EmptyString) (String d EmptyString) = Ascii.eqb c d.
Proof. simpl. by destruct (Ascii.eqb c d). Qed.

Lemma eqb_neq a b : a <> b -> String.eqb a b = false.
Proof. intros H. by apply String.eqb_neq. Qed.

Lemma all_chars_app p a b :
  Py.all_chars p (a +:+ b) = Py.all_chars p a && Py.all_chars p b.
Proof.
  induction a as [|c a IH]; [done|]. rewrite string_app_cons. simpl.
  by rewrite IH, andb_assoc.
Qed.

Lemma all_chars_impl (p q : ascii -> bool) s :
  (forall c, p c = true -> q c = true) ->
  Py.all_chars p s = true -> Py.all_chars q s = true.
Proof.
  intros Hpq. induction s as [|c s IH]; [done|]. simpl.
  intros [Hc Hs]%andb_true_iff. by rewrite (Hpq _ Hc), IH.
Qed.


End Strings.

(** The longest prefix whose characters satisfy a predicate. *)
Section Span.

Variable p : ascii -> bool.

Lemma span_app s : (span p s).1 +:+ (span p s).2 = s.
Proof.
  induction s as [|c s IH]; simpl; [done|].
  destruct (p c); [|done]. destruct (span p s) as [a b]; simpl in *.
  by rewrite string_app_cons, IH.
Qed.

Lemma span_stop s c r : (span p s).2 = String c r -> p c = false.
Proof.
  induction s as [|x s IH]; simpl; [done|].
  destruct (p x) eqn:E.
  - destruct (span p s); simpl in *. auto.
  - simpl. by intros [= <- _].
Qed.

Lemma span_all s : Py.all_chars p (span p s).1 = true.
Proof.
  induction s as [|x s IH]; simpl; [done|].
  destruct (p x) eqn:E; [|done].
  destruct (span p s); simpl in *. by rewrite E.
Qed.

Lemma length_span_le s : String.length (span p s).2 <= String.length s.
Proof.
  induction s as [|c s IH]; simpl; [done|].
  destruct (p c); [|done]. destruct (span p s); simpl in *. lia.
Qed.

Lemma length_span_lt s :
  Py.nonempty (span p s).1 = true -> String.length (span p s).2 < String.length s.
Proof.
  destruct s as [|c s]; simpl; [done|].
  destruct (p c); [|done]. pose proof (length_span_le s).
  destruct (span p s); simpl in *. lia.
Qed.

Lemma span_maximal run tl :
  Py.all_chars p run = true -> starts_with p tl = false ->
  span p (run +:+ tl) = (run, tl).
Proof.
  intros Hr Ht. induction run as [|c run IH].
  - rewrite string_app_nil_l. destruct tl as [|d tl]; [done|].
    simpl in *. by rewrite Ht.
  - rewrite string_app_cons. simpl in *. apply andb_true_iff in Hr as [-> Hr].
    by rewrite (IH Hr).
Qed.

End Span.

Section Cursor.

Lemma remaining_rest lx : remaining lx = String.length (rest lx).
Proof. unfold remaining, rest, n. by rewrite length_sdrop. Qed.

Lemma at_end_rest lx : at_end lx = negb (Py.nonempty (rest lx)).
Proof.
  unfold at_end. pose proof (remaining_rest lx) as H. unfold remaining in H.
  destruct (rest lx); simpl in *.
  - apply Nat.leb_le. lia.
  - apply Nat.leb_gt. lia.
Qed.

Lemma peek_rest lx k : peek lx k = shead (sdrop k (rest lx)).
Proof.
  unfold peek, rest, n.
  assert (sdrop k (sdrop (pos lx) (text lx)) = sdrop (pos lx + k) (text lx)) as ->.
  { generalize (pos lx) (text lx). intros p s. revert s.
    induction p as [|p IH]; intros [|c s]; simpl; auto. by destruct k. }
  pose proof (length_sdrop (pos lx + k) (text lx)) as HL.
  pose proof (get_sdrop (pos lx + k) 0 (text lx)) as HG.
  rewrite Nat.add_0_r in HG. rewrite HG.
  destruct (sdrop (pos lx + k) (text lx)); simpl in *.
  - by destruct (_ <=? _).
  - destruct (_ <=? _) eqn:E; [apply Nat.leb_le in E; lia | done].
Qed.

Lemma peek0_cons lx c r : rest lx = String c r -> peek lx 0 = String c EmptyString.
Proof. intros H. by rewrite peek_rest, H. Qed.

Lemma peek0_nil lx : rest lx = EmptyString -> peek lx 0 = EmptyString.
Proof. intros H. by rewrite peek_rest, H. Qed.


Lemma eqb_NL c : String.eqb (String c EmptyString) NL = is_nl c.
Proof. unfold NL, is_nl. simpl. by destruct (Ascii.eqb c "010"). Qed.

Lemma rest_step_char c lx : rest (step_char c lx) = stail (rest lx).
Proof.
  unfold step_char, rest. destruct (is_nl c); simpl; apply sdrop_succ.
Qed.

Lemma advance_cons lx c r :
  rest lx = String c r -> advance lx = (String c EmptyString, step_char c lx).
Proof.
  intros H. unfold advance. rewrite (peek0_cons _ _ _ H), eqb_NL.
  unfold step_char. by destruct (is_nl c).
Qed.

Lemma rest_consume s lx : rest (consume s lx) = sdrop (String.length s) (rest lx).
Proof.
  revert lx; induction s as [|c s IH]; intros lx; simpl; [done|].
  rewrite IH, rest_step_char.
  destruct (rest lx); simpl; [by destruct (String.length s) | done].
Qed.

Lemma rest_consume_span p lx :
  rest (consume (span p (rest lx)).1 lx) = (span p (rest lx)).2.
Proof.
  rewrite rest_consume. rewrite <- (span_app p (rest lx)) at 2.
  apply sdrop_app_length.
Qed.

Lemma advance_while_S fuel p {A} (f : A -> string -> A) acc lx :
  advance_while (S fuel) p f acc lx =
    if negb (at_end lx) && p (peek lx 0)
    then let '(ch, lx') := advance lx in advance_while fuel p f (f acc ch) lx'
    else (acc, lx).
Proof. reflexivity. Qed.

(** The loop [while not at_end() and p(peek()): acc = f(acc, advance())]
    consumes the longest prefix of the text ahead whose characters
    satisfy [p], whatever fuel at least [n - pos] it is given. *)
Lemma advance_while_span fuel p q {A} (f : A -> string -> A) acc lx :
  (forall c, p (String c EmptyString) = q c) ->
  String.length (rest lx) <= fuel ->
  advance_while fuel p f acc lx =
    (fold_chars f acc (span q (rest lx)).1, consume (span q (rest lx)).1 lx).
Proof.
  intros Hpq. revert acc lx; induction fuel as [|fuel IH]; intros acc lx Hf.
  - destruct (rest lx) eqn:E; simpl in *; [done | lia].
  - rewrite advance_while_S, at_end_rest.
    destruct (rest lx) as [|c r] eqn:E; [done|].
    rewrite (peek0_cons _ _ _ E), Hpq. cbn [Py.nonempty negb andb span].
    destruct (q c) eqn:Ep; [|done].
    rewrite (advance_cons _ _ _ E).
    assert (rest (step_char c lx) = r) as Hr by (by rewrite rest_step_char, E).
    rewrite IH by (rewrite Hr; simpl in Hf; lia).
    rewrite Hr. by destruct (span q r).
Qed.

(** With that much fuel the loop stops because its condition fails, not
    because the fuel is spent. *)
Lemma advance_while_exit fuel p q {A} (f : A -> string -> A) acc lx :
  (forall c, p (String c EmptyString) = q c) ->
  String.length (rest lx) <= fuel ->
  let lx' := (advance_while fuel p f acc lx).2 in
  negb (at_end lx') && p (peek lx' 0) = false.
Proof.
  intros Hpq Hf. cbv zeta. rewrite (advance_while_span _ _ q) by done.
  cbn [snd]. rewrite at_end_rest, rest_consume_span.
  destruct (span q (rest lx)).2 as [|c r] eqn:E; [done|].
  erewrite peek0_cons by (rewrite rest_consume_span; exact E).
  by rewrite Hpq, (span_stop _ _ _ _ E).
Qed.

End Cursor.

(** What consuming a string does to each field of the state. *)
Section Consume.

Lemma consume_app a b lx : consume (a +:+ b) lx = consume b (consume a lx).
Proof. revert lx; induction a as [|c a IH]; intros lx; [done|]. by rewrite string_app_cons; simpl. Qed.

Lemma consume_text s lx : text (consume s lx) = text lx.
Proof.
  revert lx; induction s as [|c s IH]; intros lx; simpl; [done|].
  rewrite IH. unfold step_char. by destruct (is_nl c).
Qed.

Lemma consume_lettab s lx : lettab (consume s lx) = lettab lx.
Proof.
  revert lx; induction s as [|c s IH]; intros lx; simpl; [done|].
  rewrite IH. unfold step_char. by destruct (is_nl c).
Qed.

Lemma consume_letseq s lx : _letseq (consume s lx) = _letseq lx.
Proof.
  revert lx; induction s as [|c s IH]; intros lx; simpl; [done|].
  rewrite IH. unfold step_char. by destruct (is_nl c).
Qed.

Lemma consume_pos s lx : pos (consume s lx) = pos lx + String.length s.
Proof.
  revert lx; induction s as [|c s IH]; intros lx; simpl; [lia|].
  rewrite IH. unfold step_char. destruct (is_nl c); simpl; lia.
Qed.

(** Consuming characters none of which is a newline stays on the line. *)
Lemma consume_same_line s lx :
  Py.all_chars (fun c => negb (is_nl c)) s = true ->
  line (consume s lx) = line lx /\ col (consume s lx) = col lx + String.length s.
Proof.
  revert lx; induction s as [|c s IH]; intros lx H; simpl in *; [lia|].
  apply andb_true_iff in H as [Hc Hs]. destruct (IH (step_char c lx) Hs) as [-> ->].
  unfold step_char. destruct (is_nl c); [done|]. simpl. lia.
Qed.

Lemma consume_line s lx : line (consume s lx) = line lx + count_nl s.
Proof.
  revert lx; induction s as [|c s IH]; intros lx; simpl; [lia|].
  rewrite IH. unfold step_char. destruct (is_nl c); simpl; lia.
Qed.

Lemma after_last_nl_none s : contains_nl s = false -> after_last_nl s = s.
Proof.
  unfold contains_nl. destruct s as [|c s]; [done|]. simpl.
  intros H. apply negb_false_iff, andb_true_iff in H as [Hc Hs].
  unfold contains_nl. rewrite Hs. simpl.
  unfold not_nl in Hc. by destruct (is_nl c).
Qed.

Lemma consume_col s lx :
  col (consume s lx) =
    if contains_nl s then end_col s else col lx + String.length s.
Proof.
  revert lx; induction s as [|c s IH]; intros lx; [simpl; lia|].
  cbn [consume]. rewrite IH. unfold contains_nl, end_col.
  cbn [Py.all_chars after_last_nl]. fold (contains_nl s).
  destruct (contains_nl s) eqn:Hs.
  - unfold contains_nl in Hs. apply negb_true_iff in Hs. rewrite Hs.
    by rewrite andb_false_r.
  - unfold contains_nl in Hs. apply negb_false_iff in Hs. rewrite Hs.
    rewrite andb_true_r. unfold not_nl, step_char.
    destruct (is_nl c); simpl; lia.
Qed.

Lemma consume_fields s lx :
  Py.all_chars not_nl s = true ->
  consume s lx =
    Lexer.Make (text lx) (pos lx + String.length s) (line lx)
      (col lx + String.length s) (lettab lx) (_letseq lx).
Proof.
  intros H. destruct (consume_same_line s lx H) as [Hl Hc].
  pose proof (consume_text s lx) as Ht. pose proof (consume_pos s lx) as Hp.
  pose proof (consume_lettab s lx) as Hm. pose proof (consume_letseq s lx) as Hs.
  destruct (consume s lx); simpl in *. by subst.
Qed.

End Consume.

Create Rewrite HintDb consume.
#[local] Hint Rewrite consume_text consume_pos consume_lettab consume_letseq
  consume_line consume_col : consume.

Section Trivia.

Lemma str_in_WHITESPACE c :
  Py.str_in (String c EmptyString) WHITESPACE = ws_char c.
Proof. by destruct c as [[] [] [] [] [] [] [] []]. Qed.

Lemma fold_moved b s :
  fold_chars (fun (_ : bool) (_ : string) => true) b s = b || Py.nonempty s.
Proof.
  revert b; induction s as [|c s IH]; intros b; simpl.
  - by rewrite orb_false_r.
  - rewrite IH. by rewrite orb_true_r.
Qed.

Lemma fold_unit u s : fold_chars (fun (u : unit) (_ : string) => u) u s = u.
Proof. revert u; induction s as [|c s IH]; intros u; simpl; auto. Qed.

Lemma ws_loop lx :
  advance_while (remaining lx) (fun ch => Py.str_in ch WHITESPACE)
    (fun _ _ => true) false lx =
  (Py.nonempty (span ws_char (rest lx)).1, consume (span ws_char (rest lx)).1 lx).
Proof.
  rewrite (advance_while_span _ _ ws_char)
    by (apply str_in_WHITESPACE || by rewrite remaining_rest).
  by rewrite fold_moved.
Qed.

Lemma comment_loop lx :
  advance_while (remaining lx) (fun ch => negb (String.eqb ch NL))
    (fun u _ => u) tt lx =
  (tt, consume (span (fun c => negb (is_nl c)) (rest lx)).1 lx).
Proof.
  rewrite (advance_while_span _ _ (fun c => negb (is_nl c)))
    by ((intros c; by rewrite eqb_NL) || by rewrite remaining_rest).
  by rewrite fold_unit.
Qed.

Lemma comment_start lx :
  String.eqb (peek lx 0) "/" && String.eqb (peek lx 1) "/"
  = String.prefix "//" (rest lx).
Proof.
  rewrite !peek_rest. cbn [sdrop].
  destruct (rest lx) as [|a [|b r]]; cbn [sdrop shead stail String.eqb String.prefix].
  - done.
  - by destruct (Ascii.eqb a "/"), (ascii_dec "/" a).
  - destruct (ascii_dec "/" a) as [<-|Ha];
      [|by destruct (Ascii.eqb_spec a "/"); [subst|]].
    destruct (ascii_dec "/" b) as [<-|Hb];
      [|by destruct (Ascii.eqb_spec b "/"); [subst|]].
    by destruct r.
Qed.

(** One pass of the loop body, on the text ahead. *)
Lemma skip_pass_rest lx :
  skip_pass lx =
    let run := (span ws_char (rest lx)).1 in
    let lx1 := consume run lx in
    if String.prefix "//" (rest lx1)
    then (true, consume (span (fun c => negb (is_nl c)) (rest lx1)).1 lx1)
    else (Py.nonempty run, lx1).
Proof.
  unfold skip_pass. rewrite ws_loop, comment_start.
  cbv zeta. destruct (String.prefix _ _); [|done].
  by rewrite comment_loop.
Qed.

Lemma trivia_prefix_ws s :
  trivia_prefix false s =
    (span ws_char s).1 +:+ trivia_prefix false (span ws_char s).2.
Proof.
  induction s as [|c s IH]; [done|]. cbn [span trivia_prefix andb].
  destruct (ws_char c) eqn:E.
  - destruct (span ws_char s) as [a b]; cbn [fst snd] in *.
    by rewrite string_app_cons, <- IH.
  - cbn [fst snd trivia_prefix andb]. by rewrite E.
Qed.

Lemma trivia_prefix_comment s :
  trivia_prefix true s =
    (span (fun c => negb (is_nl c)) s).1
    +:+ trivia_prefix false (span (fun c => negb (is_nl c)) s).2.
Proof.
  induction s as [|c s IH]; [done|]. cbn [span trivia_prefix andb].
  destruct (negb (is_nl c)) eqn:E.
  - destruct (span _ s) as [a b]; cbn [fst snd] in *.
    by rewrite string_app_cons, <- IH.
  - done.
Qed.

Lemma trivia_prefix_stop s :
  (span ws_char s).1 = EmptyString -> String.prefix "//" s = false ->
  trivia_prefix false s = EmptyString.
Proof.
  destruct s as [|c s]; [done|]. cbn [span trivia_prefix andb].
  destruct (ws_char c) eqn:E.
  - destruct (span _ s); done.
  - intros _. cbn [String.prefix]. destruct (ascii_dec "/" c) as [<-|Hc].
    + intros ->. done.
    + destruct (Ascii.eqb_spec c "/"); [by subst|done].
Qed.

Lemma prefix_comment_cons s :
  String.prefix "//" s = true ->
  exists r, s = String "/" r /\ String.prefix "/" r = true /\ ws_char "/" = false.
Proof.
  destruct s as [|c s]; [done|]. cbn [String.prefix].
  destruct (ascii_dec "/" c) as [<-|]; [|done]. eauto.
Qed.

(** The loop of [skip_ws_and_comments] consumes exactly the trivia at
    the head of the text ahead, for any fuel above [n - pos]. *)
Lemma skip_loop_trivia fuel lx :
  String.length (rest lx) < fuel ->
  skip_loop fuel lx = consume (trivia_prefix false (rest lx)) lx.
Proof.
  revert lx; induction fuel as [|fuel IH]; intros lx Hf; [lia|].
  cbn [skip_loop]. rewrite skip_pass_rest. cbv zeta.
  rewrite (trivia_prefix_ws (rest lx)), consume_app.
  pose proof (rest_consume_span ws_char lx) as Hr1.
  pose proof (length_span_le ws_char (rest lx)) as Hl1.
  set (lx1 := consume (span ws_char (rest lx)).1 lx) in *.
  rewrite <- Hr1.
  destruct (String.prefix "//" (rest lx1)) eqn:Ec.
  - destruct (prefix_comment_cons _ Ec) as (r & Er & Hp & _).
    pose proof (rest_consume_span (fun c => negb (is_nl c)) lx1) as Hr2.
    pose proof (length_span_lt (fun c => negb (is_nl c)) (rest lx1)) as Hl2.
    rewrite IH.
    + rewrite Hr2. rewrite Er at 3. cbn [trivia_prefix andb ws_char].
      rewrite Hp. cbn [Ascii.eqb Bool.eqb andb].
      rewrite <- consume_app. f_equal.
      rewrite trivia_prefix_comment. rewrite Er.
      cbn [span is_nl Ascii.eqb Bool.eqb negb andb].
      destruct (span _ r); cbn [fst snd]. by rewrite string_app_cons.
    + rewrite Hr2. rewrite Er in Hl2 |- *.
      cbn [span is_nl Ascii.eqb Bool.eqb negb andb] in Hl2 |- *.
      destruct (span _ r); cbn [fst snd Py.nonempty] in *.
      specialize (Hl2 eq_refl). rewrite <- Hr1, Er in Hl1. simpl in *. lia.
  - assert ((span ws_char (rest lx1)).1 = EmptyString) as Hnows.
    { rewrite Hr1. destruct (span ws_char (rest lx)).2 as [|c r] eqn:E; [done|].
      apply span_stop in E. cbn [span]. by rewrite E. }
    rewrite (trivia_prefix_stop _ Hnows Ec). cbn [consume].
    destruct (Py.nonempty _) eqn:En; [|done].
    rewrite IH.
    + by rewrite (trivia_prefix_stop _ Hnows Ec).
    + apply length_span_lt in En. rewrite <- Hr1 in En. lia.
Qed.

Lemma skip_ws_and_comments_trivia lx :
  skip_ws_and_comments lx = consume (trivia_prefix false (rest lx)) lx.
Proof.
  unfold skip_ws_and_comments. apply skip_loop_trivia.
  rewrite remaining_rest. lia.
Qed.

End Trivia.

Section Recognisers.

Lemma fold_append lex s : fold_chars (fun l c => l +:+ c) lex s = lex +:+ s.
Proof.
  revert lex; induction s as [|c s IH]; intros lex; simpl.
  - by rewrite string_app_nil_r.
  - rewrite IH, string_app_assoc. done.
Qed.

Lemma isalpha_char c : Py.isalpha (String c EmptyString) = Py.char_isalpha c.
Proof. unfold Py.isalpha. simpl. by rewrite andb_true_r. Qed.

Lemma isdigit_char c : Py.isdigit (String c EmptyString) = Py.char_isdigit c.
Proof. unfold Py.isdigit. simpl. by rewrite andb_true_r. Qed.

Lemma isalnum_char c : Py.isalnum (String c EmptyString) = Py.char_isalnum c.
Proof. unfold Py.isalnum. simpl. by rewrite andb_true_r. Qed.

Lemma ident_start_peek lx c r :
  rest lx = String c r ->
  Py.isalpha (peek lx 0) || String.eqb (peek lx 0) "_" = ident_start c.
Proof. intros H. by rewrite (peek0_cons _ _ _ H), isalpha_char, eqb_char. Qed.

Lemma ident_loop lex0 lx :
  advance_while (remaining lx) (fun c => Py.isalnum c || String.eqb c "_")
    (fun l c => l +:+ c) lex0 lx =
  (lex0 +:+ (span ident_char (rest lx)).1, consume (span ident_char (rest lx)).1 lx).
Proof.
  rewrite (advance_while_span _ _ ident_char).
  - by rewrite fold_append.
  - intros c. by rewrite isalnum_char, eqb_char.
  - by rewrite remaining_rest.
Qed.

Lemma digit_loop lex0 lx :
  advance_while (remaining lx) Py.isdigit (fun l c => l +:+ c) lex0 lx =
  (lex0 +:+ (span Py.char_isdigit (rest lx)).1,
   consume (span Py.char_isdigit (rest lx)).1 lx).
Proof.
  rewrite (advance_while_span _ _ Py.char_isdigit).
  - by rewrite fold_append.
  - apply isdigit_char.
  - by rewrite remaining_rest.
Qed.

(** [read_identifier_or_keyword] away from an identifier start. *)
Lemma read_identifier_none lx :
  Py.isalpha (peek lx 0) || String.eqb (peek lx 0) "_" = false ->
  read_identifier_or_keyword lx = (None, lx).
Proof. intros H. unfold read_identifier_or_keyword. by rewrite H. Qed.

(** [read_identifier_or_keyword] at an identifier start: the lexeme is
    the first character and the longest run of identifier characters
    after it. *)
Lemma read_identifier_some lx c r :
  rest lx = String c r -> ident_start c = true ->
  let lex := String c (span ident_char r).1 in
  let lx2 := consume lex lx in
  read_identifier_or_keyword lx =
    if bool_decide (lex ∈ KEYWORDS)
    then (Some (Token4 ("KW_" +:+ Py.upper lex) lex (line lx) (col lx)), lx2)
    else (Some (Token.Make "ID" lex (line lx) (col lx) None
                  (lettab (intern lex lx2) !! lex)),
          intern lex lx2).
Proof.
  intros Hr Hc. cbv zeta. unfold read_identifier_or_keyword.
  rewrite (ident_start_peek _ _ _ Hr), Hc. cbn [negb].
  rewrite (advance_cons _ _ _ Hr), ident_loop.
  rewrite rest_step_char, Hr. cbn [stail consume].
  rewrite string_app_cons, string_app_nil_l.
  destruct (bool_decide _); [|done].
  by rewrite !string_app_cons.
Qed.

Lemma read_number_none lx :
  Py.isdigit (peek lx 0) = false -> read_number lx = Return None lx.
Proof. intros H. unfold read_number. by rewrite H. Qed.

Lemma read_number_some lx c r :
  rest lx = String c r -> Py.char_isdigit c = true ->
  let lex := String c (span Py.char_isdigit r).1 in
  let lx2 := consume lex lx in
  read_number lx =
    match Py.int lex with
    | Some v => Return (Some (Token.Make "NUM" lex (line lx) (col lx) (Some v) None)) lx2
    | None => Raise (ValueError lex) lx2
    end.
Proof.
  intros Hr Hc. cbv zeta. unfold read_number.
  rewrite (peek0_cons _ _ _ Hr), isdigit_char, Hc. cbn [negb].
  rewrite (advance_cons _ _ _ Hr), digit_loop.
  rewrite rest_step_char, Hr. cbn [stail consume].
  by rewrite string_app_cons, string_app_nil_l.
Qed.

Lemma OPERATORS_2_entry k ty :
  OPERATORS_2 !! k = Some ty ->
  exists a b, k = String a (String b EmptyString)
    /\ is_nl a = false /\ is_nl b = false /\ ty <> "EOF" /\ ty <> "ID".
Proof. intros H. table_cases H. Qed.

Lemma OPERATORS_1_entry k ty :
  OPERATORS_1 !! k = Some ty ->
  exists a, k = String a EmptyString
    /\ is_nl a = false /\ ty <> "EOF" /\ ty <> "ID".
Proof. intros H. table_cases H. Qed.

Lemma PUNCT_entry k ty :
  PUNCT !! k = Some ty ->
  exists a, k = String a EmptyString
    /\ is_nl a = false /\ ty <> "EOF" /\ ty <> "ID".
Proof. intros H. table_cases H. Qed.

Lemma peek_two lx a b :
  peek lx 0 +:+ peek lx 1 = String a (String b EmptyString) ->
  exists r, rest lx = String a (String b r).
Proof.
  rewrite !peek_rest. cbn [sdrop].
  destruct (rest lx) as [|x [|y r]]; cbn [shead sdrop]; try done.
  rewrite string_app_cons, string_app_nil_l. intros [= -> ->]. eauto.
Qed.

Lemma peek_one lx a :
  peek lx 0 = String a EmptyString -> exists r, rest lx = String a r.
Proof.
  rewrite peek_rest. cbn [sdrop].
  destruct (rest lx) as [|x r]; cbn [shead]; [done|]. intros [= ->]. eauto.
Qed.

Lemma advance_one lx a r :
  rest lx = String a r -> (advance lx).2 = consume (String a EmptyString) lx.
Proof. intros H. by rewrite (advance_cons _ _ _ H). Qed.

Lemma advance_two lx a b r :
  rest lx = String a (String b r) ->
  (advance (advance lx).2).2 = consume (String a (String b EmptyString)) lx.
Proof.
  intros H. rewrite (advance_cons _ _ _ H). cbn [snd consume].
  erewrite advance_cons; [done|]. by rewrite rest_step_char, H.
Qed.

(** The three ways [read_operator_or_punct] produces a token, and the
    one way it does not. *)
Lemma read_operator_two lx ty :
  OPERATORS_2 !! (peek lx 0 +:+ peek lx 1) = Some ty ->
  read_operator_or_punct lx =
    (Some (Token4 ty (peek lx 0 +:+ peek lx 1) (line lx) (col lx)),
     consume (peek lx 0 +:+ peek lx 1) lx).
Proof.
  intros H. unfold read_operator_or_punct. rewrite H.
  destruct (OPERATORS_2_entry _ _ H) as (a & b & E & _).
  destruct (peek_two _ _ _ E) as [r Hr].
  by rewrite (advance_two _ _ _ _ Hr), E.
Qed.

Lemma read_operator_one lx ty :
  OPERATORS_2 !! (peek lx 0 +:+ peek lx 1) = None ->
  OPERATORS_1 !! peek lx 0 = Some ty ->
  read_operator_or_punct lx =
    (Some (Token4 ty (peek lx 0) (line lx) (col lx)), consume (peek lx 0) lx).
Proof.
  intros H2 H. unfold read_operator_or_punct. rewrite H2, H.
  destruct (OPERATORS_1_entry _ _ H) as (a & E & _).
  destruct (peek_one _ _ E) as [r Hr].
  by rewrite (advance_one _ _ _ Hr), E.
Qed.

Lemma read_operator_punct lx ty :
  OPERATORS_2 !! (peek lx 0 +:+ peek lx 1) = None ->
  OPERATORS_1 !! peek lx 0 = None ->
  PUNCT !! peek lx 0 = Some ty ->
  read_operator_or_punct lx =
    (Some (Token4 ty (peek lx 0) (line lx) (col lx)), consume (peek lx 0) lx).
Proof.
  intros H2 H1 H. unfold read_operator_or_punct. rewrite H2, H1, H.
  destruct (PUNCT_entry _ _ H) as (a & E & _).
  destruct (peek_one _ _ E) as [r Hr].
  by rewrite (advance_one _ _ _ Hr), E.
Qed.

Lemma read_operator_none lx :
  OPERATORS_2 !! (peek lx 0 +:+ peek lx 1) = None ->
  OPERATORS_1 !! peek lx 0 = None ->
  PUNCT !! peek lx 0 = None ->
  read_operator_or_punct lx = (None, lx).
Proof. intros H2 H1 H. unfold read_operator_or_punct. by rewrite H2, H1, H. Qed.

End Recognisers.

Section Produces.

Lemma rest_intern lex lx : rest (intern lex lx) = rest lx.
Proof. unfold intern. by destruct (lettab lx !! lex). Qed.

Lemma rest_consume_prefix a b lx : rest lx = a +:+ b -> rest (consume a lx) = b.
Proof. intros H. by rewrite rest_consume, H, sdrop_app_length. Qed.

Lemma read_identifier_produces lx tok lx1 :
  read_identifier_or_keyword lx = (Some tok, lx1) -> produces lx tok lx1.
Proof.
  destruct (rest lx) as [|c r] eqn:Hr.
  { rewrite read_identifier_none; [done|]. by rewrite (peek0_nil _ Hr). }
  destruct (ident_start c) eqn:Hc.
  2:{ rewrite read_identifier_none; [done|]. by rewrite (ident_start_peek _ _ _ Hr). }
  rewrite (read_identifier_some _ _ _ Hr Hc). cbv zeta.
  pose proof (span_app ident_char r) as Hsp.
  set (run := (span ident_char r).1) in *.
  assert (rest (consume (String c run) lx) = (span ident_char r).2) as Hrest.
  { apply rest_consume_prefix. by rewrite Hr, string_app_cons, Hsp. }
  destruct (bool_decide _); intros [= <- <-]; unfold produces; tok_simpl.
  - rewrite !string_app_cons. cbn [String.eqb Ascii.eqb Bool.eqb andb].
    repeat split; try done.
    cbn [consume] in *. by rewrite ?string_app_cons, Hrest, Hr, Hsp.
  - repeat split; try done.
    cbn [consume] in *. by rewrite ?string_app_cons, rest_intern, Hrest, Hr, Hsp.
Qed.

Lemma read_identifier_unchanged lx lx1 :
  read_identifier_or_keyword lx = (None, lx1) -> lx1 = lx.
Proof.
  unfold read_identifier_or_keyword.
  destruct (negb _); [by intros [= <-]|].
  destruct (advance lx) as [lex0 lx']. destruct (advance_while _ _ _ _ _).
  by destruct (String.eqb _ _).
Qed.

Lemma read_number_produces lx tok lx1 :
  read_number lx = Return (Some tok) lx1 -> produces lx tok lx1.
Proof.
  destruct (rest lx) as [|c r] eqn:Hr.
  { rewrite read_number_none; [done|]. by rewrite (peek0_nil _ Hr). }
  destruct (Py.char_isdigit c) eqn:Hc.
  2:{ rewrite read_number_none; [done|].
      by rewrite (peek0_cons _ _ _ Hr), isdigit_char. }
  rewrite (read_number_some _ _ _ Hr Hc). cbv zeta.
  pose proof (span_app Py.char_isdigit r) as Hsp.
  set (run := (span Py.char_isdigit r).1) in *.
  assert (rest (consume (String c run) lx) = (span Py.char_isdigit r).2) as Hrest.
  { apply rest_consume_prefix. by rewrite Hr, string_app_cons, Hsp. }
  destruct (Py.int _); [|done]. intros [= <- <-]. unfold produces; tok_simpl.
  repeat split; try done.
  cbn [consume] in *. by rewrite ?string_app_cons, Hrest, Hr, Hsp.
Qed.

Lemma read_number_unchanged lx lx1 :
  read_number lx = Return None lx1 -> lx1 = lx.
Proof.
  unfold read_number.
  destruct (negb _); [by intros [= <-]|].
  destruct (advance lx) as [lex0 lx']. destruct (advance_while _ _ _ _ _).
  by destruct (Py.int _).
Qed.

Lemma read_operator_produces lx tok lx1 :
  read_operator_or_punct lx = (Some tok, lx1) -> produces lx tok lx1.
Proof.
  destruct (OPERATORS_2 !! (peek lx 0 +:+ peek lx 1)) as [ty|] eqn:H2.
  { rewrite (read_operator_two _ _ H2). intros [= <- <-].
    destruct (OPERATORS_2_entry _ _ H2) as (a & b & E & _ & _ & Heof & Hid).
    destruct (peek_two _ _ _ E) as [r Hr]. rewrite E.
    unfold produces; tok_simpl.
    rewrite (eqb_neq _ _ Hid). repeat split; try done.
    by erewrite Hr, rest_consume_prefix. }
  destruct (OPERATORS_1 !! peek lx 0) as [ty|] eqn:H1.
  { rewrite (read_operator_one _ _ H2 H1). intros [= <- <-].
    destruct (OPERATORS_1_entry _ _ H1) as (a & E & _ & Heof & Hid).
    destruct (peek_one _ _ E) as [r Hr]. rewrite E.
    unfold produces; tok_simpl.
    rewrite (eqb_neq _ _ Hid). repeat split; try done.
    by erewrite Hr, rest_consume_prefix. }
  destruct (PUNCT !! peek lx 0) as [ty|] eqn:H0.
  { rewrite (read_operator_punct _ _ H2 H1 H0). intros [= <- <-].
    destruct (PUNCT_entry _ _ H0) as (a & E & _ & Heof & Hid).
    destruct (peek_one _ _ E) as [r Hr]. rewrite E.
    unfold produces; tok_simpl.
    rewrite (eqb_neq _ _ Hid). repeat split; try done.
    by erewrite Hr, rest_consume_prefix. }
  by rewrite (read_operator_none _ H2 H1 H0).
Qed.

Lemma read_operator_unchanged lx lx1 :
  read_operator_or_punct lx = (None, lx1) -> lx1 = lx.
Proof.
  unfold read_operator_or_punct.
  destruct (OPERATORS_2 !! _); [done|]. destruct (OPERATORS_1 !! _); [done|].
  destruct (PUNCT !! _); [done|]. by intros [= <-].
Qed.

End Produces.

Section Dispatch.

Lemma next_token_unfold lx :
  next_token lx =
    let lx0 := skip_ws_and_comments lx in
    if at_end lx0 then Return (EOF_at lx0) lx0
    else
      match read_identifier_or_keyword lx0 with
      | (Some token, lx1) => Return token lx1
      | (None, lx1) =>
          match read_number lx1 with
          | Raise e lx2 => Raise e lx2
          | Return (Some token) lx2 => Return token lx2
          | Return None lx2 =>
              match read_operator_or_punct lx2 with
              | (Some token, lx3) => Return token lx3
              | (None, lx3) => Raise (LexerError (peek lx3 0) (line lx3) (col lx3)) lx3
              end
          end
      end.
Proof. reflexivity. Qed.

(** The outcomes of [next_token], by what the recognisers do on the
    state reached after skipping trivia. *)
Lemma next_token_return lx tok lx1 :
  next_token lx = Return tok lx1 ->
  let lx0 := skip_ws_and_comments lx in
  (at_end lx0 = true /\ tok = EOF_at lx0 /\ lx1 = lx0)
  \/ (at_end lx0 = false /\ produces lx0 tok lx1).
Proof.
  rewrite next_token_unfold. cbv zeta.
  destruct (at_end _) eqn:E; [intros [= <- <-]; by left|].
  intros H. right. split; [done|].
  destruct (read_identifier_or_keyword _) as [[t1|] lx'] eqn:E1.
  { injection H as <- <-. by apply read_identifier_produces. }
  apply read_identifier_unchanged in E1 as ->.
  destruct (read_number _) as [[t2|] lx'|] eqn:E2; [| |done].
  { injection H as <- <-. by apply read_number_produces. }
  apply read_number_unchanged in E2 as ->.
  destruct (read_operator_or_punct _) as [[t3|] lx'] eqn:E3; [|done].
  injection H as <- <-. by apply read_operator_produces.
Qed.

Lemma next_token_raise lx e lx1 :
  next_token lx = Raise e lx1 ->
  let lx0 := skip_ws_and_comments lx in
  at_end lx0 = false /\ read_identifier_or_keyword lx0 = (None, lx0) /\
  (read_number lx0 = Raise e lx1
   \/ (read_number lx0 = Return None lx0 /\
       read_operator_or_punct lx0 = (None, lx0) /\
       e = LexerError (peek lx0 0) (line lx0) (col lx0) /\ lx1 = lx0)).
Proof.
  rewrite next_token_unfold. cbv zeta.
  destruct (at_end _) eqn:E; [done|]. 
  destruct (read_identifier_or_keyword _) as [[t1|] lx'] eqn:E1; [done|].
  pose proof (read_identifier_unchanged _ _ E1) as ->.
  destruct (read_number _) as [[t2|] lx'|] eqn:E2; [done| |].
  - pose proof (read_number_unchanged _ _ E2) as ->.
    destruct (read_operator_or_punct _) as [[t3|] lx'] eqn:E3; [done|].
    pose proof (read_operator_unchanged _ _ E3) as ->.
    intros [= <- <-]. repeat split; try done. by right.
  - intros [= <- <-]. repeat split; try done. by left.
Qed.

Lemma skip_at_end lx : at_end lx = true -> skip_ws_and_comments lx = lx.
Proof.
  rewrite at_end_rest, skip_ws_and_comments_trivia.
  by destruct (rest lx).
Qed.

Lemma next_token_at_end lx :
  at_end lx = true -> next_token lx = Return (EOF_at lx) lx.
Proof.
  intros H. rewrite next_token_unfold. cbv zeta.
  by rewrite (skip_at_end _ H), H.
Qed.

Lemma next_token_eof lx tok lx1 :
  next_token lx = Return tok lx1 -> Token.type tok = "EOF" ->
  at_end lx1 = true /\ tok = EOF_at lx1.
Proof.
  intros H Ht. apply next_token_return in H as [(? & -> & ->)|[_ Hp]]; [done|].
  by destruct Hp as (_ & _ & _ & Hne & _).
Qed.

End Dispatch.

Section Stream.

Lemma produces_progress lx0 tok lx1 :
  produces lx0 tok lx1 -> remaining lx1 < remaining lx0.
Proof.
  intros (_ & _ & Hne & _ & Hr & _). rewrite !remaining_rest, Hr, string_length_app.
  destruct (Token.lexeme tok); [done|]. simpl. lia.
Qed.

Lemma skip_remaining lx : remaining (skip_ws_and_comments lx) <= remaining lx.
Proof.
  rewrite skip_ws_and_comments_trivia, !remaining_rest, rest_consume, length_sdrop.
  lia.
Qed.

Lemma is_eof_true tok : is_eof tok = true <-> Token.type tok = "EOF".
Proof. apply String.eqb_eq. Qed.

Lemma next_token_progress lx tok lx1 :
  next_token lx = Return tok lx1 -> is_eof tok = false ->
  remaining lx1 < remaining lx.
Proof.
  intros H Ht. pose proof (skip_remaining lx).
  apply next_token_return in H as [(? & -> & ->)|[_ Hp]]; [done|].
  apply produces_progress in Hp. lia.
Qed.

Lemma scans_at_end lx toks lx1 :
  at_end lx = true -> scans lx toks lx1 ->
  lx1 = lx /\ Forall (fun tok => tok = EOF_at lx) toks.
Proof.
  intros He Hs. induction Hs as [|lx tok lx1 toks lx2 Hn Hs IH]; [done|].
  rewrite (next_token_at_end _ He) in Hn. injection Hn as <- <-.
  destruct (IH He) as [-> Hall]. split; [done|]. by constructor.
Qed.

Lemma tokenize_loop_S fuel lx tokens :
  tokenize_loop (S fuel) lx tokens =
    match next_token lx with
    | Raise e lx' => Some (Raise e lx')
    | Return tok lx' =>
        if is_eof tok then Some (Return (tokens ++ [tok]) lx')
        else tokenize_loop fuel lx' (tokens ++ [tok])
    end.
Proof. reflexivity. Qed.

(** With fuel above [n - pos] the loop of [tokenize] always finishes,
    in one of two ways: it returns the tokens of a run of calls that
    ends with the first end marker, or it raises what a call raised
    after a run that met no end marker. *)
Lemma tokenize_loop_finishes fuel lx acc :
  remaining lx < fuel ->
  (exists new lx', tokenize_loop fuel lx acc = Some (Return (acc ++ new ++ [EOF_at lx']) lx')
     /\ scans lx (new ++ [EOF_at lx']) lx' /\ at_end lx' = true
     /\ Forall (fun tok => is_eof tok = false) new)
  \/ (exists new lx1 e lx', tokenize_loop fuel lx acc = Some (Raise e lx')
     /\ scans lx new lx1 /\ next_token lx1 = Raise e lx'
     /\ Forall (fun tok => is_eof tok = false) new).
Proof.
  revert lx acc; induction fuel as [|fuel IH]; intros lx acc Hf; [lia|].
  rewrite tokenize_loop_S.
  destruct (next_token lx) as [tok lx1|e lx1] eqn:Hn.
  - destruct (is_eof tok) eqn:Ht.
    + left. destruct (next_token_eof _ _ _ Hn) as [He ->]; [by apply is_eof_true|].
      exists [], lx1. repeat split; try done.
      econstructor; [done|constructor].
    + pose proof (next_token_progress _ _ _ Hn Ht) as Hlt.
      destruct (IH lx1 (acc ++ [tok])) as
        [(new & lx' & -> & Hs & He & Hall)|(new & lx2 & e & lx' & -> & Hs & Hr & Hall)];
        [lia| |].
      * left. exists (tok :: new), lx'. rewrite <- app_assoc. repeat split; try done.
        -- by econstructor.
        -- by constructor.
      * right. exists (tok :: new), lx2, e, lx'. repeat split; try done.
        -- by econstructor.
        -- by constructor.
  - right. exists [], lx, e, lx1. repeat split; try done. constructor.
Qed.

(** An exception raised by any call of the run is what [tokenize]
    raises: the tokens collected before it are dropped. *)
Lemma tokenize_loop_raise lx toks lx1 e lx2 :
  scans lx toks lx1 -> next_token lx1 = Raise e lx2 ->
  forall fuel acc, remaining lx < fuel ->
  tokenize_loop fuel lx acc = Some (Raise e lx2).
Proof.
  intros Hs Hr. induction Hs as [|lx tok lx1 toks lx3 Hn Hs IH];
    intros [|fuel] acc Hf; try lia; rewrite tokenize_loop_S.
  - by rewrite Hr.
  - rewrite Hn. destruct (is_eof tok) eqn:Ht.
    + destruct (next_token_eof _ _ _ Hn) as [He ->]; [by apply is_eof_true|].
      destruct (scans_at_end _ _ _ He Hs) as [-> _].
      by rewrite (next_token_at_end _ He) in Hr.
    + apply IH; [done|]. pose proof (next_token_progress _ _ _ Hn Ht). lia.
Qed.

End Stream.

Section Positions.

Lemma consume_init txt :
  consume txt (init txt) =
    Lexer.Make txt (String.length txt) (end_line txt) (end_col txt) ∅ 0.
Proof.
  pose proof (consume_text txt (init txt)) as Ht.
  pose proof (consume_pos txt (init txt)) as Hp.
  pose proof (consume_line txt (init txt)) as Hl.
  pose proof (consume_col txt (init txt)) as Hc.
  pose proof (consume_lettab txt (init txt)) as Hm.
  pose proof (consume_letseq txt (init txt)) as Hs.
  destruct (consume txt (init txt)); simpl in *. subst.
  f_equal. unfold end_col. destruct (contains_nl txt) eqn:E; [done|].
  by rewrite (after_last_nl_none _ E).
Qed.

Lemma trivia_prefix_in_comment body s :
  Py.all_chars not_nl body = true ->
  trivia_prefix true (body +:+ s) = body +:+ trivia_prefix true s.
Proof.
  induction body as [|c b IH]; [done|]. simpl. intros H.
  apply andb_true_iff in H as [Hc Hb]. rewrite !string_app_cons.
  cbn [trivia_prefix]. unfold not_nl in Hc. rewrite Hc. cbn [andb].
  by rewrite IH.
Qed.

Lemma trivia_prefix_open r :
  trivia_prefix false (String "/" (String "/" r))
  = String "/" (String "/" (trivia_prefix true r)).
Proof.
  cbn [trivia_prefix andb ws_char String.prefix].
  destruct (ascii_dec "/" "/") as [_|]; [|done]. by rewrite prefix_empty.
Qed.

Lemma trivia_prefix_newline s :
  trivia_prefix true (NL +:+ s) = NL +:+ trivia_prefix false s.
Proof. reflexivity. Qed.

Lemma trivia_prefix_fixed s : TriviaOnly s -> trivia_prefix false s = s.
Proof.
  induction 1 as [|c s Hc _ IH|body Hb|body s Hb _ IH].
  - done.
  - cbn [trivia_prefix andb]. by rewrite Hc, IH.
  - rewrite !string_app_cons, string_app_nil_l, trivia_prefix_open.
    rewrite <- (string_app_nil_r body) at 1.
    rewrite trivia_prefix_in_comment by done.
    by rewrite string_app_nil_r.
  - rewrite !string_app_cons, string_app_nil_l, trivia_prefix_open.
    rewrite trivia_prefix_in_comment by done.
    by rewrite trivia_prefix_newline, IH.
Qed.

(** Conversely, a text that is its own trivia prefix is made of blanks
    and comments only; inside a comment, of the rest of the comment and
    then of blanks and comments. *)
Lemma trivia_prefix_fixed_inv s :
  (trivia_prefix false s = s -> TriviaOnly s)
  /\ (trivia_prefix true s = s ->
      exists body tl, s = body +:+ tl /\ Py.all_chars not_nl body = true
        /\ (tl = EmptyString \/ exists s', tl = NL +:+ s' /\ TriviaOnly s')).
Proof.
  induction s as [|c s [IHf IHt]].
  { split; [constructor|]. intros _. exists EmptyString, EmptyString. auto. }
  split.
  - cbn [trivia_prefix andb]. destruct (ws_char c) eqn:Hws.
    { intros [= H]. constructor; auto. }
    destruct (Ascii.eqb_spec c "/") as [->|]; [|done].
    destruct (String.prefix "/" s) eqn:Hp; [|done]. cbn [andb].
    intros [= H]. destruct (IHt H) as (body & tl & -> & Hb & Htl).
    destruct body as [|b body].
    + rewrite string_app_nil_l in Hp.
      destruct Htl as [->|(s' & -> & _)]; [done|by vm_compute in Hp].
    + rewrite string_app_cons in Hp. cbn [String.prefix] in Hp.
      destruct (ascii_dec "/" b) as [<-|]; [|done].
      simpl in Hb. destruct Htl as [->|(s' & -> & Hs')].
      * rewrite string_app_nil_r. by apply (trivia_comment_end body).
      * by apply (trivia_comment_line body s').
  - cbn [trivia_prefix andb]. destruct (is_nl c) eqn:Hnl; cbn [negb].
    + apply Ascii.eqb_eq in Hnl as ->. cbn [ws_char]. intros [= H].
      exists EmptyString, (NL +:+ s). repeat split; eauto.
    + intros [= H]. destruct (IHt H) as (body & tl & -> & Hb & Htl).
      exists (String c body), tl. rewrite string_app_cons. split; [done|].
      split; [|done]. simpl. unfold not_nl at 1. by rewrite Hnl.
Qed.

Lemma trivia_only_spec s : trivia_only s = true <-> TriviaOnly s.
Proof.
  unfold trivia_only. rewrite String.eqb_eq. split.
  - apply trivia_prefix_fixed_inv.
  - apply trivia_prefix_fixed.
Qed.

(** On a text of trivia only, the first call of [next_token] skips all
    of it and returns the end marker. *)
Lemma next_token_trivia_only txt :
  TriviaOnly txt ->
  next_token (init txt) =
    Return (Token4 "EOF" EmptyString (end_line txt) (end_col txt))
      (Lexer.Make txt (String.length txt) (end_line txt) (end_col txt) ∅ 0).
Proof.
  intros H. rewrite next_token_unfold. cbv zeta.
  rewrite skip_ws_and_comments_trivia.
  change (rest (init txt)) with txt. rewrite (trivia_prefix_fixed _ H), consume_init.
  unfold at_end, n. cbn [text pos]. by rewrite Nat.leb_refl.
Qed.

End Positions.

Section Synced.

Lemma count_nl_app a b : count_nl (a +:+ b) = count_nl a + count_nl b.
Proof. induction a as [|c a IH]; [done|]. rewrite string_app_cons. simpl. lia. Qed.

Lemma contains_nl_app a b : contains_nl (a +:+ b) = contains_nl a || contains_nl b.
Proof. unfold contains_nl. by rewrite all_chars_app, negb_andb. Qed.

Lemma after_last_nl_app a b :
  after_last_nl (a +:+ b) =
    if contains_nl b then after_last_nl b else after_last_nl a +:+ b.
Proof.
  induction a as [|c a IH].
  - rewrite !string_app_nil_l. destruct (contains_nl b) eqn:E; [done|].
    by apply after_last_nl_none.
  - rewrite string_app_cons. cbn [after_last_nl]. rewrite contains_nl_app, IH.
    destruct (contains_nl b) eqn:Eb.
    + by rewrite orb_true_r.
    + rewrite orb_false_r. destruct (contains_nl a); [done|].
      by destruct (is_nl c).
Qed.

Lemma synced_init txt : synced (init txt).
Proof. split; simpl; by destruct txt. Qed.

Lemma synced_consume s tl lx :
  synced lx -> rest lx = s +:+ tl -> synced (consume s lx).
Proof.
  intros [Hl Hc] Hr. unfold synced.
  autorewrite with consume.
  rewrite (stake_extend _ _ _ _ Hr). unfold end_line, end_col in *.
  rewrite count_nl_app, after_last_nl_app.
  split; [lia|]. destruct (contains_nl s); [done|].
  rewrite string_length_app. lia.
Qed.

Lemma synced_intern lex lx : synced lx -> synced (intern lex lx).
Proof. unfold intern. by destruct (lettab lx !! lex). Qed.

Lemma trivia_prefix_is_prefix b s :
  exists tl, s = trivia_prefix b s +:+ tl.
Proof.
  revert b; induction s as [|c s IH]; intros b; [by exists EmptyString|].
  cbn [trivia_prefix].
  destruct (b && negb (is_nl c)).
  { destruct (IH true) as [tl Htl]. exists tl. by rewrite string_app_cons, <- Htl. }
  destruct (ws_char c).
  { destruct (IH false) as [tl Htl]. exists tl. by rewrite string_app_cons, <- Htl. }
  destruct (_ && _).
  { destruct (IH true) as [tl Htl]. exists tl. by rewrite string_app_cons, <- Htl. }
  by eexists.
Qed.

Lemma synced_skip lx : synced lx -> synced (skip_ws_and_comments lx).
Proof.
  intros H. rewrite skip_ws_and_comments_trivia.
  destruct (trivia_prefix_is_prefix false (rest lx)) as [tl Htl].
  by eapply synced_consume.
Qed.

Lemma skip_text lx : text (skip_ws_and_comments lx) = text lx.
Proof. rewrite skip_ws_and_comments_trivia. by autorewrite with consume. Qed.

Lemma skip_pos lx : pos lx <= pos (skip_ws_and_comments lx).
Proof. rewrite skip_ws_and_comments_trivia. autorewrite with consume. lia. Qed.

Lemma intern_cursor lex lx :
  text (intern lex lx) = text lx /\ pos (intern lex lx) = pos lx.
Proof. unfold intern. by destruct (lettab lx !! lex). Qed.

(** A token returned from a state whose cursor is right is stamped with
    the line and column of its own first character, and the cursor is
    right again afterwards. *)
Lemma next_token_synced lx tok lx1 :
  synced lx -> next_token lx = Return tok lx1 ->
  synced lx1 /\ text lx1 = text lx /\
  exists p, pos lx <= p /\ token_at (text lx) p tok
            /\ pos lx1 = p + String.length (Token.lexeme tok).
Proof.
  intros Hs Hn. pose proof (synced_skip _ Hs) as Hs0.
  pose proof (skip_text lx) as Ht0. pose proof (skip_pos lx) as Hp0.
  apply next_token_return in Hn. cbv zeta in Hn.
  set (lx0 := skip_ws_and_comments lx) in *.
  destruct Hn as [(He & -> & ->)|[He (Hl & Hc & Hne & Hty & Hr & Hlx & Hid)]].
  - split; [done|]. split; [done|]. exists (pos lx0). rewrite <- Ht0.
    destruct Hs0 as [Hl Hc]. split; [done|]. split; [|simpl; lia].
    unfold token_at. simpl. by split.
  - assert (synced lx1 /\ text lx1 = text lx0
            /\ pos lx1 = pos lx0 + String.length (Token.lexeme tok)) as (H1 & H2 & H3).
    { pose proof (synced_consume _ _ _ Hs0 Hr) as Hsc.
      rewrite Hlx. destruct (String.eqb _ _).
      - destruct (intern_cursor (Token.lexeme tok) (consume (Token.lexeme tok) lx0))
          as [-> ->].
        rewrite consume_text, consume_pos. split; [by apply synced_intern|done].
      - by rewrite consume_text, consume_pos. }
    split; [done|]. split; [congruence|]. exists (pos lx0). rewrite <- Ht0.
    destruct Hs0 as [Hl0 Hc0]. split; [done|]. split; [|done].
    unfold token_at. split; [|split; congruence].
    unfold slice. fold (rest lx0). rewrite Hr. apply stake_app_length.
Qed.

Lemma scans_synced lx toks lx1 :
  scans lx toks lx1 -> synced lx ->
  synced lx1 /\ text lx1 = text lx
  /\ Forall (fun tok => exists p, token_at (text lx) p tok) toks.
Proof.
  induction 1 as [|lx tok lx1 toks lx2 Hn _ IH]; intros Hs; [done|].
  destruct (next_token_synced _ _ _ Hs Hn) as (Hs1 & Ht1 & p & _ & Hat & _).
  destruct (IH Hs1) as (Hs2 & Ht2 & Hall). rewrite Ht1 in *.
  split; [done|]. split; [done|]. constructor; eauto.
Qed.

End Synced.

Section Symbols.

Lemma index_of_app_Some k seen ext i :
  index_of k seen = Some i -> index_of k (seen ++ ext) = Some i.
Proof.
  revert i; induction seen as [|y seen IH]; intros i; simpl; [done|].
  destruct (String.eqb k y); [done|].
  destruct (index_of k seen) as [j|]; [|done]. by rewrite (IH j).
Qed.

Lemma index_of_snoc_None k seen x :
  index_of k seen = None ->
  index_of k (seen ++ [x]) = if String.eqb k x then Some (length seen) else None.
Proof.
  induction seen as [|y seen IH]; simpl.
  - intros _. by destruct (String.eqb k x).
  - destruct (String.eqb k y); [done|].
    destruct (index_of k seen); [done|]. intros _. rewrite IH by done.
    by destruct (String.eqb k x).
Qed.

Lemma index_of_lookup k seen i : index_of k seen = Some i -> seen !! i = Some k.
Proof.
  revert i; induction seen as [|y seen IH]; intros i; simpl; [done|].
  destruct (String.eqb_spec k y) as [->|Hne]; [by intros [= <-]|].
  destruct (index_of k seen) as [j|]; [|done]. intros [= <-]. by apply IH.
Qed.

Lemma index_of_inj k1 k2 seen i :
  index_of k1 seen = Some i -> index_of k2 seen = Some i -> k1 = k2.
Proof. intros H1%index_of_lookup H2%index_of_lookup. congruence. Qed.

Lemma table_of_consume seen s lx : table_of seen lx -> table_of seen (consume s lx).
Proof. unfold table_of. by autorewrite with consume. Qed.

Lemma table_of_init txt : table_of [] (init txt).
Proof. split; [done|]. intros k. apply lookup_empty. Qed.

Lemma table_of_intern seen lex lx :
  table_of seen lx ->
  table_of (note lex seen) (intern lex lx)
  /\ lettab (intern lex lx) !! lex = index_of lex (note lex seen)
  /\ is_Some (index_of lex (note lex seen)).
Proof.
  intros [Hn Ht]. unfold intern, note. rewrite Ht.
  destruct (index_of lex seen) as [i|] eqn:E.
  - rewrite Ht, E. repeat split; eauto.
  - assert (index_of lex (seen ++ [lex]) = Some (length seen)) as Hi.
    { rewrite index_of_snoc_None by done. by rewrite String.eqb_refl. }
    unfold table_of. cbn [lettab _letseq]. rewrite Hi, Hn, lookup_insert_eq.
    repeat split; eauto.
    + rewrite length_app. simpl. lia.
    + intros k. destruct (String.eqb_spec k lex) as [->|Hne].
      * by rewrite lookup_insert_eq, Hi.
      * rewrite lookup_insert_ne by done. rewrite Ht.
        destruct (index_of k seen) as [j|] eqn:Ek.
        -- by rewrite (index_of_app_Some _ _ _ _ Ek).
        -- rewrite index_of_snoc_None by done.
           by destruct (String.eqb_spec k lex).
Qed.

Lemma table_of_skip seen lx :
  table_of seen lx -> table_of seen (skip_ws_and_comments lx).
Proof. rewrite skip_ws_and_comments_trivia. apply table_of_consume. Qed.

(** One call of [next_token] on the symbol table. *)
Lemma next_token_table seen lx tok lx1 :
  table_of seen lx -> next_token lx = Return tok lx1 ->
  if is_id tok
  then table_of (note (Token.lexeme tok) seen) lx1
       /\ Token.lid tok = index_of (Token.lexeme tok) (note (Token.lexeme tok) seen)
       /\ is_Some (Token.lid tok)
  else table_of seen lx1 /\ Token.lid tok = None.
Proof.
  intros Ht Hn. apply table_of_skip in Ht.
  apply next_token_return in Hn. cbv zeta in Hn.
  destruct Hn as [(He & -> & ->)|[He (Hl & Hc & Hne & Hty & Hr & Hlx & Hid)]];
    [done|].
  unfold is_id. destruct (String.eqb (Token.type tok) "ID").
  - pose proof (table_of_intern seen (Token.lexeme tok) _
                  (table_of_consume _ (Token.lexeme tok) _ Ht)) as (H1 & H2 & H3).
    rewrite <- Hlx in *. rewrite Hid, H2. done.
  - rewrite Hlx. split; [by apply table_of_consume|done].
Qed.

Lemma scans_first_seen seen lx toks lx1 :
  table_of seen lx -> scans lx toks lx1 ->
  map Token.lid (id_tokens toks)
  = map Some (first_seen_ids seen (map Token.lexeme (id_tokens toks))).
Proof.
  intros Ht Hs. revert seen Ht.
  induction Hs as [|lx tok lx1 toks lx2 Hn _ IH]; intros seen Ht; [done|].
  pose proof (next_token_table _ _ _ _ Ht Hn) as H.
  unfold id_tokens in *. cbn [List.filter]. destruct (is_id tok).
  - destruct H as (Ht1 & Hid & _). cbn [map first_seen_ids].
    unfold note in *. destruct (index_of (Token.lexeme tok) seen) as [i|] eqn:E.
    + cbn [map]. rewrite Hid, E. f_equal. by apply IH.
    + cbn [map]. rewrite Hid. rewrite index_of_snoc_None by done.
      rewrite String.eqb_refl. f_equal. by apply IH.
  - destruct H as [Ht1 _]. by apply IH.
Qed.

Lemma note_extends lex seen : exists ext, note lex seen = seen ++ ext.
Proof.
  unfold note. destruct (index_of lex seen); [exists []; by rewrite app_nil_r|eauto].
Qed.

(** After a run of calls the table holds the id of every identifier
    token the run returned. *)
Lemma scans_table seen lx toks lx1 :
  table_of seen lx -> scans lx toks lx1 ->
  exists ext, table_of (seen ++ ext) lx1
    /\ Forall (fun tok => is_id tok = true ->
                Token.lid tok = index_of (Token.lexeme tok) (seen ++ ext)
                /\ is_Some (Token.lid tok)) toks.
Proof.
  intros Ht Hs. revert seen Ht.
  induction Hs as [|lx tok lx1 toks lx2 Hn _ IH]; intros seen Ht.
  { exists []. rewrite app_nil_r. by split. }
  pose proof (next_token_table _ _ _ _ Ht Hn) as H.
  destruct (is_id tok) eqn:Eid.
  - destruct H as (Ht1 & Hid & Hsome).
    destruct (note_extends (Token.lexeme tok) seen) as [e1 He1]. rewrite He1 in *.
    destruct (IH _ Ht1) as (e2 & Ht2 & Hall). exists (e1 ++ e2).
    rewrite app_assoc. split; [done|]. constructor; [|done].
    intros _. split; [|done]. destruct Hsome as [i Hi]. rewrite Hi in *.
    symmetry. by apply index_of_app_Some.
  - destruct H as [Ht1 _]. destruct (IH _ Ht1) as (e2 & Ht2 & Hall).
    exists e2. split; [done|]. constructor; [|done]. by rewrite Eid.
Qed.

End Symbols.

Section Runs.

Lemma ident_start_char c : ident_start c = true -> ident_char c = true.
Proof.
  unfold ident_start, ident_char, Py.char_isalnum.
  destruct (Py.char_isalpha c); [done|]. simpl. intros ->. by rewrite orb_true_r.
Qed.

Lemma ident_char_not_nl c : ident_char c = true -> not_nl c = true.
Proof.
  unfold not_nl, is_nl. destruct (Ascii.eqb_spec c "010") as [->|]; [|done].
  by vm_compute.
Qed.

Lemma tokenize_scans lx toks lx' :
  tokenize lx = Some (Return toks lx') -> scans lx toks lx'.
Proof.
  unfold tokenize. intros H.
  destruct (tokenize_loop_finishes (S (remaining lx)) lx [])
    as [(new & lx1 & E & Hs & _)|(new & lx1 & e & lx2 & E & _)]; [lia| |congruence].
  rewrite E in H. by injection H as <- <-.
Qed.

End Runs.

Section Numbers.

Lemma int_digits_positional s acc :
  Py.all_chars Py.char_isdecimal s = true ->
  Py.int_digits acc s
  = Some (acc * 10 ^ Z.of_nat (String.length s) + positional_value s)%Z.
Proof.
  revert acc; induction s as [|c s IH]; intros acc H.
  - simpl. f_equal. lia.
  - simpl in H. apply andb_true_iff in H as [Hc Hs].
    cbn [Py.int_digits positional_value String.length]. unfold Py.decimal_value.
    rewrite Hc, (IH _ Hs). f_equal.
    rewrite Nat2Z.inj_succ, Z.pow_succ_r by lia. lia.
Qed.

Lemma int_decimal_run s :
  s <> EmptyString -> Py.all_chars Py.char_isdecimal s = true ->
  Py.int s = Some (positional_value s).
Proof.
  intros Hne H. unfold Py.int. destruct s as [|c s]; [done|].
  cbn [Py.nonempty]. rewrite (int_digits_positional _ _ H). f_equal; lia.
Qed.





(** [read_number] raises nothing but [ValueError], and only with a
    lexeme taken from the text ahead that holds a character which is a
    digit for [str.isdigit] and not a decimal for [int]. *)
Lemma read_number_raise lx e lx' :
  read_number lx = Raise e lx' ->
  exists lex tl, e = ValueError lex /\ rest lx = lex +:+ tl
    /\ lx' = consume lex lx /\ lex <> EmptyString
    /\ Py.all_chars Py.char_isdigit lex = true
    /\ Py.all_chars Py.char_isdecimal lex = false.
Proof.
  destruct (rest lx) as [|c r] eqn:Hr.
  { rewrite read_number_none; [done|]. by rewrite (peek0_nil _ Hr). }
  destruct (Py.char_isdigit c) eqn:Hc.
  2:{ rewrite read_number_none; [done|].
      by rewrite (peek0_cons _ _ _ Hr), isdigit_char. }
  rewrite (read_number_some _ _ _ Hr Hc). cbv zeta.
  set (lex := String c (span Py.char_isdigit r).1).
  destruct (Py.int lex) as [v|] eqn:Ev; [done|]. intros [= <- <-].
  exists lex, (span Py.char_isdigit r).2. repeat split; try done.
  - unfold lex. by rewrite string_app_cons, span_app.
  - unfold lex. simpl. by rewrite Hc, span_all.
  - destruct (Py.all_chars Py.char_isdecimal lex) eqn:E; [|done].
    by rewrite int_decimal_run in Ev.
Qed.



End Numbers.

(** * Properties of the scanner *)

Section OperatorGreediness.

Lemma consume_two a b lx :
  is_nl a = false -> is_nl b = false ->
  consume (String a (String b EmptyString)) lx =
    Lexer.Make (text lx) (pos lx + 2) (line lx) (col lx + 2) (lettab lx) (_letseq lx).
Proof.
  intros Ha Hb. rewrite consume_fields.
  - done.
  - simpl. unfold not_nl. by rewrite Ha, Hb.
Qed.

Lemma consume_one a lx :
  is_nl a = false ->
  consume (String a EmptyString) lx =
    Lexer.Make (text lx) (pos lx + 1) (line lx) (col lx + 1) (lettab lx) (_letseq lx).
Proof.
  intros Ha. rewrite consume_fields.
  - done.
  - simpl. unfold not_nl. by rewrite Ha.
Qed.

(** C1.  At every state the operator and punctuation recogniser looks the
    two characters under the cursor up in the two-character table first:
    on a hit it returns that table's kind with the two characters as the
    lexeme and moves the cursor by exactly two.  Only when that lookup
    fails does it look the single character up in the one-character
    operator table and then in the punctuation table, moving by exactly
    one on a hit.  So the text [==] scans to the one token IGL and never
    to two tokens ES, while [= =], with a blank between the signs, scans
    to two tokens ES. *)
Theorem operator_two_characters_first :
  (forall lx : Lexer.t,
     let two_chars := peek lx 0 +:+ peek lx 1 in
     let one_char := peek lx 0 in
     (forall ty, OPERATORS_2 !! two_chars = Some ty ->
        String.length two_chars = 2
        /\ read_operator_or_punct lx =
             (Some (Token4 ty two_chars (line lx) (col lx)),
              Lexer.Make (text lx) (pos lx + 2) (line lx) (col lx + 2)
                (lettab lx) (_letseq lx)))
     /\ (forall ty, OPERATORS_2 !! two_chars = None ->
           OPERATORS_1 !! one_char = Some ty
           \/ (OPERATORS_1 !! one_char = None /\ PUNCT !! one_char = Some ty) ->
           String.length one_char = 1
           /\ read_operator_or_punct lx =
                (Some (Token4 ty one_char (line lx) (col lx)),
                 Lexer.Make (text lx) (pos lx + 1) (line lx) (col lx + 1)
                   (lettab lx) (_letseq lx))))
  /\ tokenize (init "==") =
       Some (Return [Token4 "IGL" "==" 1 1; Token4 "EOF" EmptyString 1 3]
               (Lexer.Make "==" 2 1 3 ∅ 0))
  /\ tokenize (init "= =") =
       Some (Return [Token4 "ES" "=" 1 1; Token4 "ES" "=" 1 3;
                     Token4 "EOF" EmptyString 1 4]
               (Lexer.Make "= =" 3 1 4 ∅ 0)).
Proof.
  split; [|split; by vm_compute].
  intros lx two_chars one_char. subst two_chars one_char. split.
  - intros ty H. rewrite (read_operator_two _ _ H).
    destruct (OPERATORS_2_entry _ _ H) as (a & b & E & Ha & Hb & _).
    rewrite E. split; [done|]. by rewrite (consume_two _ _ _ Ha Hb).
  - intros ty H2 [H1|[H1 H0]].
    + rewrite (read_operator_one _ _ H2 H1).
      destruct (OPERATORS_1_entry _ _ H1) as (a & E & Ha & _).
      rewrite E. split; [done|]. by rewrite (consume_one _ _ Ha).
    + rewrite (read_operator_punct _ _ H2 H1 H0).
      destruct (PUNCT_entry _ _ H0) as (a & E & Ha & _).
      rewrite E. split; [done|]. by rewrite (consume_one _ _ Ha).
Qed.

End OperatorGreediness.

Section SymbolIds.

Lemma id_tokens_table toks seen lx lx1 t1 :
  table_of seen lx -> scans lx toks lx1 -> In t1 (id_tokens toks) ->
  exists ext i, Token.lid t1 = Some i
    /\ index_of (Token.lexeme t1) (seen ++ ext) = Some i
    /\ forall t2, In t2 (id_tokens toks) ->
         Token.lid t2 = index_of (Token.lexeme t2) (seen ++ ext).
Proof.
  intros Ht Hs H1. destruct (scans_table _ _ _ _ Ht Hs) as (ext & _ & Hall).
  rewrite List.Forall_forall in Hall.
  assert (forall t, In t (id_tokens toks) ->
            Token.lid t = index_of (Token.lexeme t) (seen ++ ext)
            /\ is_Some (Token.lid t)) as Hin.
  { intros t [Hin Hid]%filter_In. by apply Hall. }
  destruct (Hin _ H1) as [E1 [i Hi]]. exists ext, i.
  split; [done|]. split; [congruence|]. intros t2 H2. by apply Hin.
Qed.

(** C2.  Over any run of [next_token] calls on a fresh scanner, and so
    over the result of [tokenize], the ids of the identifier tokens are
    those of numbering the spellings in order of first occurrence from 0:
    a spelling not met before takes the next unused id, a spelling met
    before takes the id it was given.  Two identifier tokens of one scan
    carry the same id exactly when they have the same spelling, compared
    character by character, so upper and lower case differ.  The text
    [x y x] gives the ids 0, 1, 0. *)
Theorem symbol_ids_by_first_occurrence :
  (forall txt toks lx',
     scans (init txt) toks lx' ->
     map Token.lid (id_tokens toks)
     = map Some (first_seen_ids [] (map Token.lexeme (id_tokens toks)))
     /\ forall t1 t2, In t1 (id_tokens toks) -> In t2 (id_tokens toks) ->
          (Token.lexeme t1 = Token.lexeme t2 <-> Token.lid t1 = Token.lid t2))
  /\ (forall txt toks lx',
        tokenize (init txt) = Some (Return toks lx') -> scans (init txt) toks lx')
  /\ (exists toks lx',
        tokenize (init "x y x") = Some (Return toks lx')
        /\ map Token.lexeme (id_tokens toks) = ["x"; "y"; "x"]
        /\ map Token.lid (id_tokens toks) = [Some 0; Some 1; Some 0])
  /\ (exists toks lx',
        tokenize (init "a A a") = Some (Return toks lx')
        /\ map Token.lid (id_tokens toks) = [Some 0; Some 1; Some 0]).
Proof.
  split; [|split; [|split]].
  - intros txt toks lx' Hs. pose proof (table_of_init txt) as Ht. split.
    { by apply (scans_first_seen _ _ _ _ Ht Hs). }
    intros t1 t2 H1 H2.
    destruct (id_tokens_table _ _ _ _ _ Ht Hs H1) as (ext & i & E1 & Hi & Hall).
    pose proof (Hall _ H2) as E2. split.
    + intros E. rewrite E1, E2, <- E. done.
    + intros E. rewrite E1 in E. rewrite <- E in E2. symmetry in E2.
      by apply (index_of_inj _ _ _ _ Hi E2).
  - intros txt toks lx'. apply tokenize_scans.
  - eexists _, _. split; [by vm_compute|]. split; by vm_compute.
  - eexists _, _. split; [by vm_compute|]. by vm_compute.
Qed.

End SymbolIds.

Section IdentifierOrKeyword.

Lemma intern_fresh lex lx :
  lettab lx !! lex = None ->
  lettab (intern lex lx) = <[lex := _letseq lx]> (lettab lx)
  /\ _letseq (intern lex lx) = _letseq lx + 1
  /\ lettab (intern lex lx) !! lex = Some (_letseq lx).
Proof.
  intros H. unfold intern. rewrite H. simpl. by rewrite lookup_insert_eq.
Qed.

Lemma intern_known lex lx i :
  lettab lx !! lex = Some i -> intern lex lx = lx.
Proof. intros H. unfold intern. by rewrite H. Qed.

Lemma intern_rest_fields lex lx :
  text (intern lex lx) = text lx /\ pos (intern lex lx) = pos lx
  /\ line (intern lex lx) = line lx /\ col (intern lex lx) = col lx.
Proof. unfold intern. by destruct (lettab lx !! lex). Qed.

(** C3.  When the character under the cursor is alphabetic or an
    underscore and the text ahead is [run] followed by [tl], where [run]
    is made of alphanumeric characters and underscores and [tl] does not
    start with one, the recogniser returns one token whose lexeme is all
    of [run], stamped with the position it started at, and leaves the
    cursor in front of [tl].  If [run] is one of the 14 reserved words
    the kind is KW_ followed by the upper-cased word, no id is attached
    and the symbol table is untouched; otherwise the kind is ID and the
    id is the one the table holds for [run], or, when it holds none, the
    counter's value, which the table then records while the counter
    moves on.  So [if] is a keyword, while [ifx], [If] and [abc123] are
    each one identifier with a fresh id. *)
Theorem identifier_or_keyword_maximal_munch :
  (forall lx run tl,
     rest lx = run +:+ tl ->
     Py.isalpha (peek lx 0) || String.eqb (peek lx 0) "_" = true ->
     Py.all_chars ident_char run = true ->
     starts_with ident_char tl = false ->
     exists tok lx',
       read_identifier_or_keyword lx = (Some tok, lx')
       /\ Token.lexeme tok = run
       /\ Token.line tok = line lx /\ Token.col tok = col lx
       /\ Token.value tok = None
       /\ rest lx' = tl /\ text lx' = text lx
       /\ pos lx' = pos lx + String.length run
       /\ line lx' = line lx /\ col lx' = col lx + String.length run
       /\ if bool_decide (run ∈ KEYWORDS)
          then Token.type tok = "KW_" +:+ Py.upper run
               /\ Token.lid tok = None
               /\ lettab lx' = lettab lx /\ _letseq lx' = _letseq lx
          else Token.type tok = "ID"
               /\ match lettab lx !! run with
                  | Some i =>
                      Token.lid tok = Some i
                      /\ lettab lx' = lettab lx /\ _letseq lx' = _letseq lx
                  | None =>
                      Token.lid tok = Some (_letseq lx)
                      /\ lettab lx' = <[run := _letseq lx]> (lettab lx)
                      /\ _letseq lx' = _letseq lx + 1
                  end)
  /\ size KEYWORDS = 14
  /\ read_identifier_or_keyword (init "if")
     = (Some (Token4 "KW_IF" "if" 1 1), Lexer.Make "if" 2 1 3 ∅ 0)
  /\ read_identifier_or_keyword (init "ifx")
     = (Some (Token.Make "ID" "ifx" 1 1 None (Some 0)),
        Lexer.Make "ifx" 3 1 4 {["ifx" := 0]} 1)
  /\ read_identifier_or_keyword (init "If")
     = (Some (Token.Make "ID" "If" 1 1 None (Some 0)),
        Lexer.Make "If" 2 1 3 {["If" := 0]} 1)
  /\ read_identifier_or_keyword (init "abc123")
     = (Some (Token.Make "ID" "abc123" 1 1 None (Some 0)),
        Lexer.Make "abc123" 6 1 7 {["abc123" := 0]} 1).
Proof.
  split; [|repeat split; by vm_compute].
  intros lx run tl Hr Hstart Hrun Htl.
  destruct run as [|c run'].
  { rewrite string_app_nil_l in Hr. destruct tl as [|d tl'].
    - by rewrite (peek0_nil _ Hr) in Hstart.
    - rewrite (ident_start_peek _ _ _ Hr) in Hstart.
      apply ident_start_char in Hstart. simpl in Htl. congruence. }
  rewrite string_app_cons in Hr.
  rewrite (ident_start_peek _ _ _ Hr) in Hstart.
  simpl in Hrun. apply andb_true_iff in Hrun as [Hc Hrun].
  rewrite (read_identifier_some _ _ _ Hr Hstart). cbv zeta.
  rewrite (span_maximal _ _ _ Hrun Htl). cbn [fst].
  set (lex := String c run').
  assert (Py.all_chars not_nl lex = true) as Hnl.
  { apply (all_chars_impl ident_char); [apply ident_char_not_nl|].
    simpl. by rewrite Hc, Hrun. }
  assert (rest (consume lex lx) = tl) as Hrest.
  { apply rest_consume_prefix. by rewrite Hr. }
  pose proof (consume_fields lex lx Hnl) as Hf.
  destruct (bool_decide (lex ∈ KEYWORDS)).
  - eexists _, _. split; [done|]. rewrite Hrest, Hf. tok_simpl. simpl. done.
  - eexists _, _. split; [done|]. tok_simpl.
    destruct (intern_rest_fields lex (consume lex lx)) as (-> & -> & -> & ->).
    rewrite rest_intern, Hrest. rewrite Hf at 1 2 3 4. cbn [text pos line col].
    repeat split; try done.
    assert (lettab (consume lex lx) = lettab lx) as Hm by apply consume_lettab.
    assert (_letseq (consume lex lx) = _letseq lx) as Hs by apply consume_letseq.
    destruct (lettab lx !! lex) as [i|] eqn:E.
    + rewrite <- Hm in E. rewrite (intern_known _ _ _ E). by rewrite Hs, <- Hm.
    + rewrite <- Hm in E. destruct (intern_fresh _ _ E) as (-> & -> & ->).
      by rewrite Hs, Hm.
Qed.

End IdentifierOrKeyword.

Section LexicalError.

Lemma tokenize_raise lx toks lx1 e lx2 :
  scans lx toks lx1 -> next_token lx1 = Raise e lx2 ->
  tokenize lx = Some (Raise e lx2).
Proof.
  intros Hs Hr. unfold tokenize. eapply tokenize_loop_raise; eauto.
Qed.

Lemma get_rest lx c r : rest lx = String c r -> String.get (pos lx) (text lx) = Some c.
Proof.
  unfold rest. intros H. rewrite <- (Nat.add_0_r (pos lx)), get_sdrop. by rewrite H.
Qed.

(** C5.  [next_token] raises [LexerError] exactly when, in the state
    reached by skipping trivia, the input is not exhausted and each of
    the three recognisers returns no token; the error then carries the
    character under the cursor of that state with its line and column.
    On a scan from the start of a text these are the character at some
    offset of the text and the line and column, counted from 1, of that
    offset.  An exception raised by a call made on behalf of [tokenize]
    is what [tokenize] raises, with no token list.  Scanning [a @ b]
    fails with the character [@] at line 1, column 3. *)
Theorem lexical_error_when_no_recogniser_matches :
  (forall lx ch ln cl lx',
     next_token lx = Raise (LexerError ch ln cl) lx' <->
     let lx0 := skip_ws_and_comments lx in
     at_end lx0 = false
     /\ (read_identifier_or_keyword lx0).1 = None
     /\ (exists lx1, read_number lx0 = Return None lx1)
     /\ (read_operator_or_punct lx0).1 = None
     /\ ch = peek lx0 0 /\ ln = line lx0 /\ cl = col lx0 /\ lx' = lx0)
  /\ (forall txt toks lx1 ch ln cl lx2,
        scans (init txt) toks lx1 ->
        next_token lx1 = Raise (LexerError ch ln cl) lx2 ->
        exists p c,
          String.get p txt = Some c /\ ch = String c EmptyString
          /\ ln = end_line (stake p txt) /\ cl = end_col (stake p txt))
  /\ (forall lx toks lx1 e lx2,
        scans lx toks lx1 -> next_token lx1 = Raise e lx2 ->
        tokenize lx = Some (Raise e lx2))
  /\ tokenize (init "a @ b")
     = Some (Raise (LexerError "@" 1 3) (Lexer.Make "a @ b" 2 1 3 {["a" := 0]} 1)).
Proof.
  split; [|split; [|split; [|by vm_compute]]].
  - intros lx ch ln cl lx'. cbv zeta. split.
    + intros H. apply next_token_raise in H. cbv zeta in H.
      destruct H as (He & H1 & [H2|(H2 & H3 & [= -> -> ->] & ->)]).
      * by apply read_number_raise in H2 as (lex & tl & [=] & _).
      * rewrite H1, H2, H3. repeat split; eauto.
    + intros (He & H1 & [lx1 H2] & H3 & -> & -> & -> & ->).
      rewrite next_token_unfold. cbv zeta. rewrite He.
      destruct (read_identifier_or_keyword _) as [o1 s1] eqn:E1.
      simpl in H1. subst o1. apply read_identifier_unchanged in E1 as ->.
      rewrite H2. apply read_number_unchanged in H2 as ->.
      destruct (read_operator_or_punct _) as [o3 s3] eqn:E3.
      simpl in H3. subst o3. by apply read_operator_unchanged in E3 as ->.
  - intros txt toks lx1 ch ln cl lx2 Hs Hr.
    destruct (scans_synced _ _ _ Hs (synced_init txt)) as (Hsy & Ht & _).
    apply synced_skip in Hsy. pose proof (skip_text lx1) as Ht0.
    apply next_token_raise in Hr. cbv zeta in Hr.
    set (lx0 := skip_ws_and_comments lx1) in *.
    destruct Hr as (He & _ & [H2|(_ & _ & [= -> -> ->] & _)]).
    { by apply read_number_raise in H2 as (lex & tl & [=] & _). }
    rewrite at_end_rest in He. destruct (rest lx0) as [|c r] eqn:Er; [done|].
    exists (pos lx0), c. change (text (init txt)) with txt in Ht.
    destruct Hsy as [Hl Hc]. rewrite Ht0, Ht in Hl, Hc.
    rewrite (peek0_cons _ _ _ Er).
    pose proof (get_rest _ _ _ Er) as Hg. rewrite Ht0, Ht in Hg. done.
  - intros lx toks lx1 e lx2. apply tokenize_raise.
Qed.

End LexicalError.

Section PositionTracking.

Lemma advance_fields lx :
  pos (advance lx).2 = pos lx + 1 /\ text (advance lx).2 = text lx
  /\ if String.eqb (peek lx 0) NL
     then line (advance lx).2 = line lx + 1 /\ col (advance lx).2 = 1
     else line (advance lx).2 = line lx /\ col (advance lx).2 = col lx + 1.
Proof. unfold advance. cbn [snd]. by destruct (String.eqb _ _). Qed.

Lemma next_token_stamp lx tok lx' :
  next_token lx = Return tok lx' ->
  Token.line tok = line (skip_ws_and_comments lx)
  /\ Token.col tok = col (skip_ws_and_comments lx).
Proof.
  intros H. apply next_token_return in H as [(_ & -> & _)|[_ (Hl & Hc & _)]]; done.
Qed.

(** C6.  A fresh scanner is at line 1, column 1.  [advance] moves the
    offset by one; when the character it consumes is a newline the line
    grows by one and the column becomes 1, otherwise the line stays and
    the column grows by one.  A token is stamped with the line and column
    the scanner is at when recognition starts, after trivia is skipped.
    Hence on a scan from the start of a text the cursor always holds one
    plus the number of newlines before the offset and one plus the number
    of characters between the last of them and the offset, and every
    token returned is the text at some offset, stamped with the line and
    column of that offset.  Scanning [a], newline, [bb] gives [a] at
    (1,1) and [bb] at (2,1). *)
Theorem position_tracking :
  (forall txt, pos (init txt) = 0 /\ line (init txt) = 1 /\ col (init txt) = 1)
  /\ (forall lx,
        let lx' := (advance lx).2 in
        pos lx' = pos lx + 1 /\ text lx' = text lx
        /\ if String.eqb (peek lx 0) NL
           then line lx' = line lx + 1 /\ col lx' = 1
           else line lx' = line lx /\ col lx' = col lx + 1)
  /\ (forall lx tok lx',
        next_token lx = Return tok lx' ->
        Token.line tok = line (skip_ws_and_comments lx)
        /\ Token.col tok = col (skip_ws_and_comments lx))
  /\ (forall txt toks lx',
        scans (init txt) toks lx' ->
        line lx' = 1 + count_nl (stake (pos lx') txt)
        /\ col lx' = 1 + String.length (after_last_nl (stake (pos lx') txt))
        /\ Forall (fun tok => exists p, token_at txt p tok) toks)
  /\ tokenize (init (String "a" (String "010" "bb")))
     = Some (Return
               [Token.Make "ID" "a" 1 1 None (Some 0);
                Token.Make "ID" "bb" 2 1 None (Some 1);
                Token4 "EOF" EmptyString 2 3]
               (Lexer.Make (String "a" (String "010" "bb")) 4 2 3
                  {["a" := 0; "bb" := 1]} 2)).
Proof.
  split; [done|]. split; [apply advance_fields|]. split; [apply next_token_stamp|].
  split; [|by vm_compute].
  intros txt toks lx' Hs.
  destruct (scans_synced _ _ _ Hs (synced_init txt)) as ([Hl Hc] & Ht & Hall).
  change (text (init txt)) with txt in *. rewrite Ht in Hl, Hc. done.
Qed.

End PositionTracking.

Section TriviaOnlyInput.

(** C7.  For a text made only of blanks (space, tab, carriage return,
    newline) and [//] comments, [tokenize] returns exactly one token, the
    end marker, at the line and column that follow the last character of
    the text, with the whole text consumed. *)
Theorem tokenize_trivia_only txt :
  TriviaOnly txt ->
  tokenize (init txt)
  = Some (Return [Token4 "EOF" EmptyString (end_line txt) (end_col txt)]
            (Lexer.Make txt (String.length txt) (end_line txt) (end_col txt) ∅ 0)).
Proof.
  intros H. unfold tokenize. rewrite tokenize_loop_S.
  by rewrite (next_token_trivia_only _ H).
Qed.

Lemma tokenize_trivia_only_witness :
  let txt := String " " (String "009" ("// note" +:+ NL +:+ (String "013" "//"))) in
  TriviaOnly txt
  /\ tokenize (init txt)
     = Some (Return [Token4 "EOF" EmptyString 2 4] (Lexer.Make txt 13 2 4 ∅ 0)).
Proof.
  cbv zeta.
  assert (TriviaOnly
            (String " " (String "009" ("// note" +:+ NL +:+ (String "013" "//")))))
    as H by (by apply trivia_only_spec).
  split; [exact H|]. exact (tokenize_trivia_only _ H).
Defined.

End TriviaOnlyInput.

Section AfterEndMarker.

(** C10.  Once [next_token] has returned the end marker, a further call
    from the state it left returns the same end marker, with the same
    line and column, and leaves the same state; so does any number of
    further calls. *)
Theorem next_token_after_end_marker lx tok lx' :
  next_token lx = Return tok lx' -> Token.type tok = "EOF" ->
  next_token lx' = Return tok lx'
  /\ forall k, scans lx' (replicate k tok) lx'.
Proof.
  intros H Ht. destruct (next_token_eof _ _ _ H Ht) as [He ->].
  pose proof (next_token_at_end _ He) as Hn. split; [done|].
  induction k as [|k IH]; [constructor|]. by econstructor.
Qed.

Lemma next_token_after_end_marker_witness :
  let lx1 := Lexer.Make "x " 1 1 2 {["x" := 0]} 1 in
  let lx2 := Lexer.Make "x " 2 1 3 {["x" := 0]} 1 in
  let tok := Token4 "EOF" EmptyString 1 3 in
  next_token lx1 = Return tok lx2 /\ Token.type tok = "EOF"
  /\ next_token lx2 = Return tok lx2
  /\ scans lx2 [tok; tok; tok] lx2.
Proof.
  cbv zeta.
  assert (next_token (Lexer.Make "x " 1 1 2 {["x" := 0]} 1)
          = Return (Token4 "EOF" EmptyString 1 3) (Lexer.Make "x " 2 1 3 {["x" := 0]} 1))
    as H by (by vm_compute).
  split; [exact H|]. split; [reflexivity|].
  destruct (next_token_after_end_marker _ _ _ H eq_refl) as [H1 H2].
  split; [exact H1|exact (H2 3)].
Defined.

End AfterEndMarker.

Section Frame.


(** C8, at the input where the code departs from it.  On the text made of
    the one character U+00B2 the number recogniser consumes that
    character and then raises [ValueError]: the cursor has moved and no
    token was produced. *)
Theorem read_number_consumes_without_token :
  let txt := String "178" EmptyString in
  read_number (init txt) = Raise (ValueError txt) (Lexer.Make txt 1 1 2 ∅ 0)
  /\ pos (Lexer.Make txt 1 1 2 ∅ 0) = pos (init txt) + 1
  /\ Lexer.Make txt 1 1 2 ∅ 0 <> init txt.
Proof. repeat split; by vm_compute. Qed.

End Frame.

Section NumberLiteral.

(** C4, at the input where the code departs from it.  On the text 1
    followed by U+00B2 the character under the cursor is the decimal
    digit 1 and the run of decimal digits is that one character, yet the
    recogniser consumes both characters and raises [ValueError] instead of
    returning the number 1.  On [042] it returns the value 42 with the
    lexeme [042]. *)
Theorem read_number_superscript_digit :
  let txt := String "1" (String "178" EmptyString) in
  peek (init txt) 0 = "1"
  /\ span Py.char_isdecimal txt = ("1", String "178" EmptyString)
  /\ read_number (init txt) = Raise (ValueError txt) (Lexer.Make txt 2 1 3 ∅ 0)
  /\ read_number (init "042")
     = Return (Some (Token.Make "NUM" "042" 1 1 (Some 42%Z) None))
         (Lexer.Make "042" 3 1 4 ∅ 0).
Proof. repeat split; by vm_compute. Qed.

End NumberLiteral.

Section Termination.



(** [tokenize] always finishes, and in one of three ways: with a token
    list whose last token is the end marker and which holds no other end
    marker, with a [LexerError], or with the [ValueError] of [int]. *)
Lemma tokenize_finishes lx :
  (exists front lx',
     tokenize lx = Some (Return (front ++ [EOF_at lx']) lx')
     /\ at_end lx' = true /\ Forall (fun tok => is_eof tok = false) front)
  \/ (exists ch ln cl lx', tokenize lx = Some (Raise (LexerError ch ln cl) lx'))
  \/ (exists lex lx', tokenize lx = Some (Raise (ValueError lex) lx')).
Proof.
  unfold tokenize.
  destruct (tokenize_loop_finishes (S (remaining lx)) lx [])
    as [(new & lx1 & E & _ & He & Hall)|(new & lx1 & e & lx2 & E & _)]; [lia| |].
  - left. exists new, lx1. by rewrite E.
  - right. rewrite E. destruct e; [left|right]; eauto.
Qed.



(** C9, at the input where the code departs from it.  On the text made of
    the one character U+00B2, [tokenize] finishes, but neither with a
    token list nor with the lexical error: it raises the [ValueError] of
    [int]. *)
Theorem tokenize_raises_value_error :
  let txt := String "178" EmptyString in
  tokenize (init txt) = Some (Raise (ValueError txt) (Lexer.Make txt 1 1 2 ∅ 0))
  /\ Py.isdigit txt = true /\ Py.int txt = None.
Proof. repeat split; by vm_compute. Qed.

End Termination.

Section TriviaSkipper.

Lemma trivia_prefix_maximal b s tl :
  s = trivia_prefix b s +:+ tl -> trivia_prefix false tl = EmptyString.
Proof.
  revert b tl; induction s as [|c s IH]; intros b tl.
  { cbn [trivia_prefix]. rewrite string_app_nil_l. by intros <-. }
  cbn [trivia_prefix].
  destruct (b && negb (is_nl c)) eqn:E1.
  { rewrite string_app_cons. intros [= H]. by apply (IH true). }
  destruct (ws_char c) eqn:E2.
  { rewrite string_app_cons. intros [= H]. by apply (IH false). }
  destruct (Ascii.eqb c "/" && String.prefix "/" s) eqn:E3.
  { rewrite string_app_cons. intros [= H]. by apply (IH true). }
  rewrite string_app_nil_l. intros <-. cbn [trivia_prefix andb].
  by rewrite E2, E3.
Qed.

Lemma trivia_prefix_empty s :
  trivia_prefix false s = EmptyString ->
  starts_with ws_char s = false /\ String.prefix "//" s = false.
Proof.
  destruct s as [|c s]; [done|]. cbn [trivia_prefix andb starts_with].
  destruct (ws_char c); [done|]. intros H. split; [done|].
  cbn [String.prefix]. destruct (ascii_dec "/" c) as [<-|]; [|done].
  change (Ascii.eqb "/" "/") with true in H. cbn [andb] in H.
  by destruct (String.prefix "/" s).
Qed.

(** [skip_ws_and_comments] consumes the trivia at the head of the text
    ahead, all of it and nothing else: what it leaves starts neither with
    a blank nor with a comment, so that one more pass of the loop body
    leaves [moved] false, which is how the loop ends, and a second call
    changes nothing. *)
Lemma skip_consumes_all_trivia lx :
  let lx' := skip_ws_and_comments lx in
  lx' = consume (trivia_prefix false (rest lx)) lx
  /\ rest lx = trivia_prefix false (rest lx) +:+ rest lx'
  /\ starts_with ws_char (rest lx') = false
  /\ String.prefix "//" (rest lx') = false
  /\ skip_pass lx' = (false, lx')
  /\ skip_ws_and_comments lx' = lx'.
Proof.
  cbv zeta. rewrite (skip_ws_and_comments_trivia lx).
  destruct (trivia_prefix_is_prefix false (rest lx)) as [tl Htl].
  pose proof (rest_consume_prefix _ _ lx Htl) as Hr.
  pose proof (trivia_prefix_maximal _ _ _ Htl) as Hm.
  rewrite Hr. split; [done|]. split; [done|].
  destruct (trivia_prefix_empty _ Hm) as [H1 H2]. split; [done|]. split; [done|].
  split.
  - rewrite skip_pass_rest. cbv zeta. rewrite Hr.
    assert ((span ws_char tl).1 = EmptyString) as ->.
    { destruct tl as [|c r]; [done|]. simpl in *. by rewrite H1. }
    cbn [consume]. by rewrite Hr, H2.
  - by rewrite skip_ws_and_comments_trivia, Hr, Hm.
Qed.

End TriviaSkipper.

(** * The scans the specification lists as tests *)

Section Examples.

(** Digits are exhausted first when the run starts with a digit. *)
Example scan_digits_then_letters :
  tokenize (init "123abc")
  = Some (Return
            [Token.Make "NUM" "123" 1 1 (Some 123%Z) None;
             Token.Make "ID" "abc" 1 4 None (Some 0);
             Token4 "EOF" EmptyString 1 7]
            (Lexer.Make "123abc" 6 1 7 {["abc" := 0]} 1)).
Proof. by vm_compute. Qed.

(** A comment yields no token; what follows it is on the next line. *)
Example scan_comment :
  let txt := "a // comment" +:+ NL +:+ "b" in
  tokenize (init txt)
  = Some (Return
            [Token.Make "ID" "a" 1 1 None (Some 0);
             Token.Make "ID" "b" 2 1 None (Some 1);
             Token4 "EOF" EmptyString 2 2]
            (Lexer.Make txt 14 2 2 {["a" := 0; "b" := 1]} 2)).
Proof. by vm_compute. Qed.

(** The end-to-end scan, every token on line 1, ids in first-seen order. *)
Example scan_if_statement :
  tokenize (init "if (x >= 10) { y++; }")
  = Some (Return
            [Token4 "KW_IF" "if" 1 1;
             Token4 "IPAREN" "(" 1 4;
             Token.Make "ID" "x" 1 5 None (Some 0);
             Token4 "MAOI" ">=" 1 7;
             Token.Make "NUM" "10" 1 10 (Some 10%Z) None;
             Token4 "DPAREN" ")" 1 12;
             Token4 "ILLAVE" "{" 1 14;
             Token.Make "ID" "y" 1 16 None (Some 1);
             Token4 "INC" "++" 1 17;
             Token4 "PYC" ";" 1 19;
             Token4 "DLLAVE" "}" 1 21;
             Token4 "EOF" EmptyString 1 22]
            (Lexer.Make "if (x >= 10) { y++; }" 21 1 22 {["x" := 0; "y" := 1]} 2)).
Proof. by vm_compute. Qed.

End Examples.

(** * Further properties of the scanner *)

Section Coverage.

Lemma trivia_prefix_idem b s :
  trivia_prefix b (trivia_prefix b s) = trivia_prefix b s.
Proof.
  revert b; induction s as [|c s IH]; intros b; [done|].
  cbn [trivia_prefix].
  destruct (b && negb (is_nl c)) eqn:E1.
  { cbn [trivia_prefix]. by rewrite E1, IH. }
  destruct (ws_char c) eqn:E2.
  { cbn [trivia_prefix]. by rewrite E1, E2, IH. }
  destruct (Ascii.eqb c "/" && String.prefix "/" s) eqn:E3; [|done].
  cbn [trivia_prefix]. rewrite E1, E2.
  apply andb_true_iff in E3 as [Hc Hp]. rewrite Hc. cbn [andb].
  assert (String.prefix "/" (trivia_prefix true s) = true) as ->.
  { destruct s as [|d s]; [done|]. cbn [String.prefix] in Hp.
    destruct (ascii_dec "/" d) as [<-|]; [|done].
    cbn [trivia_prefix andb is_nl]. change (negb (Ascii.eqb "/" "010")) with true.
    cbv iota. cbn [String.prefix]. destruct (ascii_dec "/" "/"); [|done].
    apply prefix_empty. }
  by rewrite IH.
Qed.

(** What [skip_ws_and_comments] consumes is a text of blanks and
    comments only. *)
Lemma trivia_prefix_trivia s : TriviaOnly (trivia_prefix false s).
Proof. apply trivia_only_spec, String.eqb_eq, trivia_prefix_idem. Qed.

Lemma skip_rest lx :
  rest lx = trivia_prefix false (rest lx) +:+ rest (skip_ws_and_comments lx).
Proof.
  rewrite (skip_ws_and_comments_trivia lx).
  destruct (trivia_prefix_is_prefix false (rest lx)) as [tl Htl].
  by rewrite (rest_consume_prefix _ _ lx Htl).
Qed.

(** One call: the text ahead is the trivia skipped, the lexeme returned
    and the text left, in this order. *)
Lemma next_token_weave lx tok lx' :
  next_token lx = Return tok lx' ->
  exists g, TriviaOnly g /\ rest lx = g +:+ Token.lexeme tok +:+ rest lx'.
Proof.
  intros H. exists (trivia_prefix false (rest lx)).
  split; [apply trivia_prefix_trivia|].
  rewrite (skip_rest lx) at 1. f_equal.
  apply next_token_return in H as [(_ & -> & ->)|[_ (_ & _ & _ & _ & Hr & _)]];
    [done|exact Hr].
Qed.

Lemma scans_weave lx toks lx' :
  scans lx toks lx' ->
  exists gaps, length gaps = length toks /\ Forall TriviaOnly gaps
    /\ rest lx = weave gaps toks +:+ rest lx'.
Proof.
  induction 1 as [lx|lx tok lx1 toks lx2 Hn _ (gaps & Hl & Hall & Hr)].
  { by exists []. }
  destruct (next_token_weave _ _ _ Hn) as (g & Hg & E).
  exists (g :: gaps). split; [simpl; lia|]. split; [by constructor|].
  cbn [weave]. by rewrite E, Hr, !string_app_assoc.
Qed.

(** What a returning [tokenize] has done: a run of calls that ends at
    the end of the text with the first end marker. *)
Lemma tokenize_return lx toks lx' :
  tokenize lx = Some (Return toks lx') ->
  scans lx toks lx' /\ at_end lx' = true
  /\ exists front, toks = front ++ [EOF_at lx']
       /\ Forall (fun tok => is_eof tok = false) front.
Proof.
  unfold tokenize. intros H.
  destruct (tokenize_loop_finishes (S (remaining lx)) lx [])
    as [(new & lx1 & E & Hs & He & Hall)|(new & lx1 & e & lx2 & E & _)];
    [lia| |congruence].
  rewrite E in H. injection H as <- <-. eauto.
Qed.

(** Nothing of the text is lost and nothing is invented.  When [tokenize]
    returns, the text that was ahead of the cursor is exactly the lexemes
    of the tokens, in the order of the list, each preceded by a stretch
    of blanks and comments (the last stretch precedes the end marker,
    whose lexeme is empty). *)
Theorem tokens_cover_text lx toks lx' :
  tokenize lx = Some (Return toks lx') ->
  exists gaps, length gaps = length toks /\ Forall TriviaOnly gaps
    /\ rest lx = weave gaps toks.
Proof.
  intros H. destruct (tokenize_return _ _ _ H) as (Hs & He & _).
  destruct (scans_weave _ _ _ Hs) as (gaps & Hl & Hall & Hr).
  exists gaps. split; [done|]. split; [done|].
  rewrite at_end_rest in He. destruct (rest lx'); [|done].
  by rewrite string_app_nil_r in Hr.
Qed.

Lemma tokens_cover_text_witness :
  let txt := "x = 1 // one" in
  let toks := [Token.Make "ID" "x" 1 1 None (Some 0); Token4 "ES" "=" 1 3;
               Token.Make "NUM" "1" 1 5 (Some 1%Z) None;
               Token4 "EOF" EmptyString 1 13] in
  tokenize (init txt)
  = Some (Return toks (Lexer.Make txt 12 1 13 (<["x" := 0]> ∅) 1))
  /\ exists gaps, length gaps = length toks /\ Forall TriviaOnly gaps
       /\ txt = weave gaps toks.
Proof.
  cbv zeta.
  assert (tokenize (init "x = 1 // one")
          = Some (Return [Token.Make "ID" "x" 1 1 None (Some 0); Token4 "ES" "=" 1 3;
                          Token.Make "NUM" "1" 1 5 (Some 1%Z) None;
                          Token4 "EOF" EmptyString 1 13]
                    (Lexer.Make "x = 1 // one" 12 1 13 (<["x" := 0]> ∅) 1)))
    as H by (by vm_compute).
  split; [exact H|]. exact (tokens_cover_text _ _ _ H).
Defined.

End Coverage.

Section Monotone.

Lemma consume_in_text s tl lx :
  rest lx = s +:+ tl -> pos lx <= n lx -> pos (consume s lx) <= n (consume s lx).
Proof.
  intros Hr Hp. pose proof (remaining_rest lx) as Hl.
  rewrite Hr, string_length_app in Hl. unfold remaining in Hl.
  unfold n in *. autorewrite with consume. lia.
Qed.

Lemma consume_line_le s lx : line lx <= line (consume s lx).
Proof. autorewrite with consume. lia. Qed.

Lemma intern_grows lex lx :
  text (intern lex lx) = text lx /\ pos (intern lex lx) = pos lx
  /\ line (intern lex lx) = line lx
  /\ lettab lx ⊆ lettab (intern lex lx) /\ _letseq lx <= _letseq (intern lex lx).
Proof.
  unfold intern. destruct (lettab lx !! lex) eqn:E; [done|]. simpl.
  repeat split; try done; [by apply insert_subseteq|lia].
Qed.

Lemma moved_on_consume s tl lx : rest lx = s +:+ tl -> moved_on lx (consume s lx).
Proof.
  intros Hr. unfold moved_on. pose proof (consume_in_text _ _ _ Hr).
  pose proof (consume_line_le s lx). autorewrite with consume in *.
  repeat split; try done; lia.
Qed.

Lemma moved_on_trans a b c : moved_on a b -> moved_on b c -> moved_on a c.
Proof.
  intros (H1 & H2 & H3 & H4 & H5 & H6) (G1 & G2 & G3 & G4 & G5 & G6).
  unfold moved_on. repeat split; try lia; try congruence; try tauto.
  by etrans.
Qed.

Lemma moved_on_intern lex lx : moved_on lx (intern lex lx).
Proof.
  destruct (intern_grows lex lx) as (H1 & H2 & H3 & H4 & H5).
  unfold moved_on, n. rewrite H1, H2, H3. repeat split; try done.
Qed.

Lemma moved_on_skip lx : moved_on lx (skip_ws_and_comments lx).
Proof.
  rewrite skip_ws_and_comments_trivia.
  destruct (trivia_prefix_is_prefix false (rest lx)) as [tl Htl].
  by eapply moved_on_consume.
Qed.

Lemma next_token_moved_on lx :
  match next_token lx with
  | Return _ lx' => moved_on lx lx'
  | Raise _ lx' => moved_on lx lx'
  end.
Proof.
  pose proof (moved_on_skip lx) as Hs.
  destruct (next_token lx) as [tok lx'|e lx'] eqn:E.
  - apply next_token_return in E as [(_ & _ & ->)|[_ (_ & _ & _ & _ & Hr & -> & _)]];
      [done|].
    eapply moved_on_trans; [exact Hs|].
    pose proof (moved_on_consume _ _ _ Hr) as Hc.
    destruct (String.eqb _ _); [|done].
    eapply moved_on_trans; [exact Hc|apply moved_on_intern].
  - apply next_token_raise in E. cbv zeta in E.
    destruct E as (_ & _ & [H2|(_ & _ & _ & ->)]); [|done].
    apply read_number_raise in H2 as (lex & tl & _ & Hr & -> & _).
    eapply moved_on_trans; [exact Hs|]. by eapply moved_on_consume.
Qed.

(** The part of the state [next_token] can only move forward: it leaves
    the text alone, never moves the offset or the line back, never takes
    an entry out of the symbol table or changes one, and never lowers the
    id counter.  This holds however the call ends, by a token or by an
    exception. *)
Theorem next_token_moves_forward lx :
  match next_token lx with
  | Return _ lx' => moved_on lx lx'
  | Raise _ lx' => moved_on lx lx'
  end.
Proof. apply next_token_moved_on. Qed.

End Monotone.

Section EndOfScan.

Lemma moved_on_refl lx : moved_on lx lx.
Proof. unfold moved_on. repeat split; done. Qed.

Lemma scans_moved_on lx toks lx' : scans lx toks lx' -> moved_on lx lx'.
Proof.
  induction 1 as [lx|lx tok lx1 toks lx2 Hn _ IH]; [apply moved_on_refl|].
  pose proof (next_token_moved_on lx) as H. rewrite Hn in H.
  by eapply moved_on_trans.
Qed.

Lemma stake_all s : stake (String.length s) s = s.
Proof.
  pose proof (stake_app_length s EmptyString) as H.
  by rewrite string_app_nil_r in H.
Qed.

(** When [tokenize] returns on a fresh scanner, the whole text has been
    consumed and the last token is the end marker stamped with the line
    and column that follow the last character of the text; no other token
    of the list is an end marker. *)
Theorem end_marker_closes_the_text txt toks lx' :
  tokenize (init txt) = Some (Return toks lx') ->
  text lx' = txt /\ pos lx' = String.length txt
  /\ exists front,
       toks = front ++ [Token4 "EOF" EmptyString (end_line txt) (end_col txt)]
       /\ Forall (fun tok => Token.type tok <> "EOF") front.
Proof.
  intros H. destruct (tokenize_return _ _ _ H) as (Hs & He & front & -> & Hall).
  destruct (scans_synced _ _ _ Hs (synced_init txt)) as ([Hl Hc] & Ht & _).
  destruct (scans_moved_on _ _ _ Hs) as (_ & _ & _ & _ & _ & Hin).
  change (text (init txt)) with txt in Ht.
  assert (pos lx' = String.length txt) as Hp.
  { unfold at_end in He. apply Nat.leb_le in He. unfold n in *.
    rewrite Ht in *. simpl in Hin. lia. }
  split; [done|]. split; [done|]. exists front. split.
  - unfold EOF_at. rewrite Hl, Hc, Ht, Hp. by rewrite stake_all.
  - eapply Forall_impl; [exact Hall|]. intros tok Htok. by apply String.eqb_neq.
Qed.

Lemma end_marker_closes_the_text_witness :
  let txt := "a" +:+ NL +:+ "b  " in
  let front := [Token.Make "ID" "a" 1 1 None (Some 0);
                Token.Make "ID" "b" 2 1 None (Some 1)] in
  let lx' := Lexer.Make txt 5 2 4 (<["b" := 1]> (<["a" := 0]> ∅)) 2 in
  tokenize (init txt) = Some (Return (front ++ [Token4 "EOF" EmptyString 2 4]) lx')
  /\ text lx' = txt /\ pos lx' = String.length txt.
Proof.
  cbv zeta.
  assert (tokenize (init ("a" +:+ NL +:+ "b  "))
          = Some (Return ([Token.Make "ID" "a" 1 1 None (Some 0);
                           Token.Make "ID" "b" 2 1 None (Some 1)]
                          ++ [Token4 "EOF" EmptyString 2 4])
                    (Lexer.Make ("a" +:+ NL +:+ "b  ") 5 2 4
                       (<["b" := 1]> (<["a" := 0]> ∅)) 2)))
    as H by (by vm_compute).
  split; [exact H|].
  destruct (end_marker_closes_the_text _ _ _ H) as (Ht & Hp & _).
  split; [exact Ht|exact Hp].
Defined.

Lemma scans_length lx toks lx' :
  scans lx toks lx' -> Forall (fun tok => is_eof tok = false) toks ->
  length toks + remaining lx' <= remaining lx.
Proof.
  induction 1 as [lx|lx tok lx1 toks lx2 Hn _ IH]; intros Hall; [simpl; lia|].
  apply Forall_cons in Hall as [Ht Hall].
  pose proof (next_token_progress _ _ _ Hn Ht). specialize (IH Hall). simpl. lia.
Qed.

Lemma scans_split lx a b lx' :
  scans lx (a ++ b) lx' -> exists mid, scans lx a mid /\ scans mid b lx'.
Proof.
  revert lx; induction a as [|tok a IH]; intros lx H.
  { exists lx. split; [constructor|done]. }
  inversion H as [|? ? lx1 ? ? Hn Hs]; subst.
  destruct (IH _ Hs) as (mid & Ha & Hb). exists mid. split; [|done].
  by econstructor.
Qed.

(** A scan returns at most one token for each character left to read,
    and the end marker: every token but the end marker has consumed at
    least one character of its own. *)
Theorem token_count_bound lx toks lx' :
  tokenize lx = Some (Return toks lx') ->
  length toks <= remaining lx + 1.
Proof.
  intros H. destruct (tokenize_return _ _ _ H) as (Hs & _ & front & -> & Hall).
  destruct (scans_split _ _ _ _ Hs) as (mid & Ha & _).
  pose proof (scans_length _ _ _ Ha Hall). rewrite length_app. simpl. lia.
Qed.

Lemma token_count_bound_witness :
  let toks := [Token.Make "ID" "a" 1 1 None (Some 0); Token4 "MAS" "+" 1 2;
               Token.Make "ID" "b" 1 3 None (Some 1);
               Token4 "EOF" EmptyString 1 4] in
  tokenize (init "a+b")
  = Some (Return toks (Lexer.Make "a+b" 3 1 4 (<["b" := 1]> (<["a" := 0]> ∅)) 2))
  /\ length toks <= remaining (init "a+b") + 1.
Proof.
  cbv zeta.
  assert (tokenize (init "a+b")
          = Some (Return [Token.Make "ID" "a" 1 1 None (Some 0); Token4 "MAS" "+" 1 2;
                          Token.Make "ID" "b" 1 3 None (Some 1);
                          Token4 "EOF" EmptyString 1 4]
                    (Lexer.Make "a+b" 3 1 4 (<["b" := 1]> (<["a" := 0]> ∅)) 2)))
    as H by (by vm_compute).
  split; [exact H|]. exact (token_count_bound _ _ _ H).
Defined.

End EndOfScan.

Section Kinds.

Lemma ident_start_not_digit c : ident_start c = true -> Py.char_isdigit c = false.
Proof. destruct c as [[] [] [] [] [] [] [] []]; by vm_compute. Qed.

(** The entries of the three tables: one or two characters, the first of
    which starts neither an identifier nor a number, and a kind that is
    none of the kinds the other recognisers give. *)
Lemma operator_kind_entry lex ty :
  operator_kind lex ty ->
  exists a r, lex = String a r /\ ident_start a = false
    /\ Py.char_isdigit a = false
    /\ ty <> "EOF" /\ ty <> "ID" /\ ty <> "NUM"
    /\ String.prefix "KW_" ty = false
    /\ (r = EmptyString \/ exists b, r = String b EmptyString).
Proof.
  intros [H|[H|H]].
  - apply elem_of_list_to_map_2 in H.
    repeat (apply elem_of_cons in H as [H|H];
            [injection H as -> ->; eexists _, _; repeat split; eauto; done|]).
    by apply elem_of_nil in H.
  - apply elem_of_list_to_map_2 in H.
    repeat (apply elem_of_cons in H as [H|H];
            [injection H as -> ->; eexists _, _; repeat split; eauto; done|]).
    by apply elem_of_nil in H.
  - apply elem_of_list_to_map_2 in H.
    repeat (apply elem_of_cons in H as [H|H];
            [injection H as -> ->; eexists _, _; repeat split; eauto; done|]).
    by apply elem_of_nil in H.
Qed.

Lemma int_digits_some s acc v :
  Py.int_digits acc s = Some v -> Py.all_chars Py.char_isdecimal s = true.
Proof.
  revert acc; induction s as [|c s IH]; intros acc H; [done|].
  simpl in H |- *. unfold Py.decimal_value in H.
  destruct (Py.char_isdecimal c); [|done]. simpl. by eapply IH.
Qed.

Lemma int_some lex v :
  Py.int lex = Some v ->
  lex <> EmptyString /\ Py.all_chars Py.char_isdecimal lex = true
  /\ v = positional_value lex.
Proof.
  intros H. assert (lex <> EmptyString) as Hne by (by destruct lex).
  assert (Py.all_chars Py.char_isdecimal lex = true) as Hd.
  { unfold Py.int in H. destruct (Py.nonempty lex); [|done].
    by eapply int_digits_some. }
  split; [done|]. split; [done|].
  rewrite (int_decimal_run _ Hne Hd) in H. by injection H.
Qed.

(** How each recogniser that produces a token builds it from the text
    ahead. *)
Lemma read_identifier_shape lx tok lx' :
  read_identifier_or_keyword lx = (Some tok, lx') ->
  exists c r,
    rest lx = String c r /\ ident_start c = true
    /\ rest lx' = (span ident_char r).2
    /\ (let lex := String c (span ident_char r).1 in
        (lex ∈ KEYWORDS /\ tok = Token4 ("KW_" +:+ Py.upper lex) lex (line lx) (col lx))
        \/ ((lex ∉ KEYWORDS) /\ exists i,
              tok = Token.Make "ID" lex (line lx) (col lx) None (Some i))).
Proof.
  intros H. pose proof (read_identifier_produces _ _ _ H) as (_ & _ & _ & _ & Hr' & _).
  destruct (rest lx) as [|c r] eqn:Hr.
  { rewrite read_identifier_none in H; [done|]. by rewrite (peek0_nil _ Hr). }
  destruct (ident_start c) eqn:Hc.
  2:{ rewrite read_identifier_none in H; [done|].
      by rewrite (ident_start_peek _ _ _ Hr). }
  exists c, r. split; [done|]. split; [done|].
  rewrite (read_identifier_some _ _ _ Hr Hc) in H. cbv zeta in H |- *.
  pose proof (span_app ident_char r) as Hsp.
  destruct (bool_decide _) eqn:Ek.
  - apply bool_decide_eq_true in Ek. injection H as <- <-.
    cbn [Token.lexeme Token4] in Hr'. rewrite string_app_cons in Hr'.
    injection Hr' as Hr'. rewrite <- Hsp in Hr' at 1.
    apply String.app_inj in Hr'. split; [done|]. by left.
  - apply bool_decide_eq_false in Ek. injection H as <- <-.
    cbn [Token.lexeme] in Hr'. rewrite string_app_cons in Hr'.
    injection Hr' as Hr'. rewrite <- Hsp in Hr' at 1.
    apply String.app_inj in Hr'. split; [done|]. right. split; [done|].
    set (lx2 := consume _ _). unfold intern.
    destruct (lettab lx2 !! _) as [i|] eqn:E.
    + exists i. by rewrite E.
    + eexists. cbn [lettab]. by rewrite lookup_insert_eq.
Qed.

Lemma read_number_shape lx tok lx' :
  read_number lx = Return (Some tok) lx' ->
  exists c r,
    rest lx = String c r /\ Py.char_isdigit c = true
    /\ rest lx' = (span Py.char_isdigit r).2
    /\ (let lex := String c (span Py.char_isdigit r).1 in
        Py.all_chars Py.char_isdecimal lex = true
        /\ tok = Token.Make "NUM" lex (line lx) (col lx)
                   (Some (positional_value lex)) None).
Proof.
  intros H. pose proof (read_number_produces _ _ _ H) as (_ & _ & _ & _ & Hr' & _).
  destruct (rest lx) as [|c r] eqn:Hr.
  { rewrite read_number_none in H; [done|]. by rewrite (peek0_nil _ Hr). }
  destruct (Py.char_isdigit c) eqn:Hc.
  2:{ rewrite read_number_none in H; [done|].
      by rewrite (peek0_cons _ _ _ Hr), isdigit_char. }
  exists c, r. split; [done|]. split; [done|].
  rewrite (read_number_some _ _ _ Hr Hc) in H. cbv zeta in H |- *.
  pose proof (span_app Py.char_isdigit r) as Hsp.
  destruct (Py.int _) as [v|] eqn:Ev; [|done].
  apply int_some in Ev as (_ & Hd & ->). injection H as <- <-.
  cbn [Token.lexeme] in Hr'. rewrite string_app_cons in Hr'.
  injection Hr' as Hr'. rewrite <- Hsp in Hr' at 1.
  apply String.app_inj in Hr'. by split.
Qed.

Lemma read_operator_shape lx tok lx' :
  read_operator_or_punct lx = (Some tok, lx') ->
  operator_kind (Token.lexeme tok) (Token.type tok)
  /\ tok = Token4 (Token.type tok) (Token.lexeme tok) (line lx) (col lx)
  /\ ((Token.lexeme tok = peek lx 0 +:+ peek lx 1
       /\ OPERATORS_2 !! (peek lx 0 +:+ peek lx 1) = Some (Token.type tok))
      \/ (Token.lexeme tok = peek lx 0
          /\ OPERATORS_2 !! (peek lx 0 +:+ peek lx 1) = None)).
Proof.
  unfold operator_kind.
  destruct (OPERATORS_2 !! (peek lx 0 +:+ peek lx 1)) as [ty|] eqn:H2.
  { rewrite (read_operator_two _ _ H2). intros [= <- <-]. tok_simpl. auto 6. }
  destruct (OPERATORS_1 !! peek lx 0) as [ty|] eqn:H1.
  { rewrite (read_operator_one _ _ H2 H1). intros [= <- <-]. tok_simpl. auto 6. }
  destruct (PUNCT !! peek lx 0) as [ty|] eqn:H0.
  { rewrite (read_operator_punct _ _ H2 H1 H0). intros [= <- <-]. tok_simpl. auto 6. }
  by rewrite (read_operator_none _ H2 H1 H0).
Qed.

End Kinds.

Section TokenInvariants.

Lemma well_formed_fields tok :
  well_formed tok ->
  (is_Some (Token.value tok) <-> Token.type tok = "NUM")
  /\ (is_Some (Token.lid tok) <-> Token.type tok = "ID")
  /\ (Token.lexeme tok = EmptyString <-> Token.type tok = "EOF").
Proof.
  intros [ln cl|lex ln cl Hk|c run ln cl i Hc Hr Hk|lex ln cl Hne Hd|lex ty ln cl Hk];
    tok_simpl.
  - repeat split; try done; by intros [? [=]].
  - assert (lex <> EmptyString) as Hne by (intros ->; by vm_compute in Hk).
    rewrite !string_app_cons.
    repeat split; try done; by intros [? [=]].
  - repeat split; try done; eauto; by intros [? [=]].
  - repeat split; try done; eauto; by intros [? [=]].
  - destruct (operator_kind_entry _ _ Hk)
      as (a & r & -> & _ & _ & Heof & Hid & Hnum & _).
    repeat split; try done; by intros [? [=]].
Qed.

Lemma next_token_well_formed lx tok lx' :
  next_token lx = Return tok lx' -> well_formed tok.
Proof.
  intros H. rewrite next_token_unfold in H. cbv zeta in H.
  destruct (at_end _); [injection H as <- <-; constructor|].
  destruct (read_identifier_or_keyword _) as [[t1|] lx1] eqn:E1.
  { injection H as <- <-.
    destruct (read_identifier_shape _ _ _ E1) as (c & r & _ & Hc & _ & Hk).
    cbv zeta in Hk. destruct Hk as [[Hk ->]|[Hk [i ->]]].
    - by constructor.
    - constructor; [done|apply span_all|done]. }
  destruct (read_number _) as [[t2|] lx2|e lx2] eqn:E2; [| |done].
  { injection H as <- <-.
    destruct (read_number_shape _ _ _ E2) as (c & r & _ & _ & _ & Hd & ->).
    by constructor. }
  destruct (read_operator_or_punct _) as [[t3|] lx3] eqn:E3; [|done].
  injection H as <- <-.
  destruct (read_operator_shape _ _ _ E3) as (Hk & -> & _). by constructor.
Qed.

(** Every token [next_token] returns is of one of five shapes: the end
    marker with the empty lexeme; a reserved word with the kind KW_
    followed by the word in upper case; an identifier, which is no
    reserved word and carries an id; a number made of decimal digits with
    its base-ten value; or an entry of the operator and punctuation
    tables with the kind the table gives.  So the value is present exactly
    on NUM tokens, the id exactly on ID tokens, and the lexeme is empty
    exactly on the end marker. *)
Theorem returned_token_well_formed lx tok lx' :
  next_token lx = Return tok lx' ->
  well_formed tok
  /\ (is_Some (Token.value tok) <-> Token.type tok = "NUM")
  /\ (is_Some (Token.lid tok) <-> Token.type tok = "ID")
  /\ (Token.lexeme tok = EmptyString <-> Token.type tok = "EOF").
Proof.
  intros H%next_token_well_formed. split; [done|]. by apply well_formed_fields.
Qed.

Lemma returned_token_well_formed_witness :
  let tok := Token.Make "NUM" "7" 1 1 (Some 7%Z) None in
  next_token (init "7") = Return tok (Lexer.Make "7" 1 1 2 ∅ 0)
  /\ well_formed tok
  /\ (is_Some (Token.value tok) <-> Token.type tok = "NUM").
Proof.
  cbv zeta.
  assert (next_token (init "7")
          = Return (Token.Make "NUM" "7" 1 1 (Some 7%Z) None) (Lexer.Make "7" 1 1 2 ∅ 0))
    as H by (by vm_compute).
  split; [exact H|].
  destruct (returned_token_well_formed _ _ _ H) as (Hwf & Hv & _).
  split; [exact Hwf|exact Hv].
Defined.

End TokenInvariants.

Section LongestMatch.

Lemma span_rest_stops p s : starts_with p (span p s).2 = false.
Proof.
  destruct (span p s).2 as [|c r] eqn:E; [done|].
  simpl. by apply (span_stop p s c r).
Qed.

Lemma peek1_after lx lx' a :
  rest lx = String a (rest lx') -> peek lx 1 = shead (rest lx').
Proof. intros H. by rewrite peek_rest, H. Qed.

(** Every token is the longest the text allows.  After an identifier or a
    reserved word the text left does not start with a letter, a digit or
    an underscore; after a number it does not start with a digit; after a
    one-character operator or punctuation mark that character and the
    next one are no two-character operator. *)
Theorem returned_token_longest_match lx tok lx' :
  next_token lx = Return tok lx' ->
  (Token.type tok = "ID" \/ Token.lexeme tok ∈ KEYWORDS ->
   starts_with ident_char (rest lx') = false)
  /\ (Token.type tok = "NUM" -> starts_with Py.char_isdigit (rest lx') = false)
  /\ (String.length (Token.lexeme tok) = 1 ->
      OPERATORS_2 !! (Token.lexeme tok +:+ shead (rest lx')) = None).
Proof.
  intros H. rewrite next_token_unfold in H. cbv zeta in H.
  set (lx0 := skip_ws_and_comments lx) in *.
  destruct (at_end lx0).
  { injection H as <- <-. tok_simpl.
    repeat split; try done. intros [[=]|Hk]. by vm_compute in Hk. }
  destruct (read_identifier_or_keyword lx0) as [[t1|] lx1] eqn:E1.
  { injection H as <- <-.
    destruct (read_identifier_shape _ _ _ E1) as (c & r & Hr & Hc & Hr' & Hk).
    cbv zeta in Hk.
    assert (starts_with ident_char (rest lx1) = false) as Hstop
      by (rewrite Hr'; apply span_rest_stops).
    assert (Token.type t1 <> "NUM") as Hn.
    { destruct Hk as [[_ ->]|[_ [i ->]]]; tok_simpl; [|done].
      by rewrite !string_app_cons. }
    assert (Token.lexeme t1 = String c (span ident_char r).1) as Hlex.
    { by destruct Hk as [[_ ->]|[_ [i ->]]]. }
    split; [done|]. split; [done|]. rewrite Hlex. intros Hlen.
    destruct (OPERATORS_2 !! _) as [ty|] eqn:E; [|done].
    assert (operator_kind (String c (span ident_char r).1 +:+ shead (rest lx1)) ty)
      as Hop by (by left).
    apply operator_kind_entry in Hop as (a & r0 & Ha & Hs & _).
    rewrite string_app_cons in Ha. injection Ha as <- _. congruence. }
  apply read_identifier_unchanged in E1 as ->.
  destruct (read_number lx0) as [[t2|] lx2|e lx2] eqn:E2; [| |done].
  { injection H as <- <-.
    destruct (read_number_shape _ _ _ E2) as (c & r & Hr & Hc & Hr' & Hd & ->).
    tok_simpl. split.
    { intros [[=]|Hk]. exfalso.
      assert (exists a s, String c (span Py.char_isdigit r).1 = String a s
                          /\ ident_start a = true) as (a & s & [= <- _] & Ha).
      { clear -Hk. unfold KEYWORDS in Hk. apply elem_of_list_to_set in Hk.
        repeat (apply elem_of_cons in Hk as [->|Hk]; [by eexists _, _|]).
        by apply elem_of_nil in Hk. }
      apply ident_start_not_digit in Ha. congruence. }
    split; [intros _; rewrite Hr'; apply span_rest_stops|].
    intros Hlen. destruct (OPERATORS_2 !! _) as [ty|] eqn:E; [|done].
    assert (operator_kind (String c (span Py.char_isdigit r).1 +:+ shead (rest lx2)) ty)
      as Hop by (by left).
    apply operator_kind_entry in Hop as (a & r0 & Ha & _ & Hdig & _).
    rewrite string_app_cons in Ha. injection Ha as <- _. congruence. }
  apply read_number_unchanged in E2 as ->.
  destruct (read_operator_or_punct lx0) as [[t3|] lx3] eqn:E3; [|done].
  injection H as <- <-.
  destruct (read_operator_shape _ _ _ E3) as (Hk & Htok & Hlex).
  pose proof (read_operator_produces _ _ _ E3) as (_ & _ & _ & _ & Hr & _).
  destruct (operator_kind_entry _ _ Hk)
    as (a & r0 & Ha & Hs & Hd & _ & Hid & Hnum & _ & Hlen).
  split.
  { intros [?|Hkw]; [done|]. exfalso. rewrite Ha in Hkw.
    assert (ident_start a = true) as Hst; [|congruence].
    clear -Hkw. unfold KEYWORDS in Hkw. apply elem_of_list_to_set in Hkw.
    repeat (apply elem_of_cons in Hkw as [[= -> _]|Hkw]; [done|]).
    by apply elem_of_nil in Hkw. }
  split; [done|]. intros H1.
  destruct Hlex as [[E H2]|[E H2]].
  - exfalso. apply OPERATORS_2_entry in H2 as (x & y & Exy & _).
    rewrite E, Exy in H1. done.
  - rewrite Ha in Hr, E, H1. destruct Hlen as [->|[b ->]]; [|done].
    rewrite string_app_cons, string_app_nil_l in Hr.
    rewrite (peek1_after _ _ _ Hr) in H2. by rewrite Ha, E.
Qed.

Lemma returned_token_longest_match_witness :
  let lx' := Lexer.Make "ab1+c" 3 1 4 (<["ab1" := 0]> ∅) 1 in
  next_token (init "ab1+c") = Return (Token.Make "ID" "ab1" 1 1 None (Some 0)) lx'
  /\ starts_with ident_char (rest lx') = false.
Proof.
  cbv zeta.
  assert (next_token (init "ab1+c")
          = Return (Token.Make "ID" "ab1" 1 1 None (Some 0))
              (Lexer.Make "ab1+c" 3 1 4 (<["ab1" := 0]> ∅) 1))
    as H by (by vm_compute).
  split; [exact H|].
  destruct (returned_token_longest_match _ _ _ H) as (Hid & _).
  apply Hid. by left.
Defined.

End LongestMatch.

Section Exclusive.

Lemma peek1_cons lx c r : rest lx = String c r -> peek lx 1 = shead r.
Proof. intros H. by rewrite peek_rest, H. Qed.

Lemma peek1_nil lx : rest lx = EmptyString -> peek lx 1 = EmptyString.
Proof. intros H. by rewrite peek_rest, H. Qed.

Lemma operator_declines_at_end lx :
  rest lx = EmptyString -> read_operator_or_punct lx = (None, lx).
Proof.
  intros H. apply read_operator_none;
    rewrite ?(peek0_nil _ H), ?(peek1_nil _ H); by vm_compute.
Qed.

Lemma operator_declines lx c r :
  rest lx = String c r -> ident_start c = true \/ Py.char_isdigit c = true ->
  read_operator_or_punct lx = (None, lx).
Proof.
  intros Hr Hc.
  assert (forall s ty, operator_kind (String c s) ty -> False) as Hno.
  { intros s ty Hop. apply operator_kind_entry in Hop as (a & r0 & [= <- _] & Hs & Hd & _).
    destruct Hc; congruence. }
  apply read_operator_none; rewrite (peek0_cons _ _ _ Hr), ?string_app_cons.
  - destruct (OPERATORS_2 !! _) as [ty|] eqn:E; [|done].
    exfalso. eapply Hno. left. exact E.
  - destruct (OPERATORS_1 !! _) as [ty|] eqn:E; [|done].
    exfalso. eapply Hno. right; left. exact E.
  - destruct (PUNCT !! _) as [ty|] eqn:E; [|done].
    exfalso. eapply Hno. right; right. exact E.
Qed.

(** At any state at least two of the three recognisers decline: they
    return no token and leave the scanner as it is.  So at most one of
    them reads anything, and the order in which [next_token] tries them
    decides no outcome. *)
Theorem recognisers_exclusive lx :
  (read_identifier_or_keyword lx = (None, lx) /\ read_number lx = Return None lx)
  \/ (read_identifier_or_keyword lx = (None, lx)
      /\ read_operator_or_punct lx = (None, lx))
  \/ (read_number lx = Return None lx /\ read_operator_or_punct lx = (None, lx)).
Proof.
  destruct (rest lx) as [|c r] eqn:Hr.
  { left. split.
    - apply read_identifier_none. by rewrite (peek0_nil _ Hr).
    - apply read_number_none. by rewrite (peek0_nil _ Hr). }
  destruct (ident_start c) eqn:Hc.
  { right; right. split; [|eapply operator_declines; eauto].
    apply read_number_none. rewrite (peek0_cons _ _ _ Hr), isdigit_char.
    by apply ident_start_not_digit. }
  assert (read_identifier_or_keyword lx = (None, lx)) as Hi.
  { apply read_identifier_none. by rewrite (ident_start_peek _ _ _ Hr). }
  destruct (Py.char_isdigit c) eqn:Hd.
  { right; left. split; [done|]. eapply operator_declines; eauto. }
  left. split; [done|]. apply read_number_none.
  by rewrite (peek0_cons _ _ _ Hr), isdigit_char.
Qed.

End Exclusive.

Section Repeat.

Lemma skip_idem lx :
  skip_ws_and_comments (skip_ws_and_comments lx) = skip_ws_and_comments lx.
Proof.
  rewrite (skip_ws_and_comments_trivia (skip_ws_and_comments lx)).
  by rewrite (trivia_prefix_maximal false (rest lx) _ (skip_rest lx)).
Qed.

Lemma next_token_skip lx : next_token (skip_ws_and_comments lx) = next_token lx.
Proof. rewrite !next_token_unfold. cbv zeta. by rewrite skip_idem. Qed.

(** A lexical error leaves the scanner on the character it rejects, past
    the blanks and comments before it, with the symbol table as it was:
    every further call raises the same error again, so a caller cannot
    step over the character by calling again. *)
Theorem lexer_error_repeats lx ch ln cl lx' :
  next_token lx = Raise (LexerError ch ln cl) lx' ->
  lx' = skip_ws_and_comments lx
  /\ ch = peek lx' 0 /\ ln = line lx' /\ cl = col lx'
  /\ String.length ch = 1
  /\ next_token lx' = Raise (LexerError ch ln cl) lx'.
Proof.
  intros H. pose proof (next_token_raise _ _ _ H) as Hr. cbv zeta in Hr.
  destruct Hr as (He & _ & [Hn|(_ & _ & [= -> -> ->] & ->)]).
  { apply read_number_raise in Hn as (lex & tl & [=] & _). }
  split; [done|]. split; [done|]. split; [done|]. split; [done|].
  split; [|by rewrite next_token_skip].
  rewrite at_end_rest in He.
  destruct (rest (skip_ws_and_comments lx)) as [|c r] eqn:Hrest; [done|].
  by rewrite (peek0_cons _ _ _ Hrest).
Qed.

Lemma lexer_error_repeats_witness :
  let lx := init "x  # y" in
  let lx' := Lexer.Make "x  # y" 3 1 4 (<["x" := 0]> ∅) 1 in
  exists lx1, next_token lx = Return (Token.Make "ID" "x" 1 1 None (Some 0)) lx1
    /\ next_token lx1 = Raise (LexerError "#" 1 4) lx'
    /\ next_token lx' = Raise (LexerError "#" 1 4) lx'.
Proof.
  cbv zeta. eexists. split; [by vm_compute|].
  assert (next_token (Lexer.Make "x  # y" 1 1 2 (<["x" := 0]> ∅) 1)
          = Raise (LexerError "#" 1 4) (Lexer.Make "x  # y" 3 1 4 (<["x" := 0]> ∅) 1))
    as H by (by vm_compute).
  split; [exact H|].
  by destruct (lexer_error_repeats _ _ _ _ _ H) as (_ & _ & _ & _ & _ & Hn).
Defined.

End Repeat.

Section Resume.

Lemma tokenize_loop_fuel fuel1 fuel2 lx acc :
  remaining lx < fuel1 -> remaining lx < fuel2 ->
  tokenize_loop fuel1 lx acc = tokenize_loop fuel2 lx acc.
Proof.
  revert fuel2 lx acc. induction fuel1 as [|fuel1 IH]; intros fuel2 lx acc H1 H2; [lia|].
  destruct fuel2 as [|fuel2]; [lia|]. rewrite !tokenize_loop_S.
  destruct (next_token lx) as [tok lx1|e lx1] eqn:Hn; [|done].
  destruct (is_eof tok) eqn:He; [done|].
  pose proof (next_token_progress _ _ _ Hn He). apply IH; lia.
Qed.

Lemma tokenize_loop_acc fuel lx acc :
  tokenize_loop fuel lx acc = prepend acc (tokenize_loop fuel lx []).
Proof.
  revert lx acc. induction fuel as [|fuel IH]; intros lx acc; [done|].
  rewrite !tokenize_loop_S.
  destruct (next_token lx) as [tok lx1|e lx1] eqn:Hn; [|done].
  destruct (is_eof tok) eqn:He; [done|].
  rewrite (IH lx1 (acc ++ [tok])), (IH lx1 ([] ++ [tok])).
  destruct (tokenize_loop fuel lx1 []) as [[toks lx2|e lx2]|]; cbn [prepend]; [|done..].
  by rewrite <- app_assoc.
Qed.

Lemma tokenize_step lx tok lx1 :
  next_token lx = Return tok lx1 -> is_eof tok = false ->
  tokenize lx = prepend [tok] (tokenize lx1).
Proof.
  intros Hn He. unfold tokenize. rewrite tokenize_loop_S, Hn, He.
  pose proof (next_token_progress _ _ _ Hn He).
  rewrite tokenize_loop_acc.
  by rewrite (tokenize_loop_fuel (remaining lx) (S (remaining lx1))) by lia.
Qed.

Lemma prepend_app a b r : prepend (a ++ b) r = prepend a (prepend b r).
Proof. destruct r as [[toks lx|e lx]|]; cbn [prepend]; [|done..]. by rewrite app_assoc. Qed.

Lemma tokenize_scans_prepend lx front mid :
  scans lx front mid -> Forall (fun tok => is_eof tok = false) front ->
  tokenize lx = prepend front (tokenize mid).
Proof.
  induction 1 as [lx|lx tok lx1 toks lx2 Hn _ IH]; intros Hall.
  { by destruct (tokenize lx) as [[toks lx'|e lx']|]. }
  apply Forall_cons in Hall as [He Hall].
  rewrite (tokenize_step _ _ _ Hn He), (IH Hall).
  by rewrite <- prepend_app.
Qed.

(** Tokens may be pulled one at a time with [next_token] and the rest
    left to [tokenize]: as long as no end marker has been pulled, the
    tokens pulled followed by the list [tokenize] then returns are the
    list [tokenize] would have returned from the start, with the same
    final state; and it raises then what it would have raised. *)
Theorem tokenize_after_next_token lx front mid :
  scans lx front mid -> Forall (fun tok => is_eof tok = false) front ->
  tokenize lx = prepend front (tokenize mid).
Proof. apply tokenize_scans_prepend. Qed.

Lemma tokenize_after_next_token_witness :
  let tok := Token.Make "ID" "a" 1 1 None (Some 0) in
  let mid := Lexer.Make "a = 1" 1 1 2 (<["a" := 0]> ∅) 1 in
  next_token (init "a = 1") = Return tok mid
  /\ tokenize (init "a = 1") = prepend [tok] (tokenize mid).
Proof.
  cbv zeta.
  assert (next_token (init "a = 1")
          = Return (Token.Make "ID" "a" 1 1 None (Some 0))
              (Lexer.Make "a = 1" 1 1 2 (<["a" := 0]> ∅) 1))
    as H by (by vm_compute).
  split; [exact H|].
  apply tokenize_after_next_token.
  - eapply scans_cons; [exact H|apply scans_nil].
  - by constructor.
Defined.

End Resume.

Section SymbolTable.

Lemma index_of_None k seen : index_of k seen = None <-> k ∉ seen.
Proof.
  induction seen as [|y seen IH]; simpl.
  - split; [intros _; apply not_elem_of_nil|done].
  - rewrite not_elem_of_cons. destruct (String.eqb_spec k y) as [->|Hne].
    + split; [done|]. by intros [? _].
    + destruct (index_of k seen) as [j|].
      * split; [done|]. intros [_ H]. by apply IH in H.
      * split; [|done]. intros _. split; [done|]. by apply IH.
Qed.

Lemma index_of_NoDup k seen i :
  NoDup seen -> seen !! i = Some k -> index_of k seen = Some i.
Proof.
  intros Hnd. revert i. induction Hnd as [|y seen Hy Hnd IH]; intros i; [done|].
  destruct i as [|j]; simpl.
  - intros [= ->]. by rewrite String.eqb_refl.
  - intros Hj. destruct (String.eqb_spec k y) as [->|Hne].
    + destruct Hy. by eapply list_elem_of_lookup_2.
    + by rewrite (IH _ Hj).
Qed.

Lemma note_NoDup lex seen : NoDup seen -> NoDup (note lex seen).
Proof.
  intros Hnd. unfold note. destruct (index_of lex seen) eqn:E; [done|].
  apply NoDup_app. split; [done|]. split; [|apply NoDup_singleton].
  intros k Hk ->%list_elem_of_singleton. by apply index_of_None in E.
Qed.

Lemma elem_of_note k lex seen : k ∈ note lex seen <-> k ∈ seen \/ k = lex.
Proof.
  unfold note. destruct (index_of lex seen) as [i|] eqn:E.
  - split; [by left|]. intros [H| ->]; [done|].
    apply index_of_lookup in E. by eapply list_elem_of_lookup_2.
  - by rewrite elem_of_app, list_elem_of_singleton.
Qed.

Lemma index_of_note k lex seen i :
  index_of k seen = Some i -> index_of k (note lex seen) = Some i.
Proof.
  intros H. destruct (note_extends lex seen) as [ext ->].
  by apply index_of_app_Some.
Qed.

(** A run of calls on the list of spellings met so far. *)
Lemma scans_seen seen lx toks lx1 :
  table_of seen lx -> NoDup seen -> scans lx toks lx1 ->
  exists seen1, table_of seen1 lx1 /\ NoDup seen1
    /\ (forall k, k ∈ seen1 <->
          k ∈ seen \/ exists tok, tok ∈ toks /\ is_id tok = true
                                  /\ Token.lexeme tok = k)
    /\ (forall k i, index_of k seen = Some i -> index_of k seen1 = Some i)
    /\ Forall (fun tok =>
         Token.lid tok
         = if is_id tok then index_of (Token.lexeme tok) seen1 else None) toks.
Proof.
  intros Ht Hnd Hs. revert seen Ht Hnd.
  induction Hs as [lx|lx tok lx1 toks lx2 Hn _ IH]; intros seen Ht Hnd.
  { exists seen. split; [done|]. split; [done|].
    split; [|split; [done|constructor]].
    intros k. split; [by left|].
    intros [H|(tok & H & _)]; [done|]. by apply elem_of_nil in H. }
  pose proof (next_token_table _ _ _ _ Ht Hn) as H.
  destruct (is_id tok) eqn:Eid.
  - destruct H as (Ht1 & Hid & [i Hi]).
    destruct (IH _ Ht1 (note_NoDup _ _ Hnd)) as (seen1 & Ht2 & Hnd2 & Hin & Hmono & Hall).
    exists seen1. split; [done|]. split; [done|]. split; [|split].
    + intros k. rewrite Hin, elem_of_note. split.
      * intros [[H| ->]|(t & Ht' & Hid' & Hk)]; [by left| |].
        -- right. exists tok. split; [apply list_elem_of_here|done].
        -- right. exists t. split; [by apply list_elem_of_further|done].
      * intros [H|(t & Ht' & Hid' & Hk)]; [by left; left|].
        apply elem_of_cons in Ht' as [->|Ht']; [left; right; done|].
        right. by exists t.
    + intros k j Hk. by apply Hmono, index_of_note.
    + constructor; [|done]. rewrite Eid. rewrite Hi in Hid |- *.
      symmetry. by apply Hmono.
  - destruct H as [Ht1 Hid].
    destruct (IH _ Ht1 Hnd) as (seen1 & Ht2 & Hnd2 & Hin & Hmono & Hall).
    exists seen1. split; [done|]. split; [done|]. split; [|split]; [|done|].
    + intros k. rewrite Hin. split.
      * intros [H|(t & Ht' & Hid' & Hk)]; [by left|].
        right. exists t. split; [by apply list_elem_of_further|done].
      * intros [H|(t & Ht' & Hid' & Hk)]; [by left|].
        apply elem_of_cons in Ht' as [->|Ht']; [congruence|].
        right. by exists t.
    + constructor; [|done]. by rewrite Eid.
Qed.

(** After any run of calls on a fresh scanner the symbol table pairs the
    spellings of the identifiers returned so far with the numbers from 0
    up to the id counter, one to one: every id in the table is below the
    counter, every number below the counter is the id of a spelling, no
    two spellings share an id, the spellings in the table are those of
    the ID tokens returned, and each token carries the id the table
    holds for its spelling at the end of the run (none if it is not an
    ID token): an id, once given, is never changed. *)
Theorem symbol_table_after_scan txt toks lx' :
  scans (init txt) toks lx' ->
  (forall k i, lettab lx' !! k = Some i -> i < _letseq lx')
  /\ (forall i, i < _letseq lx' -> exists k, lettab lx' !! k = Some i)
  /\ (forall k1 k2 i,
        lettab lx' !! k1 = Some i -> lettab lx' !! k2 = Some i -> k1 = k2)
  /\ (forall k, is_Some (lettab lx' !! k) <->
        exists tok, tok ∈ toks /\ Token.type tok = "ID" /\ Token.lexeme tok = k)
  /\ Forall (fun tok =>
       Token.lid tok
       = if is_id tok then lettab lx' !! Token.lexeme tok else None) toks.
Proof.
  intros Hs.
  destruct (scans_seen [] _ _ _ (table_of_init txt) (NoDup_nil_2) Hs)
    as (seen & [Hn Ht] & Hnd & Hin & _ & Hall).
  split; [|split; [|split; [|split]]].
  - intros k i. rewrite Ht, Hn. intros H%index_of_lookup.
    by eapply lookup_lt_Some.
  - intros i. rewrite Hn. intros [k Hk]%lookup_lt_is_Some_2.
    exists k. rewrite Ht. by apply index_of_NoDup.
  - intros k1 k2 i. rewrite !Ht. apply index_of_inj.
  - intros k. rewrite Ht.
    assert (is_Some (index_of k seen) <-> k ∈ seen) as ->.
    { destruct (index_of k seen) as [i|] eqn:E.
      - split; [|by eauto]. intros _. apply index_of_lookup in E.
        by eapply list_elem_of_lookup_2.
      - split; [by intros [? [=]]|]. intros H. by apply index_of_None in E. }
    rewrite Hin. split.
    + intros [H|(tok & H1 & H2 & H3)]; [by apply elem_of_nil in H|].
      exists tok. split; [done|]. split; [|done]. by apply String.eqb_eq.
    + intros (tok & H1 & H2 & H3). right. exists tok.
      split; [done|]. split; [|done]. by apply String.eqb_eq.
  - eapply Forall_impl; [exact Hall|]. intros tok. cbv beta. by rewrite Ht.
Qed.

Lemma symbol_table_after_scan_witness :
  let toks := [Token.Make "ID" "b" 1 1 None (Some 0);
               Token.Make "ID" "a" 1 3 None (Some 1);
               Token.Make "ID" "b" 1 5 None (Some 0)] in
  let lx' := Lexer.Make "b a b" 5 1 6 (<["a" := 1]> (<["b" := 0]> ∅)) 2 in
  scans (init "b a b") toks lx'
  /\ (forall k i, lettab lx' !! k = Some i -> i < 2)
  /\ forall k1 k2 i,
       lettab lx' !! k1 = Some i -> lettab lx' !! k2 = Some i -> k1 = k2.
Proof.
  cbv zeta.
  assert (scans (init "b a b")
            [Token.Make "ID" "b" 1 1 None (Some 0);
             Token.Make "ID" "a" 1 3 None (Some 1);
             Token.Make "ID" "b" 1 5 None (Some 0)]
            (Lexer.Make "b a b" 5 1 6 (<["a" := 1]> (<["b" := 0]> ∅)) 2)) as H.
  { eapply scans_cons; [by vm_compute|].
    eapply scans_cons; [by vm_compute|].
    eapply scans_cons; [by vm_compute|].
    apply scans_nil. }
  split; [exact H|].
  destruct (symbol_table_after_scan _ _ _ H) as (Hlt & _ & Hinj & _).
  split; [exact Hlt|exact Hinj].
Defined.

End SymbolTable.

Section RoundTrip.

Lemma trivia_prefix_blanks B s :
  Py.all_chars ws_char B = true ->
  trivia_prefix false (B +:+ s) = B +:+ trivia_prefix false s.
Proof.
  induction B as [|c B IH]; intros H; [by rewrite !string_app_nil_l|].
  simpl in H. apply andb_true_iff in H as [Hc HB].
  rewrite !string_app_cons. cbn [trivia_prefix andb]. by rewrite Hc, IH.
Qed.

Lemma plain_start c :
  ident_start c = true \/ Py.char_isdigit c = true ->
  ws_char c = false /\ Ascii.eqb c "/" = false.
Proof.
  destruct c as [[] [] [] [] [] [] [] []]; vm_compute; intros [H|H]; done.
Qed.

Lemma word_then_blank c s tl :
  ident_start c = true \/ Py.char_isdigit c = true ->
  trivia_prefix false (String c s +:+ tl) = EmptyString.
Proof.
  intros [Hw Hs]%plain_start. rewrite string_app_cons. cbn [trivia_prefix andb].
  by rewrite Hw, Hs.
Qed.

Lemma operator_then_blank lex ty tl :
  operator_kind lex ty ->
  trivia_prefix false (lex +:+ String " " tl) = EmptyString.
Proof.
  intros [H|[H|H]]; apply elem_of_list_to_map_2 in H;
    repeat (apply elem_of_cons in H as [H|H]; [by injection H as -> ->|]);
    by apply elem_of_nil in H.
Qed.

Lemma no_operator_then_blank a : OPERATORS_2 !! String a " " = None.
Proof.
  destruct (OPERATORS_2 !! _) as [ty|] eqn:H; [|done].
  apply elem_of_list_to_map_2 in H.
  repeat (apply elem_of_cons in H as [H|H]; [discriminate H|]).
  by apply elem_of_nil in H.
Qed.

Lemma intern_same lex a b :
  lettab a = lettab b -> _letseq a = _letseq b ->
  lettab (intern lex a) = lettab (intern lex b)
  /\ _letseq (intern lex a) = _letseq (intern lex b).
Proof.
  intros Ht Hs. unfold intern. rewrite Ht.
  destruct (lettab b !! lex); cbn [lettab _letseq]; by rewrite ?Ht, ?Hs.
Qed.

Lemma step_char_lettab c lx : lettab (step_char c lx) = lettab lx.
Proof. unfold step_char. by destruct (is_nl c). Qed.

Lemma step_char_letseq c lx : _letseq (step_char c lx) = _letseq lx.
Proof. unfold step_char. by destruct (is_nl c). Qed.

(** A recogniser that has read [tok] somewhere reads the same token, up
    to its line and column, from a text that starts with the lexeme of
    [tok] and a blank, given the same symbol table. *)
Lemma relex_identifier lx tok lx1 lxb more :
  read_identifier_or_keyword lx = (Some tok, lx1) ->
  lettab lxb = lettab lx -> _letseq lxb = _letseq lx ->
  rest lxb = Token.lexeme tok +:+ String " " more ->
  exists tok2 lxb1,
    read_identifier_or_keyword lxb = (Some tok2, lxb1) /\ same_token tok tok2
    /\ lettab lxb1 = lettab lx1 /\ _letseq lxb1 = _letseq lx1
    /\ rest lxb1 = String " " more.
Proof.
  intros H Ht Hs Hrb.
  destruct (rest lx) as [|c r] eqn:Hr.
  { rewrite read_identifier_none in H; [done|]. by rewrite (peek0_nil _ Hr). }
  destruct (ident_start c) eqn:Hc.
  2:{ rewrite read_identifier_none in H; [done|].
      by rewrite (ident_start_peek _ _ _ Hr). }
  rewrite (read_identifier_some _ _ _ Hr Hc) in H. cbv zeta in H.
  set (run := (span ident_char r).1) in *.
  assert (Token.lexeme tok = String c run) as Hlex.
  { destruct (bool_decide _); by injection H as <- _. }
  rewrite Hlex, string_app_cons in Hrb.
  pose proof (read_identifier_some _ _ _ Hrb Hc) as Hb. cbv zeta in Hb.
  rewrite (span_maximal ident_char run (String " " more)) in Hb;
    [|apply span_all|done].
  cbn [fst] in Hb.
  assert (rest (consume (String c run) lxb) = String " " more) as Hrest.
  { apply rest_consume_prefix. by rewrite string_app_cons. }
  destruct (bool_decide (String c run ∈ KEYWORDS)).
  - injection H as <- <-. eexists _, _. split; [exact Hb|].
    change (consume run (step_char c lx)) with (consume (String c run) lx).
    split; [by repeat split|]. by rewrite ?consume_lettab, ?consume_letseq, ?step_char_lettab, ?step_char_letseq.
  - injection H as <- <-. eexists _, _. split; [exact Hb|].
    change (consume run (step_char c lx)) with (consume (String c run) lx).
    destruct (intern_same (String c run) (consume (String c run) lxb)
                (consume (String c run) lx)) as [E1 E2].
    { by rewrite !consume_lettab. }
    { by rewrite !consume_letseq. }
    split; [|by rewrite rest_intern].
    unfold same_token. tok_simpl. rewrite E1. by repeat split.
Qed.

Lemma relex_number lx tok lx1 lxb more :
  read_number lx = Return (Some tok) lx1 ->
  lettab lxb = lettab lx -> _letseq lxb = _letseq lx ->
  rest lxb = Token.lexeme tok +:+ String " " more ->
  exists tok2 lxb1,
    read_identifier_or_keyword lxb = (None, lxb)
    /\ read_number lxb = Return (Some tok2) lxb1 /\ same_token tok tok2
    /\ lettab lxb1 = lettab lx1 /\ _letseq lxb1 = _letseq lx1
    /\ rest lxb1 = String " " more.
Proof.
  intros H Ht Hs Hrb.
  destruct (rest lx) as [|c r] eqn:Hr.
  { rewrite read_number_none in H; [done|]. by rewrite (peek0_nil _ Hr). }
  destruct (Py.char_isdigit c) eqn:Hc.
  2:{ rewrite read_number_none in H; [done|].
      by rewrite (peek0_cons _ _ _ Hr), isdigit_char. }
  rewrite (read_number_some _ _ _ Hr Hc) in H. cbv zeta in H.
  set (run := (span Py.char_isdigit r).1) in *.
  destruct (Py.int (String c run)) as [v|] eqn:Ev; [|done].
  injection H as <- <-. cbn [Token.lexeme] in Hrb. rewrite string_app_cons in Hrb.
  pose proof (read_number_some _ _ _ Hrb Hc) as Hb. cbv zeta in Hb.
  rewrite (span_maximal Py.char_isdigit run (String " " more)) in Hb;
    [|apply span_all|done].
  cbn [fst] in Hb. rewrite Ev in Hb.
  eexists _, _. split; [|split; [exact Hb|]].
  { apply read_identifier_none. rewrite (ident_start_peek _ _ _ Hrb).
    destruct (ident_start c) eqn:Hi; [|done].
    apply ident_start_not_digit in Hi. congruence. }
  split; [by repeat split|]. rewrite ?consume_lettab, ?consume_letseq, ?step_char_lettab, ?step_char_letseq.
  split; [done|]. split; [done|].
  apply rest_consume_prefix. by rewrite string_app_cons.
Qed.

Lemma relex_operator lx tok lx1 lxb more :
  read_operator_or_punct lx = (Some tok, lx1) ->
  lettab lxb = lettab lx -> _letseq lxb = _letseq lx ->
  rest lxb = Token.lexeme tok +:+ String " " more ->
  exists tok2 lxb1,
    read_identifier_or_keyword lxb = (None, lxb)
    /\ read_number lxb = Return None lxb
    /\ read_operator_or_punct lxb = (Some tok2, lxb1) /\ same_token tok tok2
    /\ lettab lxb1 = lettab lx1 /\ _letseq lxb1 = _letseq lx1
    /\ rest lxb1 = String " " more.
Proof.
  intros H Ht Hs Hrb.
  assert (read_identifier_or_keyword lxb = (None, lxb)
          /\ read_number lxb = Return None lxb) as [Hi Hn].
  { destruct (read_operator_shape _ _ _ H) as (Hk & _ & _).
    destruct (operator_kind_entry _ _ Hk) as (a & r0 & Ha & Hst & Hdg & _).
    rewrite Ha, string_app_cons in Hrb. split.
    - apply read_identifier_none. by rewrite (ident_start_peek _ _ _ Hrb).
    - apply read_number_none. by rewrite (peek0_cons _ _ _ Hrb), isdigit_char. }
  destruct (OPERATORS_2 !! (peek lx 0 +:+ peek lx 1)) as [ty|] eqn:H2.
  { rewrite (read_operator_two _ _ H2) in H. injection H as <- <-.
    cbn [Token.lexeme Token4] in Hrb.
    pose proof (OPERATORS_2_entry _ _ H2) as (x & y & Exy & _).
    rewrite Exy in H2, Hrb |- *.
    rewrite !string_app_cons, string_app_nil_l in Hrb.
    assert (peek lxb 0 +:+ peek lxb 1 = String x (String y EmptyString)) as Ep.
    { by rewrite (peek0_cons _ _ _ Hrb), (peek1_cons _ _ _ Hrb). }
    assert (OPERATORS_2 !! (peek lxb 0 +:+ peek lxb 1) = Some ty) as H2b
      by (by rewrite Ep).
    eexists _, _. split; [done|]. split; [done|].
    split; [exact (read_operator_two _ _ H2b)|]. rewrite Ep.
    split; [by repeat split|]. rewrite ?consume_lettab, ?consume_letseq, ?step_char_lettab, ?step_char_letseq.
    split; [done|]. split; [done|].
    apply rest_consume_prefix. by rewrite !string_app_cons, string_app_nil_l. }
  destruct (OPERATORS_1 !! peek lx 0) as [ty|] eqn:H1.
  { rewrite (read_operator_one _ _ H2 H1) in H. injection H as <- <-.
    cbn [Token.lexeme Token4] in Hrb.
    pose proof (OPERATORS_1_entry _ _ H1) as (x & Ex & _).
    rewrite Ex in H1, Hrb |- *.
    rewrite string_app_cons, string_app_nil_l in Hrb.
    assert (peek lxb 0 = String x EmptyString) as E0
      by (by rewrite (peek0_cons _ _ _ Hrb)).
    assert (OPERATORS_2 !! (peek lxb 0 +:+ peek lxb 1) = None) as H2b.
    { rewrite E0, (peek1_cons _ _ _ Hrb). cbn [shead].
      rewrite string_app_cons, string_app_nil_l. apply no_operator_then_blank. }
    assert (OPERATORS_1 !! peek lxb 0 = Some ty) as H1b by (by rewrite E0).
    eexists _, _. split; [done|]. split; [done|].
    split; [exact (read_operator_one _ _ H2b H1b)|]. rewrite E0.
    split; [by repeat split|]. rewrite ?consume_lettab, ?consume_letseq, ?step_char_lettab, ?step_char_letseq.
    split; [done|]. split; [done|].
    apply rest_consume_prefix. by rewrite !string_app_cons, string_app_nil_l. }
  destruct (PUNCT !! peek lx 0) as [ty|] eqn:H0.
  { rewrite (read_operator_punct _ _ H2 H1 H0) in H. injection H as <- <-.
    cbn [Token.lexeme Token4] in Hrb.
    pose proof (PUNCT_entry _ _ H0) as (x & Ex & _).
    rewrite Ex in H1, H0, Hrb |- *.
    rewrite string_app_cons, string_app_nil_l in Hrb.
    assert (peek lxb 0 = String x EmptyString) as E0
      by (by rewrite (peek0_cons _ _ _ Hrb)).
    assert (OPERATORS_2 !! (peek lxb 0 +:+ peek lxb 1) = None) as H2b.
    { rewrite E0, (peek1_cons _ _ _ Hrb). cbn [shead].
      rewrite string_app_cons, string_app_nil_l. apply no_operator_then_blank. }
    assert (OPERATORS_1 !! peek lxb 0 = None) as H1b by (by rewrite E0).
    assert (PUNCT !! peek lxb 0 = Some ty) as H0b by (by rewrite E0).
    eexists _, _. split; [done|]. split; [done|].
    split; [exact (read_operator_punct _ _ H2b H1b H0b)|]. rewrite E0.
    split; [by repeat split|]. rewrite ?consume_lettab, ?consume_letseq, ?step_char_lettab, ?step_char_letseq.
    split; [done|]. split; [done|].
    apply rest_consume_prefix. by rewrite !string_app_cons, string_app_nil_l. }
  by rewrite (read_operator_none _ H2 H1 H0) in H.
Qed.

Lemma relex_step lx tok lx1 lxb B more :
  next_token lx = Return tok lx1 -> is_eof tok = false ->
  lettab lxb = lettab lx -> _letseq lxb = _letseq lx ->
  Py.all_chars ws_char B = true ->
  rest lxb = B +:+ Token.lexeme tok +:+ String " " more ->
  exists tok2 lxb1,
    next_token lxb = Return tok2 lxb1 /\ same_token tok tok2
    /\ lettab lxb1 = lettab lx1 /\ _letseq lxb1 = _letseq lx1
    /\ rest lxb1 = String " " more.
Proof.
  intros H He Ht Hs HB Hrb.
  rewrite next_token_unfold in H. cbv zeta in H.
  set (lx0 := skip_ws_and_comments lx) in *.
  assert (lettab lx0 = lettab lx /\ _letseq lx0 = _letseq lx) as [Ht0 Hs0].
  { unfold lx0. rewrite skip_ws_and_comments_trivia.
    by rewrite consume_lettab, consume_letseq. }
  destruct (at_end lx0); [by injection H as <- _|].
  set (lxb0 := consume B lxb).
  assert (rest lxb0 = Token.lexeme tok +:+ String " " more) as Hrb0
    by (by apply rest_consume_prefix).
  assert (lettab lxb0 = lettab lx0 /\ _letseq lxb0 = _letseq lx0) as [Htb Hsb].
  { unfold lxb0. rewrite consume_lettab, consume_letseq. by rewrite Ht0, Hs0. }
  assert (trivia_prefix false (Token.lexeme tok +:+ String " " more) = EmptyString ->
          skip_ws_and_comments lxb = lxb0) as Hskip.
  { intros Hp. rewrite skip_ws_and_comments_trivia, Hrb.
    rewrite trivia_prefix_blanks by done. by rewrite Hp, string_app_nil_r. }
  assert (at_end lxb0 = false) as Heb.
  { rewrite at_end_rest, Hrb0. by destruct (Token.lexeme tok). }
  rewrite next_token_unfold. cbv zeta.
  destruct (read_identifier_or_keyword lx0) as [[t1|] lx1'] eqn:E1.
  { injection H as -> ->.
    destruct (relex_identifier _ _ _ lxb0 more E1 Htb Hsb Hrb0)
      as (tok2 & lxb1 & Hb & Hrest).
    exists tok2, lxb1. split; [|done]. rewrite Hskip, Heb, Hb; [done|].
    destruct (read_identifier_shape _ _ _ E1) as (c & r & _ & Hc & _ & Hk).
    cbv zeta in Hk.
    destruct Hk as [[_ ->]|[_ [i ->]]]; tok_simpl; apply word_then_blank; by left. }
  apply read_identifier_unchanged in E1 as ->.
  destruct (read_number lx0) as [[t2|] lx2|e lx2] eqn:E2; [| |done].
  { injection H as -> ->.
    destruct (relex_number _ _ _ lxb0 more E2 Htb Hsb Hrb0)
      as (tok2 & lxb1 & Hi & Hb & Hrest).
    exists tok2, lxb1. split; [|done]. rewrite Hskip, Heb, Hi, Hb; [done|].
    destruct (read_number_shape _ _ _ E2) as (c & r & _ & Hc & _ & _ & ->).
    tok_simpl. apply word_then_blank. by right. }
  apply read_number_unchanged in E2 as ->.
  destruct (read_operator_or_punct lx0) as [[t3|] lx3] eqn:E3; [|done].
  injection H as -> ->.
  destruct (relex_operator _ _ _ lxb0 more E3 Htb Hsb Hrb0)
    as (tok2 & lxb1 & Hi & Hn & Hb & Hrest).
  exists tok2, lxb1. split; [|done]. rewrite Hskip, Heb, Hi, Hn, Hb; [done|].
  destruct (read_operator_shape _ _ _ E3) as (Hk & _).
  by eapply operator_then_blank.
Qed.

Lemma relex_scans lx front mid :
  scans lx front mid -> Forall (fun tok => is_eof tok = false) front ->
  forall lxb B more,
  lettab lxb = lettab lx -> _letseq lxb = _letseq lx ->
  Py.all_chars ws_char B = true ->
  rest lxb = B +:+ unparse front +:+ more ->
  exists front2 midb B',
    scans lxb front2 midb /\ Forall2 same_token front front2
    /\ lettab midb = lettab mid /\ _letseq midb = _letseq mid
    /\ Py.all_chars ws_char B' = true /\ rest midb = B' +:+ more.
Proof.
  induction 1 as [lx|lx tok lx1 toks lx2 Hn _ IH]; intros Hall lxb B more Ht Hs HB Hr.
  { exists [], lxb, B. repeat split; try done; constructor. }
  apply Forall_cons in Hall as [He Hall].
  cbn [unparse] in Hr. rewrite !string_app_assoc in Hr.
  rewrite <- !(string_app_assoc B) in Hr.
  assert (rest lxb = B +:+ Token.lexeme tok +:+ String " " (unparse toks +:+ more))
    as Hr'.
  { rewrite Hr. by rewrite !string_app_assoc. }
  destruct (relex_step _ _ _ _ _ _ Hn He Ht Hs HB Hr')
    as (tok2 & lxb1 & Hnb & Hsame & Ht1 & Hs1 & Hr1).
  destruct (IH Hall lxb1 " " more Ht1 Hs1 eq_refl) as
    (front2 & midb & B' & Hsc & Hf2 & Ht2 & Hs2 & HB' & Hr2).
  { by rewrite Hr1. }
  exists (tok2 :: front2), midb, B'. split; [by econstructor|].
  split; [by constructor|]. done.
Qed.

Lemma unparse_app a b : unparse (a ++ b) = unparse a +:+ unparse b.
Proof.
  induction a as [|tok a IH]; cbn [unparse app]; [by rewrite string_app_nil_l|].
  by rewrite IH, !string_app_assoc.
Qed.

Lemma tokenize_at_end_marker lx tok lx' :
  next_token lx = Return tok lx' -> is_eof tok = true ->
  tokenize lx = Some (Return [tok] lx').
Proof. intros Hn He. unfold tokenize. by rewrite tokenize_loop_S, Hn, He. Qed.

(** Writing the lexemes of the tokens [tokenize] returns back to a text,
    a blank after each, and tokenizing that text gives the same tokens
    again: the same kinds, lexemes, values and ids, in the same order,
    and the same symbol table.  Only lines and columns differ. *)
Theorem unparse_round_trip txt toks lx' :
  tokenize (init txt) = Some (Return toks lx') ->
  exists toks2 lx2,
    tokenize (init (unparse toks)) = Some (Return toks2 lx2)
    /\ Forall2 same_token toks toks2
    /\ lettab lx2 = lettab lx' /\ _letseq lx2 = _letseq lx'.
Proof.
  intros H. destruct (tokenize_return _ _ _ H) as (Hs & He & front & -> & Hall).
  destruct (scans_split _ _ _ _ Hs) as (mid & Ha & Hb).
  inversion Hb as [|? ? lx1 ? ? Hn Hnil]; subst. inversion Hnil; subst.
  assert (lettab lx' = lettab mid /\ _letseq lx' = _letseq mid) as [Ht Hq].
  { apply next_token_return in Hn. cbv zeta in Hn.
    destruct Hn as [(_ & _ & ->)|(_ & _ & _ & _ & Hty & _)]; [|done].
    rewrite skip_ws_and_comments_trivia. by rewrite consume_lettab, consume_letseq. }
  rewrite unparse_app. cbn [unparse EOF_at Token4 Token.lexeme].
  rewrite string_app_nil_l, string_app_nil_r.
  destruct (relex_scans _ _ _ Ha Hall (init (unparse front +:+ " ")) EmptyString " ")
    as (front2 & midb & B' & Hsc & Hf2 & Ht2 & Hs2 & HB' & Hr2); [done..|].
  set (lxe := skip_ws_and_comments midb).
  assert (at_end lxe = true) as Hend.
  { unfold lxe. rewrite at_end_rest, skip_ws_and_comments_trivia.
    rewrite (rest_consume_prefix _ EmptyString); [done|].
    rewrite string_app_nil_r, Hr2, trivia_prefix_blanks by done.
    done. }
  assert (next_token midb = Return (EOF_at lxe) lxe) as Hne.
  { rewrite next_token_unfold. cbv zeta. fold lxe. by rewrite Hend. }
  exists (front2 ++ [EOF_at lxe]), lxe. split; [|split; [|split]].
  - rewrite (tokenize_scans_prepend _ _ _ Hsc).
    + by rewrite (tokenize_at_end_marker _ _ _ Hne).
    + clear -Hall Hf2. induction Hf2 as [|a b l1 l2 [Hty _] _ IH]; [constructor|].
      apply Forall_cons in Hall as [Ha Hall]. constructor; [|by apply IH].
      unfold is_eof in *. by rewrite <- Hty.
  - apply Forall2_app; [done|]. constructor; [by repeat split|constructor].
  - unfold lxe. rewrite skip_ws_and_comments_trivia, consume_lettab. congruence.
  - unfold lxe. rewrite skip_ws_and_comments_trivia, consume_letseq. congruence.
Qed.

Lemma unparse_round_trip_witness :
  let txt := "if(x1<=42){y=x1;} // done" in
  let toks := [Token4 "KW_IF" "if" 1 1; Token4 "IPAREN" "(" 1 3;
               Token.Make "ID" "x1" 1 4 None (Some 0); Token4 "MEOI" "<=" 1 6;
               Token.Make "NUM" "42" 1 8 (Some 42%Z) None; Token4 "DPAREN" ")" 1 10;
               Token4 "ILLAVE" "{" 1 11; Token.Make "ID" "y" 1 12 None (Some 1);
               Token4 "ES" "=" 1 13; Token.Make "ID" "x1" 1 14 None (Some 0);
               Token4 "PYC" ";" 1 16; Token4 "DLLAVE" "}" 1 17;
               Token4 "EOF" EmptyString 1 26] in
  tokenize (init txt)
  = Some (Return toks (Lexer.Make txt 25 1 26 (<["y" := 1]> (<["x1" := 0]> ∅)) 2))
  /\ unparse toks = "if ( x1 <= 42 ) { y = x1 ; }  "
  /\ exists toks2 lx2,
       tokenize (init (unparse toks)) = Some (Return toks2 lx2)
       /\ Forall2 same_token toks toks2.
Proof.
  cbv zeta.
  assert (tokenize (init "if(x1<=42){y=x1;} // done")
          = Some (Return
                    [Token4 "KW_IF" "if" 1 1; Token4 "IPAREN" "(" 1 3;
                     Token.Make "ID" "x1" 1 4 None (Some 0); Token4 "MEOI" "<=" 1 6;
                     Token.Make "NUM" "42" 1 8 (Some 42%Z) None;
                     Token4 "DPAREN" ")" 1 10;
                     Token4 "ILLAVE" "{" 1 11; Token.Make "ID" "y" 1 12 None (Some 1);
                     Token4 "ES" "=" 1 13; Token.Make "ID" "x1" 1 14 None (Some 0);
                     Token4 "PYC" ";" 1 16; Token4 "DLLAVE" "}" 1 17;
                     Token4 "EOF" EmptyString 1 26]
                    (Lexer.Make "if(x1<=42){y=x1;} // done" 25 1 26
                       (<["y" := 1]> (<["x1" := 0]> ∅)) 2)))
    as H by (by vm_compute).
  split; [exact H|]. split; [by vm_compute|].
  destruct (unparse_round_trip _ _ _ H) as (toks2 & lx2 & H2 & Hsame & _).
  exists toks2, lx2. split; [exact H2|exact Hsame].
Defined.

End RoundTrip.


Section LooksAhead.

Lemma same_view_consume s tl a b :
  same_view a b -> rest a = s +:+ tl -> same_view (consume s a) (consume s b).
Proof.
  intros (Hr & Hl & Hc & Ht & Hs) Ha. unfold same_view.
  rewrite (rest_consume_prefix _ _ _ Ha).
  rewrite Hr in Ha. rewrite (rest_consume_prefix _ _ _ Ha).
  rewrite !consume_line, !consume_col, !consume_lettab, !consume_letseq.
  by rewrite Hl, Hc, Ht, Hs.
Qed.

Lemma same_view_intern lex a b :
  same_view a b ->
  same_view (intern lex a) (intern lex b)
  /\ lettab (intern lex a) !! lex = lettab (intern lex b) !! lex.
Proof.
  intros (Hr & Hl & Hc & Ht & Hs). unfold intern. rewrite Ht.
  destruct (lettab b !! lex) eqn:E.
  - split; [by repeat split|congruence].
  - split.
    + unfold same_view, rest in *. cbn. by rewrite Hl, Hc, Hs.
    + cbn [lettab]. by rewrite !lookup_insert_eq, Hs.
Qed.

Lemma same_view_peek a b k : same_view a b -> peek a k = peek b k.
Proof. intros [Hr _]. by rewrite !peek_rest, Hr. Qed.

Lemma same_view_identifier a b :
  same_view a b ->
  (read_identifier_or_keyword a).1 = (read_identifier_or_keyword b).1
  /\ same_view (read_identifier_or_keyword a).2 (read_identifier_or_keyword b).2.
Proof.
  intros Hv. pose proof Hv as (Hr & Hl & Hc & Ht & Hs).
  destruct (rest a) as [|c r] eqn:Ha; symmetry in Hr.
  { rewrite (read_identifier_none a) by (by rewrite (peek0_nil _ Ha)).
    by rewrite (read_identifier_none b) by (by rewrite (peek0_nil _ Hr)). }
  destruct (ident_start c) eqn:Hi.
  2:{ rewrite (read_identifier_none a) by (by rewrite (ident_start_peek _ _ _ Ha)).
      by rewrite (read_identifier_none b) by (by rewrite (ident_start_peek _ _ _ Hr)). }
  rewrite (read_identifier_some _ _ _ Ha Hi), (read_identifier_some _ _ _ Hr Hi).
  cbv zeta. set (lex := String c (span ident_char r).1).
  assert (same_view (consume lex a) (consume lex b)) as Hcons.
  { apply (same_view_consume _ (span ident_char r).2); [done|].
    unfold lex. by rewrite Ha, string_app_cons, span_app. }
  destruct (bool_decide _); cbn [fst snd].
  - by rewrite Hl, Hc.
  - destruct (same_view_intern lex _ _ Hcons) as [Hv2 Hlid].
    by rewrite Hl, Hc, Hlid.
Qed.

Lemma same_view_number a b :
  same_view a b -> same_outcome (read_number a) (read_number b).
Proof.
  intros Hv. pose proof Hv as (Hr & Hl & Hc & Ht & Hs).
  destruct (rest a) as [|c r] eqn:Ha; symmetry in Hr.
  { rewrite (read_number_none a) by (by rewrite (peek0_nil _ Ha)).
    by rewrite (read_number_none b) by (by rewrite (peek0_nil _ Hr)). }
  destruct (Py.char_isdigit c) eqn:Hd.
  2:{ rewrite (read_number_none a)
        by (by rewrite (peek0_cons _ _ _ Ha), isdigit_char).
      by rewrite (read_number_none b)
        by (by rewrite (peek0_cons _ _ _ Hr), isdigit_char). }
  rewrite (read_number_some _ _ _ Ha Hd), (read_number_some _ _ _ Hr Hd).
  cbv zeta. set (lex := String c (span Py.char_isdigit r).1).
  assert (same_view (consume lex a) (consume lex b)) as Hcons.
  { apply (same_view_consume _ (span Py.char_isdigit r).2); [done|].
    unfold lex. by rewrite Ha, string_app_cons, span_app. }
  destruct (Py.int lex); cbn [same_outcome]; [|done].
  by rewrite Hl, Hc.
Qed.

Lemma same_view_operator a b :
  same_view a b ->
  (read_operator_or_punct a).1 = (read_operator_or_punct b).1
  /\ same_view (read_operator_or_punct a).2 (read_operator_or_punct b).2.
Proof.
  intros Hv. pose proof Hv as (Hr & Hl & Hc & Ht & Hs).
  pose proof (same_view_peek _ _ 0 Hv) as P0.
  pose proof (same_view_peek _ _ 1 Hv) as P1.
  assert (forall tok a', read_operator_or_punct a = (Some tok, a') ->
            read_operator_or_punct b
            = (Some (Token4 (Token.type tok) (Token.lexeme tok) (line b) (col b)),
               consume (Token.lexeme tok) b) ->
            a' = consume (Token.lexeme tok) a ->
            tok = Token4 (Token.type tok) (Token.lexeme tok) (line a) (col a) ->
            (read_operator_or_punct a).1 = (read_operator_or_punct b).1
            /\ same_view (read_operator_or_punct a).2 (read_operator_or_punct b).2)
    as Hboth.
  { intros tok a' Ea Eb -> Htok.
    pose proof (read_operator_produces _ _ _ Ea) as (_ & _ & _ & _ & Hrest & _).
    rewrite Ea, Eb. cbn [fst snd]. split.
    - rewrite Htok at 1. by rewrite Hl, Hc.
    - by eapply same_view_consume. }
  destruct (OPERATORS_2 !! (peek a 0 +:+ peek a 1)) as [ty|] eqn:E2.
  { pose proof E2 as E2b. rewrite P0, P1 in E2b.
    eapply Hboth; [exact (read_operator_two _ _ E2)| |done..].
    rewrite (read_operator_two _ _ E2b). tok_simpl. by rewrite P0, P1. }
  pose proof E2 as E2b. rewrite P0, P1 in E2b.
  destruct (OPERATORS_1 !! peek a 0) as [ty|] eqn:E1.
  { pose proof E1 as E1b. rewrite P0 in E1b.
    eapply Hboth; [exact (read_operator_one _ _ E2 E1)| |done..].
    rewrite (read_operator_one _ _ E2b E1b). tok_simpl. by rewrite P0. }
  pose proof E1 as E1b. rewrite P0 in E1b.
  destruct (PUNCT !! peek a 0) as [ty|] eqn:E0.
  { pose proof E0 as E0b. rewrite P0 in E0b.
    eapply Hboth; [exact (read_operator_punct _ _ E2 E1 E0)| |done..].
    rewrite (read_operator_punct _ _ E2b E1b E0b). tok_simpl. by rewrite P0. }
  pose proof E0 as E0b. rewrite P0 in E0b.
  by rewrite (read_operator_none _ E2 E1 E0), (read_operator_none _ E2b E1b E0b).
Qed.

Lemma same_view_skip a b :
  same_view a b -> same_view (skip_ws_and_comments a) (skip_ws_and_comments b).
Proof.
  intros Hv. rewrite !skip_ws_and_comments_trivia.
  destruct Hv as [Hr Hv]. rewrite <- Hr.
  eapply same_view_consume; [done|apply skip_rest].
Qed.

Lemma same_view_next_token a b :
  same_view a b -> same_outcome (next_token a) (next_token b).
Proof.
  intros Hv%same_view_skip. rewrite !next_token_unfold. cbv zeta.
  set (a0 := skip_ws_and_comments a) in *. set (b0 := skip_ws_and_comments b) in *.
  pose proof Hv as (Hr & Hl & Hc & _).
  rewrite !at_end_rest, Hr. destruct (Py.nonempty (rest b0)); cbn [negb].
  2:{ unfold EOF_at. by rewrite Hl, Hc. }
  destruct (same_view_identifier _ _ Hv) as [Ho Hv1].
  destruct (read_identifier_or_keyword a0) as [o1 a1],
           (read_identifier_or_keyword b0) as [o2 b1].
  cbn [fst snd] in Ho, Hv1. subst o2. destruct o1 as [tok|]; [done|].
  pose proof (same_view_number _ _ Hv1) as Hn.
  destruct (read_number a1) as [o1 a2|e a2], (read_number b1) as [o2 b2|e' b2];
    cbn [same_outcome] in Hn; try contradiction; [|exact Hn].
  destruct Hn as [<- Hv2]. destruct o1 as [tok|]; [exact (conj eq_refl Hv2)|].
  destruct (same_view_operator _ _ Hv2) as [Ho Hv3].
  destruct (read_operator_or_punct a2) as [o1 a3],
           (read_operator_or_punct b2) as [o2 b3].
  cbn [fst snd] in Ho, Hv3. subst o2.
  destruct o1 as [tok|]; [exact (conj eq_refl Hv3)|].
  pose proof Hv3 as (_ & Hl3 & Hc3 & _).
  rewrite (same_view_peek _ _ 0 Hv3), Hl3, Hc3. exact (conj eq_refl Hv3).
Qed.

Lemma same_view_tokenize_loop fuel a b acc :
  same_view a b -> remaining a < fuel ->
  match tokenize_loop fuel a acc, tokenize_loop fuel b acc with
  | Some r1, Some r2 => same_outcome r1 r2
  | _, _ => False
  end.
Proof.
  revert a b acc. induction fuel as [|fuel IH]; intros a b acc Hv Hf; [lia|].
  rewrite !tokenize_loop_S.
  pose proof (same_view_next_token _ _ Hv) as Hn.
  destruct (next_token a) as [tok a1|e a1] eqn:Ea,
           (next_token b) as [tok' b1|e' b1]; cbn [same_outcome] in Hn; try done.
  destruct Hn as [<- Hv1]. destruct (is_eof tok) eqn:He; [done|].
  apply IH; [done|]. pose proof (next_token_progress _ _ _ Ea He). lia.
Qed.

(** The scanner never looks back: what [next_token] and [tokenize] do
    depends on the text ahead of the cursor, the line, the column, the
    symbol table and the id counter, and on nothing else.  Two scanners
    that agree on these return the same tokens, with the same lines and
    columns, or raise the same exception, and agree on them again
    afterwards.  So a scan can be carried on by a scanner that is handed
    only the text not yet read. *)
Theorem scanner_looks_ahead_only a b :
  same_view a b ->
  same_outcome (next_token a) (next_token b)
  /\ match tokenize a, tokenize b with
     | Some r1, Some r2 => same_outcome r1 r2
     | _, _ => False
     end.
Proof.
  intros Hv. split; [by apply same_view_next_token|].
  unfold tokenize. destruct Hv as [Hr Hv].
  assert (remaining b = remaining a) as -> by (by rewrite !remaining_rest, Hr).
  apply same_view_tokenize_loop; [done|lia].
Qed.

Lemma scanner_looks_ahead_only_witness :
  let a := Lexer.Make "x = y;" 4 1 5 (<["x" := 0]> ∅) 1 in
  let b := Lexer.Make "y;" 0 1 5 (<["x" := 0]> ∅) 1 in
  same_view a b
  /\ next_token a = Return (Token.Make "ID" "y" 1 5 None (Some 1))
                      (Lexer.Make "x = y;" 5 1 6 (<["y" := 1]> (<["x" := 0]> ∅)) 2)
  /\ same_outcome (next_token a) (next_token b).
Proof.
  cbv zeta.
  assert (same_view (Lexer.Make "x = y;" 4 1 5 (<["x" := 0]> ∅) 1)
            (Lexer.Make "y;" 0 1 5 (<["x" := 0]> ∅) 1)) as Hv
    by (by repeat split).
  split; [exact Hv|]. split; [by vm_compute|].
  destruct (scanner_looks_ahead_only _ _ Hv) as [Hn _]. exact Hn.
Defined.

End LooksAhead.

Section PlainText.






End PlainText.

(** * The command line driver *)

Section Driver.

Lemma repr_char_plain c :
  plainly_printed c = true ->
  Cli.repr_char Cli.apostrophe c = String c EmptyString
  /\ Ascii.eqb Cli.apostrophe c = false.
Proof. destruct c as [[] [] [] [] [] [] [] []]; by vm_compute. Qed.

Lemma repr_plain s :
  Py.all_chars plainly_printed s = true ->
  Cli.repr s = String Cli.apostrophe (s +:+ String Cli.apostrophe EmptyString).
Proof.
  intros H. unfold Cli.repr. cbv zeta.
  assert (Cli.contains Cli.apostrophe s = false
          /\ Cli.repr_body Cli.apostrophe s = s) as [H1 H2];
    [|rewrite H1; cbn [andb]; by rewrite H2].
  induction s as [|c s IH]; [done|]. simpl in H.
  apply andb_true_iff in H as [[Hc He]%repr_char_plain Hs].
  destruct (IH Hs) as [IH1 IH2]. cbn [Cli.contains Cli.repr_body].
  by rewrite He, IH1, IH2, Hc, string_app_cons, string_app_nil_l.
Qed.

Lemma ident_char_plainly c : ident_char c = true -> plainly_printed c = true.
Proof. destruct c as [[] [] [] [] [] [] [] []]; by vm_compute. Qed.

Lemma decimal_plainly c : Py.char_isdecimal c = true -> plainly_printed c = true.
Proof. destruct c as [[] [] [] [] [] [] [] []]; by vm_compute. Qed.

(** In the line the driver prints for a token the scanner has returned,
    the lexeme stands as it is in the text, between apostrophes: no
    lexeme holds a character that [repr] escapes or that makes it change
    quotes. *)
Theorem printed_lexeme_is_verbatim lx tok lx' :
  next_token lx = Return tok lx' ->
  Cli.repr (Token.lexeme tok)
  = String Cli.apostrophe (Token.lexeme tok +:+ String Cli.apostrophe EmptyString).
Proof.
  intros H%next_token_well_formed.
  destruct H as [ln cl|lex ln cl Hk|c run ln cl i Hc Hr Hk|lex ln cl Hne Hd|lex ty ln cl Hk];
    tok_simpl.
  - done.
  - unfold KEYWORDS in Hk. apply elem_of_list_to_set in Hk.
    repeat (apply elem_of_cons in Hk as [->|Hk]; [done|]).
    by apply elem_of_nil in Hk.
  - apply repr_plain. simpl. rewrite (ident_char_plainly c (ident_start_char c Hc)).
    eapply all_chars_impl; [|exact Hr]. apply ident_char_plainly.
  - apply repr_plain. eapply all_chars_impl; [|exact Hd]. apply decimal_plainly.
  - destruct Hk as [H|[H|H]]; apply elem_of_list_to_map_2 in H;
      repeat (apply elem_of_cons in H as [H|H]; [by injection H as -> ->|]);
      by apply elem_of_nil in H.
Qed.

Lemma printed_lexeme_is_verbatim_witness :
  let tok := Token4 "MEOI" "<=" 1 1 in
  next_token (init "<= b") = Return tok (Lexer.Make "<= b" 2 1 3 ∅ 0)
  /\ Cli.repr (Token.lexeme tok) = "'<='"
  /\ Cli.token_line tok = "MEOI       '<='           @(1,1)".
Proof.
  cbv zeta.
  assert (next_token (init "<= b")
          = Return (Token4 "MEOI" "<=" 1 1) (Lexer.Make "<= b" 2 1 3 ∅ 0)) as H
    by (by vm_compute).
  split; [exact H|]. split; [|by vm_compute].
  exact (printed_lexeme_is_verbatim _ _ _ H).
Defined.


End Driver.
